(** * KoalaNLP data model (src/data.ts, src/common.ts): a shallow embedding

    The TypeScript classes of [src/data.ts] are embedded as records living in
    an explicit object store.  A JavaScript object reference is an address in
    the store, a constructor is a computation in a state-and-exception monad
    over the store, and a [throw] is a [Throw] result that keeps the store as
    it was at the moment of the throw.

    Modelling conventions
    - every object that extends [ImmutableArray] is returned wrapped in a
      [Proxy]; the proxy is the only reference that ever escapes, so proxy and
      target are one address here, and the proxy's numeric [get] trap is the
      function [proxy_index];
    - the accessor pairs installed by [writeonlyonce] are closures over one
      variable [value]; such a closure is a [cell] stored in the object;
    - plain array fields ([Morpheme.entities], [Word.dependentEdges], ...) are
      stored inline as lists and [push] appends to them;
    - [types.ts] and the JVM bridge are not part of the sources at hand: enum
      objects are [VEnum cls tagname] values, and what the bridge delivers is
      described by the [J...] records below;
    - the [reference] handle of [JavaWrappable] is left out: on the paths
      embedded here it is assigned at most once per object, to an object
      whose handle is still unset, so its setter never throws. *)

From Stdlib Require Import Sorting.Sorted Sorting.Permutation.
From stdpp Require Import base numbers list strings option.

Open Scope string_scope.
Open Scope list_scope.
Open Scope Z_scope.

(** ** Values, errors, objects *)

(** An object reference: an address in the store. *)
Notation ref := nat (only parsing).

(** The tag classes of [types.ts]. *)
Inductive enum_class : Type := POS | PhraseTag | DependencyTag | RoleType | CoarseEntityType.

#[global] Instance enum_class_eq_dec : EqDecision enum_class.
Proof. solve_decision. Defined.

Definition enum_class_name (cls : enum_class) : string :=
  match cls with
  | POS => "POS"
  | PhraseTag => "PhraseTag"
  | DependencyTag => "DependencyTag"
  | RoleType => "RoleType"
  | CoarseEntityType => "CoarseEntityType"
  end.

(** JavaScript values that reach the data model. *)
Inductive value : Type :=
| VUndefined
| VNull
| VNum (n : Z)
| VStr (s : string)
| VEnum (cls : enum_class) (tagname : string)   (* a tag object of types.ts *)
| VObj (r : ref).

#[global] Instance value_eq_dec : EqDecision value.
Proof. solve_decision. Defined.

(** common.ts, [isDefined]. *)
Definition isDefined (v : value) : bool :=
  match v with
  | VUndefined | VNull => false
  | _ => true
  end.

(** common.ts, [getOrUndefined]. *)
Definition getOrUndefined (v : value) : value :=
  if isDefined v then v else VUndefined.

(** Everything the data model throws is a [TypeError]; the constructors keep
    apart the places that throw.  The two values of a write-once violation
    stand for their [toString()] renderings in the message. *)
Inductive error : Type :=
| TypeError_expected (types : list string) (actual : string)
    (* typeCheck: "[types] 중 하나를 기대했지만 actual 타입이 들어왔습니다!" *)
| TypeError_assert (msg : string)
| TypeError_writeonce (property : string) (current new : value)
    (* "property 변수는 1회 초기화된 이후에는 변경할 수 없습니다. (현재 값 .., 새 값 ..)" *)
| TypeError_replace (property : string)
| TypeError_native.
    (* raised by the runtime: property access on undefined or null *)

(** The closure created by [writeonlyonce] for one property. *)
Record cell : Type := Cell {
  cell_property : string;
  cell_defValue : value;
  cell_value : value
}.

(** [writeonlyonce(target, defValue, ...properties)], one property:
    [let value = undefined]. *)
Definition writeonlyonce (defValue : value) (property : string) : cell :=
  Cell property defValue VUndefined.

(** [descriptor.get]. *)
Definition cell_get (c : cell) : value :=
  if negb (isDefined (cell_value c)) then cell_defValue c else cell_value c.

(** [descriptor.set]: the new closure state, or the error thrown (the state
    is then the old one). *)
Definition cell_set (c : cell) (newValue : value) : error + cell :=
  if decide (cell_value c = newValue) then inr c
  else if isDefined (cell_value c) then
    (* the message evaluates value.toString() and then newValue.toString() *)
    if isDefined newValue
    then inl (TypeError_writeonce (cell_property c) (cell_value c) newValue)
    else inl TypeError_native
  else inr (Cell (cell_property c) (cell_defValue c) newValue).

Record Morpheme : Type := {
  morph_surface : value;
  morph_tag : value;
  morph_originalTag : value;
  morph_id : cell;
  morph_word : cell;
  morph_wordsense : cell;        (* the accessor the constructor installs *)
  morph_wordSense : value;       (* the declared field, a plain property *)
  morph_entities : list value
}.

Record Word : Type := {
  word_items : list value;
  word_surface : value;
  word_id : cell;
  word_phrase : cell;
  word_governorEdge : cell;
  word_dependentEdges : list value;
  word_argumentRoles : list value;
  word_predicateRoles : list value
}.

Record Entity : Type := {
  entity_items : list value;
  entity_surface : value;
  entity_label : value;
  entity_fineLabel : value;
  entity_originalLabel : value;
  entity_corefGroup : cell
}.

Record CoreferenceGroup : Type := {
  coref_items : list value
}.

Inductive tree_class : Type := ClsTree | ClsSyntaxTree.

Record TreeObj : Type := {
  tree_class_of : tree_class;
  tree_items : list value;
  tree_label : value;
  tree_terminal : value;
  tree_parent : cell;
  tree_originalLabel : value
}.

Inductive edge_class : Type := ClsDAGEdge | ClsDepEdge | ClsRoleEdge.

Record Edge : Type := {
  edge_class_of : edge_class;
  edge_src : value;
  edge_dest : value;
  edge_label : value;
  edge_type : value;             (* DepEdge._type *)
  edge_modifiers : list value;   (* RoleEdge._modifiers *)
  edge_originalLabel : value
}.

(** A property that is either a plain data property or an accessor pair
    installed by [writeonlyonce]. *)
Inductive property : Type :=
| Plain (v : value)
| Accessor (c : cell).

Record Sentence : Type := {
  sent_items : list value;
  sent_syntaxTree : property;
  sent_dependencies : list value;
  sent_roles : list value;
  sent_entities : list value;
  sent_corefGroups : list value
}.

Inductive obj : Type :=
| OMorpheme (m : Morpheme)
| OWord (w : Word)
| OEntity (e : Entity)
| OCoreferenceGroup (g : CoreferenceGroup)
| OTree (t : TreeObj)
| OEdge (e : Edge)
| OSentence (s : Sentence).

(** [value.constructor.name] of an object. *)
Definition className (o : obj) : string :=
  match o with
  | OMorpheme _ => "Morpheme"
  | OWord _ => "Word"
  | OEntity _ => "Entity"
  | OCoreferenceGroup _ => "CoreferenceGroup"
  | OTree t => match tree_class_of t with ClsTree => "Tree" | ClsSyntaxTree => "SyntaxTree" end
  | OEdge e => match edge_class_of e with
               | ClsDAGEdge => "DAGEdge" | ClsDepEdge => "DepEdge" | ClsRoleEdge => "RoleEdge"
               end
  | OSentence _ => "Sentence"
  end.

(** The object store: address [r] is position [r]; allocation appends. *)
Notation heap := (list obj).

(** ** The store-and-exception monad *)

Inductive result (A : Type) : Type :=
| Ok (a : A) (h : heap)
| Throw (e : error) (h : heap).
Arguments Ok {A} a h.
Arguments Throw {A} e h.

Definition M (A : Type) : Type := heap -> result A.

Definition ret {A} (a : A) : M A := fun h => Ok a h.
Definition throw {A} (e : error) : M A := fun h => Throw e h.
Definition bind {A B} (c : M A) (k : A -> M B) : M B :=
  fun h => match c h with
           | Ok a h' => k a h'
           | Throw e h' => Throw e h'
           end.

Notation "'let!' x ':=' c 'in' k" := (bind c (fun x => k))
  (at level 10, x pattern, c at level 100, k at level 200).
Notation "c ';;;' k" := (bind c (fun _ => k))
  (at level 100, k at level 200, right associativity).

(** [array.map(f)] with an effectful callback, left to right. *)
Definition mapM {A B} (f : A -> M B) : list A -> M (list B) :=
  fix go (l : list A) : M (list B) :=
    match l with
    | [] => ret []
    | x :: l' => let! y := f x in let! ys := go l' in ret (y :: ys)
    end.

(** [for (const x of l) body(x)]. *)
Fixpoint forM {A} (body : A -> M unit) (l : list A) : M unit :=
  match l with
  | [] => ret tt
  | x :: l' => body x ;;; forM body l'
  end.

(** [for (const [i, x] of l.entries()) body(i, x)], counting from [i]. *)
Fixpoint forM_entries {A} (body : Z -> A -> M unit) (i : Z) (l : list A) : M unit :=
  match l with
  | [] => ret tt
  | x :: l' => body i x ;;; forM_entries body (i + 1) l'
  end.

Definition alloc (o : obj) : M ref := fun h => Ok (length h) (h ++ [o]).

(** ** common.ts *)

(** [assert(condition, msg)]. *)
Definition assert (condition : bool) (msg : string) : M unit :=
  if condition then ret tt else throw (TypeError_assert msg).

(** [typeof value], replaced by [value.constructor.name] for objects.
    [typeof null] is 'object' and [null.constructor] throws: [None]. *)
Definition typeName (h : heap) (v : value) : option string :=
  match v with
  | VUndefined => Some "undefined"
  | VNull => None
  | VNum _ => Some "number"
  | VStr _ => Some "string"
  | VEnum cls _ => Some (enum_class_name cls)
  | VObj r => className <$> h !! r
  end.

Fixpoint typeNames (h : heap) (values : list value) : option (list string) :=
  match values with
  | [] => Some []
  | v :: vs =>
      match typeName h v with
      | None => None
      | Some t => match typeNames h vs with None => None | Some ts => Some (t :: ts) end
      end
  end.

(** [typeCheck(values, ...types)]: the type names are computed for all values
    first, then asserted in order of first occurrence. *)
Definition typeCheck (values : list value) (types : list string) : M unit :=
  fun h =>
    match typeNames h values with
    | None => Throw TypeError_native h
    | Some ts =>
        match List.find (fun t => negb (bool_decide (t ∈ types))) ts with
        | Some t => Throw (TypeError_expected types t) h
        | None => Ok tt h
        end
    end.

(** ** Field access on stored objects

    Each setter below is applied to a value that a preceding [typeCheck] has
    shown to be an object of the expected class; the other cases are kept
    total by raising the runtime's error. *)

Definition run_cell_set {A} (c : cell) (newValue : value) (k : cell -> A)
    (store : A -> heap) (h : heap) : result unit :=
  match cell_set c newValue with
  | inr c' => Ok tt (store (k c'))
  | inl e => Throw e h
  end.

Definition set_morph_word (c : cell) (m : Morpheme) : Morpheme :=
  {| morph_surface := morph_surface m; morph_tag := morph_tag m;
     morph_originalTag := morph_originalTag m; morph_id := morph_id m;
     morph_word := c; morph_wordsense := morph_wordsense m;
     morph_wordSense := morph_wordSense m; morph_entities := morph_entities m |}.

Definition set_morph_id (c : cell) (m : Morpheme) : Morpheme :=
  {| morph_surface := morph_surface m; morph_tag := morph_tag m;
     morph_originalTag := morph_originalTag m; morph_id := c;
     morph_word := morph_word m; morph_wordsense := morph_wordsense m;
     morph_wordSense := morph_wordSense m; morph_entities := morph_entities m |}.

Definition set_morph_wordSense (v : value) (m : Morpheme) : Morpheme :=
  {| morph_surface := morph_surface m; morph_tag := morph_tag m;
     morph_originalTag := morph_originalTag m; morph_id := morph_id m;
     morph_word := morph_word m; morph_wordsense := morph_wordsense m;
     morph_wordSense := v; morph_entities := morph_entities m |}.

Definition set_morph_entities (l : list value) (m : Morpheme) : Morpheme :=
  {| morph_surface := morph_surface m; morph_tag := morph_tag m;
     morph_originalTag := morph_originalTag m; morph_id := morph_id m;
     morph_word := morph_word m; morph_wordsense := morph_wordsense m;
     morph_wordSense := morph_wordSense m; morph_entities := l |}.

Definition set_word_id (c : cell) (w : Word) : Word :=
  {| word_items := word_items w; word_surface := word_surface w; word_id := c;
     word_phrase := word_phrase w; word_governorEdge := word_governorEdge w;
     word_dependentEdges := word_dependentEdges w;
     word_argumentRoles := word_argumentRoles w;
     word_predicateRoles := word_predicateRoles w |}.

Definition set_word_phrase (c : cell) (w : Word) : Word :=
  {| word_items := word_items w; word_surface := word_surface w; word_id := word_id w;
     word_phrase := c; word_governorEdge := word_governorEdge w;
     word_dependentEdges := word_dependentEdges w;
     word_argumentRoles := word_argumentRoles w;
     word_predicateRoles := word_predicateRoles w |}.

Definition set_word_governorEdge (c : cell) (w : Word) : Word :=
  {| word_items := word_items w; word_surface := word_surface w; word_id := word_id w;
     word_phrase := word_phrase w; word_governorEdge := c;
     word_dependentEdges := word_dependentEdges w;
     word_argumentRoles := word_argumentRoles w;
     word_predicateRoles := word_predicateRoles w |}.

Definition set_word_dependentEdges (l : list value) (w : Word) : Word :=
  {| word_items := word_items w; word_surface := word_surface w; word_id := word_id w;
     word_phrase := word_phrase w; word_governorEdge := word_governorEdge w;
     word_dependentEdges := l;
     word_argumentRoles := word_argumentRoles w;
     word_predicateRoles := word_predicateRoles w |}.

Definition set_word_argumentRoles (l : list value) (w : Word) : Word :=
  {| word_items := word_items w; word_surface := word_surface w; word_id := word_id w;
     word_phrase := word_phrase w; word_governorEdge := word_governorEdge w;
     word_dependentEdges := word_dependentEdges w;
     word_argumentRoles := l;
     word_predicateRoles := word_predicateRoles w |}.

Definition set_word_predicateRoles (l : list value) (w : Word) : Word :=
  {| word_items := word_items w; word_surface := word_surface w; word_id := word_id w;
     word_phrase := word_phrase w; word_governorEdge := word_governorEdge w;
     word_dependentEdges := word_dependentEdges w;
     word_argumentRoles := word_argumentRoles w;
     word_predicateRoles := l |}.

Definition set_entity_corefGroup (c : cell) (e : Entity) : Entity :=
  {| entity_items := entity_items e; entity_surface := entity_surface e;
     entity_label := entity_label e; entity_fineLabel := entity_fineLabel e;
     entity_originalLabel := entity_originalLabel e; entity_corefGroup := c |}.

Definition set_tree_parent (c : cell) (t : TreeObj) : TreeObj :=
  {| tree_class_of := tree_class_of t; tree_items := tree_items t;
     tree_label := tree_label t; tree_terminal := tree_terminal t;
     tree_parent := c; tree_originalLabel := tree_originalLabel t |}.

(** [morph.word = newValue] *)
Definition Morpheme_assign_word (morph newValue : value) : M unit :=
  fun h =>
    match morph with
    | VObj r =>
        match h !! r with
        | Some (OMorpheme m) =>
            run_cell_set (morph_word m) newValue (fun c => set_morph_word c m)
              (fun m' => <[r := OMorpheme m']> h) h
        | _ => Throw TypeError_native h
        end
    | _ => Throw TypeError_native h
    end.

(** [morph.id = newValue] *)
Definition Morpheme_assign_id (morph newValue : value) : M unit :=
  fun h =>
    match morph with
    | VObj r =>
        match h !! r with
        | Some (OMorpheme m) =>
            run_cell_set (morph_id m) newValue (fun c => set_morph_id c m)
              (fun m' => <[r := OMorpheme m']> h) h
        | _ => Throw TypeError_native h
        end
    | _ => Throw TypeError_native h
    end.

(** [morph.wordSense = newValue]: no accessor of that name exists, the
    assignment writes the plain property. *)
Definition Morpheme_assign_wordSense (morph newValue : value) : M unit :=
  fun h =>
    match morph with
    | VObj r =>
        match h !! r with
        | Some (OMorpheme m) => Ok tt (<[r := OMorpheme (set_morph_wordSense newValue m)]> h)
        | _ => Throw TypeError_native h
        end
    | _ => Throw TypeError_native h
    end.

(** [morph.entities.push(x)] *)
Definition Morpheme_push_entities (morph x : value) : M unit :=
  fun h =>
    match morph with
    | VObj r =>
        match h !! r with
        | Some (OMorpheme m) =>
            Ok tt (<[r := OMorpheme (set_morph_entities (morph_entities m ++ [x]) m)]> h)
        | _ => Throw TypeError_native h
        end
    | _ => Throw TypeError_native h
    end.

(** [word.id = newValue] *)
Definition Word_assign_id (word newValue : value) : M unit :=
  fun h =>
    match word with
    | VObj r =>
        match h !! r with
        | Some (OWord w) =>
            run_cell_set (word_id w) newValue (fun c => set_word_id c w)
              (fun w' => <[r := OWord w']> h) h
        | _ => Throw TypeError_native h
        end
    | _ => Throw TypeError_native h
    end.

(** [word.phrase = newValue] *)
Definition Word_assign_phrase (word newValue : value) : M unit :=
  fun h =>
    match word with
    | VObj r =>
        match h !! r with
        | Some (OWord w) =>
            run_cell_set (word_phrase w) newValue (fun c => set_word_phrase c w)
              (fun w' => <[r := OWord w']> h) h
        | _ => Throw TypeError_native h
        end
    | _ => Throw TypeError_native h
    end.

(** [word.governorEdge = newValue] *)
Definition Word_assign_governorEdge (word newValue : value) : M unit :=
  fun h =>
    match word with
    | VObj r =>
        match h !! r with
        | Some (OWord w) =>
            run_cell_set (word_governorEdge w) newValue (fun c => set_word_governorEdge c w)
              (fun w' => <[r := OWord w']> h) h
        | _ => Throw TypeError_native h
        end
    | _ => Throw TypeError_native h
    end.

(** [word.dependentEdges.push(x)], [word.argumentRoles.push(x)],
    [word.predicateRoles.push(x)] *)
Definition Word_push (field : Word -> list value) (store : list value -> Word -> Word)
    (word x : value) : M unit :=
  fun h =>
    match word with
    | VObj r =>
        match h !! r with
        | Some (OWord w) => Ok tt (<[r := OWord (store (field w ++ [x]) w)]> h)
        | _ => Throw TypeError_native h
        end
    | _ => Throw TypeError_native h
    end.

Definition Word_push_dependentEdges := Word_push word_dependentEdges set_word_dependentEdges.
Definition Word_push_argumentRoles := Word_push word_argumentRoles set_word_argumentRoles.
Definition Word_push_predicateRoles := Word_push word_predicateRoles set_word_predicateRoles.

(** [entity.corefGroup = newValue] *)
Definition Entity_assign_corefGroup (entity newValue : value) : M unit :=
  fun h =>
    match entity with
    | VObj r =>
        match h !! r with
        | Some (OEntity e) =>
            run_cell_set (entity_corefGroup e) newValue (fun c => set_entity_corefGroup c e)
              (fun e' => <[r := OEntity e']> h) h
        | _ => Throw TypeError_native h
        end
    | _ => Throw TypeError_native h
    end.

(** [child.parent = newValue] *)
Definition Tree_assign_parent (child newValue : value) : M unit :=
  fun h =>
    match child with
    | VObj r =>
        match h !! r with
        | Some (OTree t) =>
            run_cell_set (tree_parent t) newValue (fun c => set_tree_parent c t)
              (fun t' => <[r := OTree t']> h) h
        | _ => Throw TypeError_native h
        end
    | _ => Throw TypeError_native h
    end.

(** ** Constructors

    An object under construction cannot be reached by anyone until the checks
    of its constructor (and of the constructors it extends) have passed, so
    it enters the store at that point, just before the constructor's side
    effects on other objects start.  Array-valued arguments are lists;
    [None] is an absent (undefined) array. *)

(** [(x instanceof Cls) ? x.tagname : x] *)
Definition tagname_if (cls : enum_class) (x : value) : value :=
  match x with
  | VEnum c n => if decide (c = cls) then VStr n else x
  | _ => x
  end.

(** [new Morpheme({surface, tag, originalTag, reference})].  [reference] is
    the bridged native morpheme, given by what its [getWordSense()] returns. *)
Definition Morpheme_new (surface tag originalTag : value) (reference : option value) : M value :=
  typeCheck [surface] ["string"] ;;;
  typeCheck [tag] ["string"; "POS"] ;;;
  typeCheck [originalTag] ["undefined"; "string"] ;;;
  let! this := alloc (OMorpheme
    {| morph_surface := surface;
       morph_tag := tagname_if POS tag;
       morph_originalTag := originalTag;
       morph_id := writeonlyonce (VNum (-1)) "id";
       morph_word := writeonlyonce VUndefined "word";
       morph_wordsense := writeonlyonce VUndefined "wordsense";
       morph_wordSense := VUndefined;
       morph_entities := [] |}) in
  match reference with
  | Some wordSense => Morpheme_assign_wordSense (VObj this) (getOrUndefined wordSense)
  | None => ret tt
  end ;;;
  ret (VObj this).

(** [new Word({surface, morphemes, reference})] *)
Definition Word_new (surface : value) (morphemes : list value) : M value :=
  typeCheck morphemes ["Morpheme"] ;;;
  typeCheck [surface] ["string"] ;;;
  let! this := alloc (OWord
    {| word_items := morphemes;
       word_surface := surface;
       word_id := writeonlyonce (VNum (-1)) "id";
       word_phrase := writeonlyonce VUndefined "phrase";
       word_governorEdge := writeonlyonce VUndefined "governorEdge";
       word_dependentEdges := [];
       word_argumentRoles := [];
       word_predicateRoles := [] |}) in
  forM_entries (fun i morph =>
      Morpheme_assign_word morph (VObj this) ;;;
      Morpheme_assign_id morph (VNum i)) 0 morphemes ;;;
  ret (VObj this).

(** [new Entity({surface, label, fineLabel, morphemes, originalLabel})] *)
Definition Entity_new (surface label fineLabel : value) (morphemes : list value)
    (originalLabel : value) : M value :=
  typeCheck morphemes ["Morpheme"] ;;;
  typeCheck [surface; fineLabel] ["string"] ;;;
  typeCheck [label] ["string"; "CoarseEntityType"] ;;;
  typeCheck [originalLabel] ["undefined"; "string"] ;;;
  let! this := alloc (OEntity
    {| entity_items := morphemes;
       entity_surface := surface;
       entity_label := tagname_if CoarseEntityType label;
       entity_fineLabel := fineLabel;
       entity_originalLabel := originalLabel;
       entity_corefGroup := writeonlyonce VUndefined "corefGroup" |}) in
  forM (fun morph => Morpheme_push_entities morph (VObj this)) morphemes ;;;
  ret (VObj this).

(** [new CoreferenceGroup(entities)] *)
Definition CoreferenceGroup_new (entities : list value) : M value :=
  typeCheck entities ["Entity"] ;;;
  let! this := alloc (OCoreferenceGroup {| coref_items := entities |}) in
  forM (fun entity => Entity_assign_corefGroup entity (VObj this)) entities ;;;
  ret (VObj this).

(** The checks of [Tree]'s constructor, run by [super(value)].
    [typeCheck(undefined, ...)] fails in [values.map]. *)
Definition Tree_super (label terminal : value) (children : option (list value)) : M (list value) :=
  match children with
  | None => throw TypeError_native
  | Some items =>
      typeCheck items ["SyntaxTree"; "Tree"] ;;;
      typeCheck [label] ["string"] ;;;
      typeCheck [terminal] ["undefined"; "Word"] ;;;
      ret items
  end.

(** [new Tree({label, terminal, children})] *)
Definition Tree_new (label terminal : value) (children : option (list value)) : M value :=
  let! items := Tree_super label terminal children in
  let! this := alloc (OTree
    {| tree_class_of := ClsTree; tree_items := items; tree_label := label;
       tree_terminal := terminal;
       tree_parent := writeonlyonce VUndefined "parent";
       tree_originalLabel := VUndefined |}) in
  ret (VObj this).

(** [new SyntaxTree({label, terminal, children, originalLabel})]:
    [super(value)] runs before [children] is defaulted and [label] is
    normalised. *)
Definition SyntaxTree_new (label terminal : value) (children : option (list value))
    (originalLabel : value) : M value :=
  let! items := Tree_super label terminal children in
  typeCheck [label] ["string"; "PhraseTag"] ;;;
  typeCheck [originalLabel] ["undefined"; "string"] ;;;
  let! this := alloc (OTree
    {| tree_class_of := ClsSyntaxTree; tree_items := items; tree_label := label;
       tree_terminal := terminal;
       tree_parent := writeonlyonce VUndefined "parent";
       tree_originalLabel := originalLabel |}) in
  (if decide (terminal = VUndefined) then ret tt
   else Word_assign_phrase terminal (VObj this)) ;;;
  forM (fun child => Tree_assign_parent child (VObj this)) items ;;;
  ret (VObj this).

(** The checks of [DAGEdge]'s constructor, run by [super(value)] on the
    [src], [dest] and [label] that [value] holds at that moment. *)
Definition DAGEdge_super (src dest label : value) : M unit :=
  typeCheck [src] ["undefined"; "Word"] ;;;
  typeCheck [dest] ["Word"] ;;;
  typeCheck [label] ["undefined"; "string"].

(** [new DepEdge({governor, dependent, type, depType, originalLabel,
    src, dest, label})].  [super(value)] comes first, so the edge keeps the
    [src], [dest] and [label] the caller put into [value]; the later
    assignments [value.src = value.governor], ... only change the argument
    object. *)
Definition DepEdge_new (governor dependent type depType originalLabel src dest label : value)
    : M value :=
  DAGEdge_super src dest label ;;;
  typeCheck [type] ["string"; "PhraseTag"] ;;;
  typeCheck [depType] ["undefined"; "string"; "DependencyTag"] ;;;
  typeCheck [originalLabel] ["undefined"; "string"] ;;;
  let! this := alloc (OEdge
    {| edge_class_of := ClsDepEdge; edge_src := src; edge_dest := dest;
       edge_label := label;
       edge_type := tagname_if PhraseTag type;
       edge_modifiers := [];
       edge_originalLabel := originalLabel |}) in
  (if isDefined dest then Word_assign_governorEdge dest (VObj this) else ret tt) ;;;
  (if isDefined src then Word_push_dependentEdges src (VObj this) else ret tt) ;;;
  ret (VObj this).

(** [new RoleEdge({predicate, argument, label, modifiers, originalLabel})] *)
Definition RoleEdge_new (predicate argument label : value) (modifiers : option (list value))
    (originalLabel : value) : M value :=
  typeCheck [label] ["string"; "RoleType"] ;;;
  typeCheck [originalLabel] ["undefined"; "string"] ;;;
  let modifiers := default [] modifiers in
  typeCheck modifiers ["Word"] ;;;
  assert (isDefined predicate) "[value.predicate]은 undefined일 수 없습니다." ;;;
  let label := tagname_if RoleType label in
  let src := predicate in
  let dest := argument in
  DAGEdge_super src dest label ;;;
  let! this := alloc (OEdge
    {| edge_class_of := ClsRoleEdge; edge_src := src; edge_dest := dest;
       edge_label := label;
       edge_type := VUndefined;
       edge_modifiers := modifiers;
       edge_originalLabel := originalLabel |}) in
  (if isDefined dest then Word_push_predicateRoles dest (VObj this) else ret tt) ;;;
  (if isDefined src then Word_push_argumentRoles src (VObj this) else ret tt) ;;;
  ret (VObj this).

(** ** ImmutableArray *)

(** [Array.prototype.indexOf]: the first index holding [v] (strict
    equality), -1 if there is none. *)
Fixpoint Array_indexOf_from (i : Z) (items : list value) (v : value) : Z :=
  match items with
  | [] => -1
  | x :: items' => if decide (x = v) then i else Array_indexOf_from (i + 1) items' v
  end.

Definition Array_indexOf (items : list value) (v : value) : Z :=
  Array_indexOf_from 0 items v.

(** [Array.prototype.findIndex] *)
Fixpoint Array_findIndex_from {A} (predicate : A -> bool) (i : Z) (items : list A) : Z :=
  match items with
  | [] => -1
  | x :: items' => if predicate x then i else Array_findIndex_from predicate (i + 1) items'
  end.

Definition Array_findIndex {A} (predicate : A -> bool) (items : list A) : Z :=
  Array_findIndex_from predicate 0 items.

(** lodash [_.findLastIndex]: scans from the right end. *)
Fixpoint lodash_findLastIndex_from {A} (predicate : A -> bool) (i : Z) (items : list A) : Z :=
  match items with
  | [] => -1
  | x :: items' =>
      let later := lodash_findLastIndex_from predicate (i + 1) items' in
      if decide (later = -1) then (if predicate x then i else -1) else later
  end.

Definition lodash_findLastIndex {A} (predicate : A -> bool) (items : list A) : Z :=
  lodash_findLastIndex_from predicate 0 items.

(** [ImmutableArray.indexOf(value)]: [this._items.indexOf(value)] *)
Definition ImmutableArray_indexOf (_items : list value) (v : value) : Z :=
  Array_indexOf _items v.

(** [ImmutableArray.lastIndexOf(value)]: [this._items.indexOf(value)] *)
Definition ImmutableArray_lastIndexOf (_items : list value) (v : value) : Z :=
  Array_indexOf _items v.

(** What [Array.prototype.lastIndexOf], which the method's documentation
    refers to, returns: the greatest index holding [v], -1 if none. *)
Definition Array_lastIndexOf (items : list value) (v : value) : Z :=
  lodash_findLastIndex (fun x => bool_decide (x = v)) items.

(** The numeric [get] trap of the proxy: [_items[name]] for [name >= 0],
    [_items[length + name]] otherwise; a missing index reads [undefined]. *)
Definition proxy_index (_items : list value) (name : Z) : value :=
  let i := if decide (0 <= name) then name else Z.of_nat (length _items) + name in
  if decide (0 <= i) then default VUndefined (_items !! Z.to_nat i) else VUndefined.

(** [Array.prototype.sort(compare)] for a consistent comparator: a stable
    sort, written as insertion sort. *)
Fixpoint sort_insert {A} (compare : A -> A -> Z) (x : A) (sorted : list A) : list A :=
  match sorted with
  | [] => [x]
  | y :: sorted' =>
      if decide (compare x y <= 0) then x :: y :: sorted'
      else y :: sort_insert compare x sorted'
  end.

Fixpoint Array_sort {A} (compare : A -> A -> Z) (items : list A) : list A :=
  match items with
  | [] => []
  | x :: items' => sort_insert compare x (Array_sort compare items')
  end.

(** ** Tree *)

(** The [id] getter of a Word, as the number the comparator subtracts.
    [id] is declared [number]; its default is -1. *)
Definition Word_id (h : heap) (word : value) : Z :=
  match word with
  | VObj r =>
      match h !! r with
      | Some (OWord w) => match cell_get (word_id w) with VNum n => n | _ => -1 end
      | _ => -1
      end
  | _ => -1
  end.

(** A Tree object together with the Tree objects below it.  The children of
    a node are frozen at construction and exist before the node does, so the
    object graph under a node is finite and acyclic and is given by its
    unfolding. *)
Unset Elimination Schemes.
Inductive Tree : Type :=
| TreeNode (_label : value) (terminal : value) (children : list Tree).
Set Elimination Schemes.

(** [Tree.getTerminals()] *)
Fixpoint getTerminals (h : heap) (this : Tree) : list value :=
  match this with
  | TreeNode _ terminal children =>
      let leaves := fold_left (fun acc child => acc ++ getTerminals h child) children [] in
      let leaves := if decide (terminal = VUndefined) then leaves else leaves ++ [terminal] in
      Array_sort (fun x y => Word_id h x - Word_id h y) leaves
  end.

Fixpoint option_all {A} (l : list (option A)) : option (list A) :=
  match l with
  | [] => Some []
  | Some x :: l' => match option_all l' with Some xs => Some (x :: xs) | None => None end
  | None :: _ => None
  end.

(** The unfolding of the Tree object at [this], to depth [depth]. *)
Fixpoint Tree_unfold (depth : nat) (h : heap) (this : value) : option Tree :=
  match depth, this with
  | S depth', VObj r =>
      match h !! r with
      | Some (OTree t) =>
          match option_all (map (Tree_unfold depth' h) (tree_items t)) with
          | Some children => Some (TreeNode (tree_label t) (tree_terminal t) children)
          | None => None
          end
      | _ => None
      end
  | _, _ => None
  end.

(** The terminal Words reachable from a node: its own terminal, if it has
    one, and those reachable from its children. *)
Fixpoint reachable_terminals (t : Tree) : list value :=
  match t with
  | TreeNode _ terminal children =>
      (if decide (terminal = VUndefined) then [] else [terminal])
      ++ concat (map reachable_terminals children)
  end.

(** The number of nodes under (and including) [t] that carry a terminal. *)
Fixpoint count_terminals (t : Tree) : nat :=
  match t with
  | TreeNode _ terminal children =>
      ((if decide (terminal = VUndefined) then 0 else 1)
       + list_sum (map count_terminals children))%nat
  end.

(** ** equals, Word.entities *)

(** [ImmutableArray.equals(other)], given the [equals] of the elements:
    same length, and pairwise [a.equals(b)] over [_.zip(this._items, other)]. *)
Definition ImmutableArray_equals (elem_equals : value -> value -> bool)
    (_items other : list value) : bool :=
  bool_decide (length other = length _items)
  && forallb (fun ab => elem_equals ab.1 ab.2) (zip _items other).

(** [Morpheme.equals(other)] *)
Definition Morpheme_equals (h : heap) (this other : value) : bool :=
  match this, other with
  | VObj a, VObj b =>
      match h !! a, h !! b with
      | Some (OMorpheme x), Some (OMorpheme y) =>
          bool_decide (morph_surface x = morph_surface y)
          && bool_decide (morph_tag x = morph_tag y)
      | _, _ => false
      end
  | _, _ => false
  end.

(** [Entity.equals(other)] *)
Definition Entity_equals (h : heap) (this other : value) : bool :=
  match this, other with
  | VObj a, VObj b =>
      match h !! a, h !! b with
      | Some (OEntity x), Some (OEntity y) =>
          bool_decide (entity_label x = entity_label y)
          && bool_decide (entity_fineLabel x = entity_fineLabel y)
          && ImmutableArray_equals (Morpheme_equals h) (entity_items x) (entity_items y)
      | _, _ => false
      end
  | _, _ => false
  end.

(** [morpheme.entities] *)
Definition Morpheme_entities (h : heap) (morpheme : value) : list value :=
  match morpheme with
  | VObj r => match h !! r with Some (OMorpheme m) => morph_entities m | _ => [] end
  | _ => []
  end.

(** The [_items] of a Word, of a Sentence. *)
Definition Word_items (h : heap) (word : value) : list value :=
  match word with
  | VObj r => match h !! r with Some (OWord w) => word_items w | _ => [] end
  | _ => []
  end.

Definition Sentence_items (h : heap) (sentence : value) : list value :=
  match sentence with
  | VObj r => match h !! r with Some (OSentence s) => sent_items s | _ => [] end
  | _ => []
  end.

(** The getter [Word.entities]: [result.includes(entity)] compares
    references. *)
Definition Word_entities (h : heap) (this : value) : list value :=
  fold_left (fun result morpheme =>
      fold_left (fun result entity =>
          if bool_decide (entity ∈ result) then result else result ++ [entity])
        (Morpheme_entities h morpheme) result)
    (Word_items h this) [].

(** ** Sentence.nouns

    [types.ts] is not among the sources: the two methods of a POS tag that
    the getter calls are parameters, applied to the stored tag name. *)
Section WordClasses.

(** [POS.withName(_tag).isNoun()] *)
Variable POS_isNoun : value -> bool.
(** [POS.withName(_tag).startsWith(t)] *)
Variable POS_startsWith : value -> string -> bool.

(** [Morpheme.isNoun()] *)
Definition Morpheme_isNoun (m : Morpheme) : bool := POS_isNoun (morph_tag m).

(** [Morpheme.hasTagOneOf(...tags)] *)
Definition Morpheme_hasTagOneOf (m : Morpheme) (tags : list string) : bool :=
  existsb (fun t => POS_startsWith (morph_tag m) t) tags.

(** The Morpheme objects a Word holds, in order. *)
Definition Word_morphemes (h : heap) (word : value) : list Morpheme :=
  omap (fun v => match v with
                 | VObj r => match h !! r with Some (OMorpheme m) => Some m | _ => None end
                 | _ => None
                 end) (Word_items h word).

Definition nouns_inclusion (m : Morpheme) : bool :=
  Morpheme_isNoun m || Morpheme_hasTagOneOf m ["ETN"; "XSN"].

Definition nouns_exclusion (m : Morpheme) : bool :=
  Morpheme_hasTagOneOf m ["XSV"; "XSA"; "XSM"].

(** The getter [Sentence.nouns]. *)
Definition Sentence_nouns (h : heap) (this : value) : list value :=
  fold_left (fun result word =>
      let inclusion := Array_findIndex nouns_inclusion (Word_morphemes h word) in
      let exclusion := lodash_findLastIndex nouns_exclusion (Word_morphemes h word) in
      if bool_decide (inclusion ≠ -1) && bool_decide (inclusion > exclusion)
      then result ++ [word] else result)
    (Sentence_items h this) [].

End WordClasses.

(** ** Sentence *)

Definition set_sent_syntaxTree (p : property) (s : Sentence) : Sentence :=
  {| sent_items := sent_items s; sent_syntaxTree := p;
     sent_dependencies := sent_dependencies s; sent_roles := sent_roles s;
     sent_entities := sent_entities s; sent_corefGroups := sent_corefGroups s |}.

Definition set_sent_dependencies (l : list value) (s : Sentence) : Sentence :=
  {| sent_items := sent_items s; sent_syntaxTree := sent_syntaxTree s;
     sent_dependencies := l; sent_roles := sent_roles s;
     sent_entities := sent_entities s; sent_corefGroups := sent_corefGroups s |}.

Definition set_sent_roles (l : list value) (s : Sentence) : Sentence :=
  {| sent_items := sent_items s; sent_syntaxTree := sent_syntaxTree s;
     sent_dependencies := sent_dependencies s; sent_roles := l;
     sent_entities := sent_entities s; sent_corefGroups := sent_corefGroups s |}.

Definition set_sent_entities (l : list value) (s : Sentence) : Sentence :=
  {| sent_items := sent_items s; sent_syntaxTree := sent_syntaxTree s;
     sent_dependencies := sent_dependencies s; sent_roles := sent_roles s;
     sent_entities := l; sent_corefGroups := sent_corefGroups s |}.

Definition set_sent_corefGroups (l : list value) (s : Sentence) : Sentence :=
  {| sent_items := sent_items s; sent_syntaxTree := sent_syntaxTree s;
     sent_dependencies := sent_dependencies s; sent_roles := sent_roles s;
     sent_entities := sent_entities s; sent_corefGroups := l |}.

(** [this.syntaxTree = newValue] *)
Definition Sentence_assign_syntaxTree (this newValue : value) : M unit :=
  fun h =>
    match this with
    | VObj r =>
        match h !! r with
        | Some (OSentence s) =>
            match sent_syntaxTree s with
            | Plain _ => Ok tt (<[r := OSentence (set_sent_syntaxTree (Plain newValue) s)]> h)
            | Accessor c =>
                run_cell_set c newValue (fun c' => set_sent_syntaxTree (Accessor c') s)
                  (fun s' => <[r := OSentence s']> h) h
            end
        | _ => Throw TypeError_native h
        end
    | _ => Throw TypeError_native h
    end.

(** The setter installed by [replaceableifempty] for one property, assigned
    a freshly built array (which is never the stored one):
    [if (value.length > 0) throw ...; value = Object.freeze(newValue)]. *)
Definition Sentence_assign_list (property : string) (field : Sentence -> list value)
    (store : list value -> Sentence -> Sentence) (this : value) (newValue : list value) : M unit :=
  fun h =>
    match this with
    | VObj r =>
        match h !! r with
        | Some (OSentence s) =>
            if decide (0 < length (field s))%nat then Throw (TypeError_replace property) h
            else Ok tt (<[r := OSentence (store newValue s)]> h)
        | _ => Throw TypeError_native h
        end
    | _ => Throw TypeError_native h
    end.

(** [this.entities] *)
Definition Sentence_entities (h : heap) (this : value) : list value :=
  match this with
  | VObj r => match h !! r with Some (OSentence s) => sent_entities s | _ => [] end
  | _ => []
  end.

(** [x[name]] for a numeric [name] on a Sentence or a Word; on [undefined]
    the property access throws. *)
Definition index (x : value) (name : Z) : M value :=
  fun h =>
    match x with
    | VObj r =>
        match h !! r with
        | Some (OSentence s) => Ok (proxy_index (sent_items s) name) h
        | Some (OWord w) => Ok (proxy_index (word_items w) name) h
        | _ => Throw TypeError_native h
        end
    | _ => Throw TypeError_native h
    end.

(** What the bridge delivers.  A native Word is referred to by its [getId()],
    a native Morpheme by [getWord().getId()] and [getId()]; [None] is a null
    reference.  Strings and nullable strings are the values the bridge
    converts them to. *)
Record JMorpheme : Type := {
  jm_surface : value;       (* getSurface() *)
  jm_tag : value;           (* getTag().name() *)
  jm_originalTag : value;   (* getOriginalTag() *)
  jm_wordSense : value      (* getWordSense() *)
}.

Record JWord : Type := {
  jw_surface : value;
  jw_morphemes : list JMorpheme
}.

Record JMorphRef : Type := {
  jmr_word : Z;             (* getWord().getId() *)
  jmr_id : Z                (* getId() *)
}.

Unset Elimination Schemes.
Inductive JTree : Type :=
| JTreeNode (label : value) (terminal : option Z) (nonTerminals : list JTree)
    (originalLabel : value).
Set Elimination Schemes.

Record JDepEdge : Type := {
  jd_governor : option Z;
  jd_dependent : option Z;
  jd_type : value;          (* getType().name() *)
  jd_depType : value;       (* null, or the name() of getDepType() *)
  jd_originalLabel : value
}.

Record JRoleEdge : Type := {
  jr_predicate : option Z;
  jr_argument : option Z;
  jr_label : value;         (* getLabel().name() *)
  jr_modifiers : list (option Z);
  jr_originalLabel : value
}.

Record JEntity : Type := {
  je_surface : value;
  je_label : value;         (* getLabel().name() *)
  je_fineLabel : value;
  je_morphemes : list JMorphRef;
  je_originalLabel : value
}.

Record JSentence : Type := {
  js_words : list JWord;
  js_syntaxTree : option JTree;
  js_dependencies : list JDepEdge;
  js_roles : list JRoleEdge;
  js_entities : list JEntity;
  js_corefGroups : list (list JEntity)
}.

(** [Sentence._getWord(jword)] *)
Definition _getWord (this : value) (jword : option Z) : M value :=
  match jword with
  | Some id => index this id
  | None => ret VUndefined
  end.

(** [Sentence._getMorph(jmorph)] *)
Definition _getMorph (this : value) (jmorph : JMorphRef) : M value :=
  let! word := index this (jmr_word jmorph) in
  index word (jmr_id jmorph).

(** [Sentence._reconSyntaxTree(jtree)] for a non-null [jtree] *)
Fixpoint _reconSyntaxTree (this : value) (jtree : JTree) : M value :=
  match jtree with
  | JTreeNode label terminal nonTerminals originalLabel =>
      let! term := match terminal with
                   | Some id => _getWord this (Some id)
                   | None => ret VUndefined
                   end in
      let! nonTerms := match nonTerminals with
                       | [] => ret None
                       | _ => let! l := mapM (_reconSyntaxTree this) nonTerminals in
                              ret (Some l)
                       end in
      SyntaxTree_new label term nonTerms (getOrUndefined originalLabel)
  end.

(** [Sentence._getDepEdge(e)]: the object literal has no [src], [dest],
    [label]. *)
Definition _getDepEdge (this : value) (e : JDepEdge) : M value :=
  let deptype := getOrUndefined (jd_depType e) in
  let! governor := _getWord this (jd_governor e) in
  let! dependent := _getWord this (jd_dependent e) in
  DepEdge_new governor dependent (jd_type e) deptype (getOrUndefined (jd_originalLabel e))
    VUndefined VUndefined VUndefined.

(** [Sentence._getRole(e)] *)
Definition _getRole (this : value) (e : JRoleEdge) : M value :=
  let! predicate := _getWord this (jr_predicate e) in
  let! argument := _getWord this (jr_argument e) in
  let! modifiers := mapM (_getWord this) (jr_modifiers e) in
  RoleEdge_new predicate argument (jr_label e) (Some modifiers)
    (getOrUndefined (jr_originalLabel e)).

(** [Sentence._getEntity(e)] *)
Definition _getEntity (this : value) (e : JEntity) : M value :=
  let! morphemes := mapM (_getMorph this) (je_morphemes e) in
  Entity_new (je_surface e) (je_label e) (je_fineLabel e) morphemes
    (getOrUndefined (je_originalLabel e)).

(** [Array.prototype.find] *)
Definition Array_find (predicate : value -> bool) (items : list value) : value :=
  default VUndefined (List.find predicate items).

(** [Sentence._getCorefGroup(c)] *)
Definition _getCorefGroup (this : value) (c : list JEntity) : M value :=
  let! entities := mapM (fun e =>
      let! referenced := _getEntity this e in
      fun h => Ok (Array_find (fun enty => Entity_equals h enty referenced)
                     (Sentence_entities h this)) h) c in
  CoreferenceGroup_new entities.

(** [new Sentence(value)] for a bridged native sentence. *)
Definition Sentence_reconstruct (jsent : JSentence) : M value :=
  let! words := mapM (fun w =>
      let! morphemes := mapM (fun m =>
          Morpheme_new (jm_surface m) (jm_tag m) (jm_originalTag m) (Some (jm_wordSense m)))
        (jw_morphemes w) in
      Word_new (jw_surface w) morphemes) (js_words jsent) in
  typeCheck words ["Word"] ;;;
  let! r := alloc (OSentence
    {| sent_items := words;
       sent_syntaxTree := Accessor (writeonlyonce VUndefined "syntaxTree");
       sent_dependencies := []; sent_roles := [];
       sent_entities := []; sent_corefGroups := [] |}) in
  let this := VObj r in
  let! tree := match js_syntaxTree jsent with
               | Some jtree => _reconSyntaxTree this jtree
               | None => ret VUndefined
               end in
  Sentence_assign_syntaxTree this tree ;;;
  let! dependencies := mapM (_getDepEdge this) (js_dependencies jsent) in
  Sentence_assign_list "dependencies" sent_dependencies set_sent_dependencies this dependencies ;;;
  let! roles := mapM (_getRole this) (js_roles jsent) in
  Sentence_assign_list "roles" sent_roles set_sent_roles this roles ;;;
  let! entities := mapM (_getEntity this) (js_entities jsent) in
  Sentence_assign_list "entities" sent_entities set_sent_entities this entities ;;;
  let! corefGroups := mapM (_getCorefGroup this) (js_corefGroups jsent) in
  Sentence_assign_list "corefGroups" sent_corefGroups set_sent_corefGroups this corefGroups ;;;
  forM_entries (fun i word => Word_assign_id word (VNum i)) 0 words ;;;
  ret this.

(** [new Sentence(value)] for an array of Words.  Here the call is
    [writeonlyonce(this, 'syntaxTree')], which installs no accessor. *)
Definition Sentence_new (words : list value) : M value :=
  typeCheck words ["Word"] ;;;
  let! r := alloc (OSentence
    {| sent_items := words;
       sent_syntaxTree := Plain VUndefined;
       sent_dependencies := []; sent_roles := [];
       sent_entities := []; sent_corefGroups := [] |}) in
  forM_entries (fun i word => Word_assign_id word (VNum i)) 0 words ;;;
  ret (VObj r).

(** ** The write-once back-references *)

(** The properties for which a constructor installs a [writeonlyonce]
    accessor and which the data model assigns. *)
Inductive backref : Type :=
| Morpheme_word | Morpheme_id
| Word_id_ref | Word_phrase | Word_governorEdge
| Entity_corefGroup | Tree_parent.

(** The closure behind the accessor of [target]. *)
Definition backref_cell (f : backref) (h : heap) (target : value) : option cell :=
  match target with
  | VObj r =>
      match f, h !! r with
      | Morpheme_word, Some (OMorpheme m) => Some (morph_word m)
      | Morpheme_id, Some (OMorpheme m) => Some (morph_id m)
      | Word_id_ref, Some (OWord w) => Some (word_id w)
      | Word_phrase, Some (OWord w) => Some (word_phrase w)
      | Word_governorEdge, Some (OWord w) => Some (word_governorEdge w)
      | Entity_corefGroup, Some (OEntity e) => Some (entity_corefGroup e)
      | Tree_parent, Some (OTree t) => Some (tree_parent t)
      | _, _ => None
      end
  | _ => None
  end.

(** [target.f = newValue] *)
Definition backref_assign (f : backref) : value -> value -> M unit :=
  match f with
  | Morpheme_word => Morpheme_assign_word
  | Morpheme_id => Morpheme_assign_id
  | Word_id_ref => Word_assign_id
  | Word_phrase => Word_assign_phrase
  | Word_governorEdge => Word_assign_governorEdge
  | Entity_corefGroup => Entity_assign_corefGroup
  | Tree_parent => Tree_assign_parent
  end.

(** [target.f] *)
Definition backref_get (f : backref) (h : heap) (target : value) : option value :=
  cell_get <$> backref_cell f h target.

(** [morph.wordSense] *)
Definition Morpheme_wordSense (h : heap) (morph : value) : value :=
  match morph with
  | VObj r => match h !! r with Some (OMorpheme m) => morph_wordSense m | _ => VUndefined end
  | _ => VUndefined
  end.

(** A value that is a Word object of the store. *)
Definition is_Word (h : heap) (v : value) : Prop :=
  exists r w, v = VObj r /\ h !! r = Some (OWord w).

(** A value that is a Morpheme object of the store. *)
Definition is_Morpheme (h : heap) (v : value) : Prop :=
  exists r m, v = VObj r /\ h !! r = Some (OMorpheme m).

(** ** Concrete stores *)

(** The store after a Morpheme, a Word over it and a SyntaxTree over the
    Word have been built: the Word (address 1) has its [phrase] set to the
    tree (address 2). *)
Definition heap_word_in_phrase : heap :=
  match (let! m := Morpheme_new (VStr "밥") (VStr "NNG") VUndefined None in
         let! w := Word_new (VStr "밥") [m] in
         SyntaxTree_new (VStr "NP") w (Some []) VUndefined) [] with
  | Ok _ h => h
  | Throw _ h => h
  end.

(** A Morpheme bridged from a native morpheme whose word sense is 1. *)
Definition heap_morpheme_with_sense : heap :=
  match Morpheme_new (VStr "눈") (VStr "NNG") VUndefined (Some (VNum 1)) [] with
  | Ok _ h => h
  | Throw _ h => h
  end.

(** A store holding one Word (address 1) over one Morpheme (address 0). *)
Definition heap_one_word : heap :=
  match (let! m := Morpheme_new (VStr "밥") (VStr "NNG") VUndefined None in
         Word_new (VStr "밥") [m]) [] with
  | Ok _ h => h
  | Throw _ h => h
  end.

(** ** Reading fields of stored objects *)

Definition Word_dependentEdges (h : heap) (word : value) : list value :=
  match word with
  | VObj r => match h !! r with Some (OWord w) => word_dependentEdges w | _ => [] end
  | _ => []
  end.

Definition Word_argumentRoles (h : heap) (word : value) : list value :=
  match word with
  | VObj r => match h !! r with Some (OWord w) => word_argumentRoles w | _ => [] end
  | _ => []
  end.

Definition Word_predicateRoles (h : heap) (word : value) : list value :=
  match word with
  | VObj r => match h !! r with Some (OWord w) => word_predicateRoles w | _ => [] end
  | _ => []
  end.

(** [edge.src], [edge.dest] *)
Definition Edge_src (h : heap) (edge : value) : value :=
  match edge with
  | VObj r => match h !! r with Some (OEdge e) => edge_src e | _ => VUndefined end
  | _ => VUndefined
  end.

Definition Edge_dest (h : heap) (edge : value) : value :=
  match edge with
  | VObj r => match h !! r with Some (OEdge e) => edge_dest e | _ => VUndefined end
  | _ => VUndefined
  end.

(** Two Words (addresses 1 and 3), each over one Morpheme. *)
Definition heap_two_words : heap :=
  match (let! m1 := Morpheme_new (VStr "밥") (VStr "NNG") VUndefined None in
         let! w1 := Word_new (VStr "밥") [m1] in
         let! m2 := Morpheme_new (VStr "먹") (VStr "VV") VUndefined None in
         Word_new (VStr "먹") [m2]) [] with
  | Ok _ h => h
  | Throw _ h => h
  end.

(** A Morpheme whose [id] closure holds [i] and whose [word] closure holds
    [word]. *)
Definition linked (word : value) (h : heap) (morph : value) (i : Z) : Prop :=
  exists r m, morph = VObj r /\ h !! r = Some (OMorpheme m)
              /\ cell_value (morph_id m) = VNum i
              /\ cell_value (morph_word m) = word.

(** A Morpheme that no Word has been built over: both closures still hold
    [undefined]. *)
Definition unlinked (h : heap) (morph : value) : Prop :=
  exists r m, morph = VObj r /\ h !! r = Some (OMorpheme m)
              /\ cell_value (morph_id m) = VUndefined
              /\ cell_value (morph_word m) = VUndefined.

(** Two Morphemes, not yet in a Word. *)
Definition heap_two_morphemes : heap :=
  match (let! m1 := Morpheme_new (VStr "나") (VStr "NP") VUndefined None in
         Morpheme_new (VStr "는") (VStr "JX") VUndefined None) [] with
  | Ok _ h => h
  | Throw _ h => h
  end.

(** A parsed two-word sentence: Morphemes 0 and 2, Words 1 and 3, the
    Sentence 4 (which gives the Words the ids 0 and 1), a leaf SyntaxTree 5
    over Word 3, a leaf SyntaxTree 6 over Word 1, and the root 7 over the two
    leaves, in that order. *)
Definition heap_parsed_sentence : heap :=
  match (let! m1 := Morpheme_new (VStr "밥") (VStr "NNG") VUndefined None in
         let! w1 := Word_new (VStr "밥") [m1] in
         let! m2 := Morpheme_new (VStr "먹") (VStr "VV") VUndefined None in
         let! w2 := Word_new (VStr "먹") [m2] in
         let! s := Sentence_new [w1; w2] in
         let! vp := SyntaxTree_new (VStr "VP") w2 (Some []) VUndefined in
         let! np := SyntaxTree_new (VStr "NP") w1 (Some []) VUndefined in
         SyntaxTree_new (VStr "S") VUndefined (Some [vp; np]) VUndefined) [] with
  | Ok _ h => h
  | Throw _ h => h
  end.

(** ** The word-class rule, in the words of the specification *)

(** [i] is the earliest index of [l] whose element satisfies [p]. *)
Definition earliest_index {A} (p : A -> bool) (l : list A) (i : nat) : Prop :=
  (exists x, l !! i = Some x /\ p x = true)
  /\ forall j x, (j < i)%nat -> l !! j = Some x -> p x = false.

(** [k] is the latest index of [l] whose element satisfies [p], and -1 when
    no element does. *)
Definition latest_index_or_minus1 {A} (p : A -> bool) (l : list A) (k : Z) : Prop :=
  (k = -1 /\ Forall (fun x => p x = false) l)
  \/ (0 <= k
      /\ (exists x, l !! Z.to_nat k = Some x /\ p x = true)
      /\ forall j x, (Z.to_nat k < j)%nat -> l !! j = Some x -> p x = false).

(** A Word counts as a noun: some morpheme is noun-category or has a tag
    prefixed ETN or XSN, and the earliest such index is strictly greater than
    the latest index of a morpheme with a tag prefixed XSV, XSA or XSM. *)
Definition noun_word (POS_isNoun : value -> bool) (POS_startsWith : value -> string -> bool)
    (morphemes : list Morpheme) : Prop :=
  exists (i : nat) (k : Z),
    earliest_index (fun m => POS_isNoun (morph_tag m)
                             || POS_startsWith (morph_tag m) "ETN"
                             || POS_startsWith (morph_tag m) "XSN") morphemes i
    /\ latest_index_or_minus1 (fun m => POS_startsWith (morph_tag m) "XSV"
                                        || POS_startsWith (morph_tag m) "XSA"
                                        || POS_startsWith (morph_tag m) "XSM") morphemes k
    /\ Z.of_nat i > k.

(** Modelled from the spec: [types.ts], which defines the POS tags, is
    missing.  [isNoun] is the noun category (the tags NNG, NNP, NNB, NNM, NR
    and NP of the type tests) and [startsWith] is the prefix match on the tag
    name of section 4.2.  Used for concrete sentences only. *)
Definition tag_isNoun (tag : value) : bool :=
  bool_decide (tag ∈ [VStr "NNG"; VStr "NNP"; VStr "NNB"; VStr "NNM"; VStr "NR"; VStr "NP"]).

(** Modelled from the spec: see [tag_isNoun]. *)
Definition tag_startsWith (tag : value) (t : string) : bool :=
  match tag with
  | VStr name => String.prefix t name
  | _ => false
  end.

(** A sentence of two Words, 사랑/NNG+하/XSV+다/EF (address 3) and
    먹/VV+기/ETN (address 6); the Sentence is at address 7. *)
Definition heap_nouns_sentence : heap :=
  match (let! m1 := Morpheme_new (VStr "사랑") (VStr "NNG") VUndefined None in
         let! m2 := Morpheme_new (VStr "하") (VStr "XSV") VUndefined None in
         let! m3 := Morpheme_new (VStr "다") (VStr "EF") VUndefined None in
         let! w1 := Word_new (VStr "사랑하다") [m1; m2; m3] in
         let! m4 := Morpheme_new (VStr "먹") (VStr "VV") VUndefined None in
         let! m5 := Morpheme_new (VStr "기") (VStr "ETN") VUndefined None in
         let! w2 := Word_new (VStr "먹기") [m4; m5] in
         Sentence_new [w1; w2]) [] with
  | Ok _ h => h
  | Throw _ h => h
  end.

(** ** How the store evolves

    What later operations leave alone in an object: its class, the frozen
    [_items] of a container, the surface and tag of a Morpheme, the labels of
    an Entity; the [entities] list of a Morpheme only grows. *)
Definition obj_evolves (o o' : obj) : Prop :=
  match o, o' with
  | OMorpheme m, OMorpheme m' =>
      morph_surface m = morph_surface m' /\ morph_tag m = morph_tag m'
      /\ forall x, x ∈ morph_entities m -> x ∈ morph_entities m'
  | OWord w, OWord w' => word_items w = word_items w'
  | OEntity e, OEntity e' =>
      entity_items e = entity_items e' /\ entity_label e = entity_label e'
      /\ entity_fineLabel e = entity_fineLabel e'
  | OSentence s, OSentence s' =>
      sent_items s = sent_items s'
      /\ (sent_entities s ≠ [] -> sent_entities s' = sent_entities s)
  | OCoreferenceGroup _, OCoreferenceGroup _ => True
  | OTree _, OTree _ => True
  | OEdge _, OEdge _ => True
  | _, _ => False
  end.

Definition heap_evolves (h h' : heap) : Prop :=
  forall r o, h !! r = Some o -> exists o', h' !! r = Some o' /\ obj_evolves o o'.

(** [E] is an Entity object built from the native entity [e] of the
    sentence [this]: its items are the Morphemes at the positions [e] names,
    its labels are those of [e], and it is on the [entities] list of every
    one of its Morphemes. *)
Definition entity_image (this : value) (h : heap) (e : JEntity) (E : value) : Prop :=
  exists r ent,
    E = VObj r /\ h !! r = Some (OEntity ent)
    /\ mapM (_getMorph this) (je_morphemes e) h = Ok (entity_items ent) h
    /\ entity_label ent = tagname_if CoarseEntityType (je_label e)
    /\ entity_fineLabel ent = je_fineLabel e
    /\ Forall (fun m => is_Morpheme h m /\ E ∈ Morpheme_entities h m) (entity_items ent).

(** The address behind an object reference. *)
Definition address (v : value) : nat :=
  match v with
  | VObj r => r
  | _ => 0%nat
  end.

(** The throwaway Entity built for the native coreference entry [e]: an
    image of [e] allocated at or after address [n0]. *)
Definition throwaway_image (this : value) (n0 : nat) (h : heap) (e : JEntity) : Prop :=
  exists R, (n0 <= address R)%nat /\ entity_image this h e R.

(** The native entity 김 (a person name) over the first morpheme of the
    first word. *)
Definition jentity_kim : JEntity :=
  {| je_surface := VStr "김"; je_label := VStr "PS"; je_fineLabel := VStr "PS_NAME";
     je_morphemes := [ {| jmr_word := 0; jmr_id := 0 |} ];
     je_originalLabel := VNull |}.

(** A native sentence analysed for entities and coreference only: the one
    entity [jentity_kim], and one coreference group holding it. *)
Definition jsent_coref : JSentence :=
  {| js_words :=
       [ {| jw_surface := VStr "김이";
            jw_morphemes :=
              [ {| jm_surface := VStr "김"; jm_tag := VStr "NNP";
                   jm_originalTag := VStr "NNP"; jm_wordSense := VNull |};
                {| jm_surface := VStr "이"; jm_tag := VStr "JKS";
                   jm_originalTag := VStr "JKS"; jm_wordSense := VNull |} ] |};
         {| jw_surface := VStr "간다";
            jw_morphemes :=
              [ {| jm_surface := VStr "가"; jm_tag := VStr "VV";
                   jm_originalTag := VStr "VV"; jm_wordSense := VNull |};
                {| jm_surface := VStr "ㄴ다"; jm_tag := VStr "EF";
                   jm_originalTag := VStr "EF"; jm_wordSense := VNull |} ] |} ];
     js_syntaxTree := None;
     js_dependencies := [];
     js_roles := [];
     js_entities := [jentity_kim];
     js_corefGroups := [[jentity_kim]] |}.

(** The frozen [_items] of a container object. *)
Definition ImmutableArray_items (h : heap) (this : value) : list value :=
  match this with
  | VObj r =>
      match h !! r with
      | Some (OWord w) => word_items w
      | Some (OEntity e) => entity_items e
      | Some (OCoreferenceGroup g) => coref_items g
      | Some (OTree t) => tree_items t
      | Some (OSentence s) => sent_items s
      | _ => []
      end
  | _ => []
  end.

(** An Entity (address 2) over the morphemes 0, 1 and 0 again. *)
Definition heap_entity_repeated : heap :=
  match (let! m0 := Morpheme_new (VStr "뉴") (VStr "NNP") VUndefined None in
         let! m1 := Morpheme_new (VStr "욕") (VStr "NNP") VUndefined None in
         Entity_new (VStr "뉴욕뉴") (VStr "LC") (VStr "LC_CITY") [m0; m1; m0] VUndefined) [] with
  | Ok _ h => h
  | Throw _ h => h
  end.

(** The closure of the accessor that the Morpheme constructor installs
    under the name [wordsense]. *)
Definition Morpheme_wordsense_cell (h : heap) (morph : value) : option cell :=
  match morph with
  | VObj r => match h !! r with Some (OMorpheme m) => Some (morph_wordsense m) | _ => None end
  | _ => None
  end.
(** ** ImmutableArray: membership, search by value *)

(** [Array.prototype.includes] *)
Definition Array_includes (items : list value) (v : value) : bool :=
  existsb (fun x => bool_decide (x = v)) items.

(** [ImmutableArray.includes(value)]: [this._items.includes(value)] *)
Definition ImmutableArray_includes (_items : list value) (v : value) : bool :=
  Array_includes _items v.

(** [ImmutableArray.indexOfValue(value)]:
    [this.findIndex(x => x.equals(value))], given the [equals] of the
    elements. *)
Definition ImmutableArray_indexOfValue (elem_equals : value -> value -> bool)
    (_items : list value) (v : value) : Z :=
  Array_findIndex (fun x => elem_equals x v) _items.

(** [ImmutableArray.lastIndexOfValue(value)]:
    [this.findLastIndex(x => x.equals(value))] *)
Definition ImmutableArray_lastIndexOfValue (elem_equals : value -> value -> bool)
    (_items : list value) (v : value) : Z :=
  lodash_findLastIndex (fun x => elem_equals x v) _items.

(** [ImmutableArray.includesValue(value)]: [this.indexOfValue(value) !== -1] *)
Definition ImmutableArray_includesValue (elem_equals : value -> value -> bool)
    (_items : list value) (v : value) : bool :=
  negb (bool_decide (ImmutableArray_indexOfValue elem_equals _items v = -1)).

(** A value that is an Entity object of the store. *)
Definition is_Entity (h : heap) (v : value) : Prop :=
  exists r e, v = VObj r /\ h !! r = Some (OEntity e).


(** ** equals on Words and edges

    A method that returns a boolean or throws has a result in
    [error + bool]. *)

(** [other.length] together with the items that [_.zip] reads through the
    proxy of [other], for [other] an object of the store; [None] for an
    object that has no [length]. *)
Definition arraylike_items (h : heap) (other : ref) : option (list value) :=
  match h !! other with
  | Some (OWord w) => Some (word_items w)
  | Some (OEntity e) => Some (entity_items e)
  | Some (OCoreferenceGroup g) => Some (coref_items g)
  | Some (OTree t) => Some (tree_items t)
  | Some (OSentence s) => Some (sent_items s)
  | _ => None
  end.

(** [other.surface], [other._label], [other.src], [other.dest],
    [other._type] for [other] an object of the store; a missing property
    reads [undefined]. *)
Definition surface_of (h : heap) (other : ref) : value :=
  match h !! other with
  | Some (OWord w) => word_surface w
  | Some (OEntity e) => entity_surface e
  | Some (OMorpheme m) => morph_surface m
  | _ => VUndefined
  end.

Definition label_of (h : heap) (other : ref) : value :=
  match h !! other with
  | Some (OEdge e) => edge_label e
  | Some (OTree t) => tree_label t
  | Some (OEntity e) => entity_label e
  | _ => VUndefined
  end.

Definition src_of (h : heap) (other : ref) : value :=
  match h !! other with
  | Some (OEdge e) => edge_src e
  | _ => VUndefined
  end.

Definition dest_of (h : heap) (other : ref) : value :=
  match h !! other with
  | Some (OEdge e) => edge_dest e
  | _ => VUndefined
  end.

Definition type_of (h : heap) (other : ref) : value :=
  match h !! other with
  | Some (OEdge e) => edge_type e
  | _ => VUndefined
  end.

(** [this.equals(other)] where [this] is a Word, or [undefined] (the call
    then throws): [super.equals(other) && this.surface === other.surface].
    [typeof null] is 'object', so [null.length] is evaluated and throws; a
    tag object of [types.ts] is an object without [length]. *)
Definition Word_equals (h : heap) (this other : value) : error + bool :=
  match this with
  | VObj a =>
      match h !! a with
      | Some (OWord x) =>
          match other with
          | VNull => inl TypeError_native
          | VObj b =>
              match arraylike_items h b with
              | Some others =>
                  inr (ImmutableArray_equals (Morpheme_equals h) (word_items x) others
                       && bool_decide (word_surface x = surface_of h b))
              | None => inr false
              end
          | _ => inr false
          end
      | _ => inl TypeError_native
      end
  | _ => inl TypeError_native
  end.

(** [DAGEdge.equals(other)] for [other] an object of the store:
    [typeof this === typeof other && this._label === other._label
     && this.src.equals(other.src) && this.dest.equals(other.dest)]. *)
Definition DAGEdge_equals (h : heap) (this : value) (other : ref) : error + bool :=
  match this with
  | VObj a =>
      match h !! a with
      | Some (OEdge x) =>
          if bool_decide (edge_label x = label_of h other) then
            match Word_equals h (edge_src x) (src_of h other) with
            | inl e => inl e
            | inr false => inr false
            | inr true => Word_equals h (edge_dest x) (dest_of h other)
            end
          else inr false
      | _ => inl TypeError_native
      end
  | _ => inl TypeError_native
  end.

(** [DepEdge.equals(other)]: [this._type === other._type && super.equals(other)] *)
Definition DepEdge_equals (h : heap) (this : value) (other : ref) : error + bool :=
  match this with
  | VObj a =>
      match h !! a with
      | Some (OEdge x) =>
          if bool_decide (edge_type x = type_of h other) then DAGEdge_equals h this other
          else inr false
      | _ => inl TypeError_native
      end
  | _ => inl TypeError_native
  end.

(** Two Words (addresses 1 and 3) and two dependency edges, both built by
    passing [src] and [dest] directly: a root edge into the first Word
    (address 4, no [src]) and an edge from the first Word to the second
    (address 5). *)
Definition heap_root_edge : heap :=
  match (let! m1 := Morpheme_new (VStr "밥") (VStr "NNG") VUndefined None in
         let! w1 := Word_new (VStr "밥") [m1] in
         let! m2 := Morpheme_new (VStr "먹") (VStr "VV") VUndefined None in
         let! w2 := Word_new (VStr "먹") [m2] in
         let! root := DepEdge_new VUndefined w1 (VStr "NP") VUndefined VUndefined
                        VUndefined w1 VUndefined in
         DepEdge_new w1 w2 (VStr "VP") VUndefined VUndefined w1 w2 VUndefined) [] with
  | Ok _ h => h
  | Throw _ h => h
  end.

(** ** Write-once links, generically *)

#[global] Instance backref_eq_dec : EqDecision backref.
Proof. solve_decision. Defined.

(** The closure behind the accessor [f] of [target] holds [v]. *)
Definition backref_holds (f : backref) (v : value) (h : heap) (target : value) : Prop :=
  exists c, backref_cell f h target = Some c /\ cell_value c = v.

(** [Tree.isRoot()]: [!isDefined(this.parent)]; [None] if [this] is not a
    Tree object. *)
Definition Tree_isRoot (h : heap) (this : value) : option bool :=
  (fun parent => negb (isDefined parent)) <$> backref_get Tree_parent h this.

(** Two Morphemes (addresses 0 and 1) and an Entity over each (addresses 2
    and 3). *)
Definition heap_two_entities : heap :=
  match (let! m0 := Morpheme_new (VStr "김") (VStr "NNP") VUndefined None in
         let! m1 := Morpheme_new (VStr "그") (VStr "NP") VUndefined None in
         let! e0 := Entity_new (VStr "김") (VStr "PS") (VStr "PS_NAME") [m0] VUndefined in
         Entity_new (VStr "그") (VStr "PS") (VStr "PS_OTHER") [m1] VUndefined) [] with
  | Ok _ h => h
  | Throw _ h => h
  end.

(** [heap_two_entities] after a CoreferenceGroup (address 4) has been built
    over the first Entity. *)
Definition heap_grouped_entity : heap :=
  match CoreferenceGroup_new [VObj 2%nat] heap_two_entities with
  | Ok _ h => h
  | Throw _ h => h
  end.

(** A value that is a Tree (or SyntaxTree) object of the store. *)
Definition is_Tree (h : heap) (v : value) : Prop :=
  exists r t, v = VObj r /\ h !! r = Some (OTree t).

(** The callback that the constructor of Sentence maps over the native
    words: the Word built for one native word. *)
Definition reconstruct_word (w : JWord) : M value :=
  let! morphemes := mapM (fun m =>
      Morpheme_new (jm_surface m) (jm_tag m) (jm_originalTag m) (Some (jm_wordSense m)))
    (jw_morphemes w) in
  Word_new (jw_surface w) morphemes.

(** ** Sentence.verbs, Sentence.modifiers

    As for [Sentence.nouns], the methods of a POS tag that the getters call
    are parameters, applied to the stored tag name. *)
Section PredicateClasses.

(** [POS.withName(_tag).isPredicate()] *)
Variable POS_isPredicate : value -> bool.
(** [POS.withName(_tag).equals(POS.XSV)] *)
Variable POS_equals_XSV : value -> bool.
(** [POS.withName(_tag).startsWith(t)] *)
Variable POS_startsWith : value -> string -> bool.

(** [Morpheme.isPredicate()] *)
Definition Morpheme_isPredicate (m : Morpheme) : bool := POS_isPredicate (morph_tag m).

Definition verbs_inclusion (m : Morpheme) : bool :=
  Morpheme_isPredicate m || POS_equals_XSV (morph_tag m).

Definition verbs_exclusion (m : Morpheme) : bool :=
  Morpheme_hasTagOneOf POS_startsWith m ["ETN"; "ETM"; "XSN"; "XSA"; "XSM"].

Definition modifiers_inclusion (m : Morpheme) : bool :=
  Morpheme_isPredicate m || Morpheme_hasTagOneOf POS_startsWith m ["ETM"; "XSA"; "XSM"].

Definition modifiers_exclusion (m : Morpheme) : bool :=
  Morpheme_hasTagOneOf POS_startsWith m ["ETN"; "XSN"; "XSV"].

(** The getter [Sentence.verbs]. *)
Definition Sentence_verbs (h : heap) (this : value) : list value :=
  fold_left (fun result word =>
      let inclusion := Array_findIndex verbs_inclusion (Word_morphemes h word) in
      let exclusion := lodash_findLastIndex verbs_exclusion (Word_morphemes h word) in
      if bool_decide (inclusion ≠ -1) && bool_decide (inclusion > exclusion)
      then result ++ [word] else result)
    (Sentence_items h this) [].

(** The getter [Sentence.modifiers]. *)
Definition Sentence_modifiers (h : heap) (this : value) : list value :=
  fold_left (fun result word =>
      let inclusion := Array_findIndex modifiers_inclusion (Word_morphemes h word) in
      let exclusion := lodash_findLastIndex modifiers_exclusion (Word_morphemes h word) in
      if bool_decide (inclusion ≠ -1) && bool_decide (inclusion > exclusion)
      then result ++ [word] else result)
    (Sentence_items h this) [].

End PredicateClasses.

(** Modelled from the spec: [types.ts] is missing.  [isPredicate] is the
    predicate category (the tags VV, VA, VX, VCP and VCN of the type tests),
    and a tag equals [POS.XSV] when its name is XSV.  Used for concrete
    sentences only. *)
Definition tag_isPredicate (tag : value) : bool :=
  bool_decide (tag ∈ [VStr "VV"; VStr "VA"; VStr "VX"; VStr "VCP"; VStr "VCN"]).

(** Modelled from the spec: see [tag_isPredicate]. *)
Definition tag_equals_XSV (tag : value) : bool := bool_decide (tag = VStr "XSV").

(** What the constructors demand of a native morpheme: a string surface, a
    tag that is a string or a POS tag, an original tag that is a string or
    [undefined]. *)
Definition morpheme_typed (m : JMorpheme) : Prop :=
  (exists s, jm_surface m = VStr s)
  /\ ((exists s, jm_tag m = VStr s) \/ (exists n, jm_tag m = VEnum POS n))
  /\ (jm_originalTag m = VUndefined \/ exists s, jm_originalTag m = VStr s).

(** The native sentence of [jsent_coref] without its coreference group, and
    the store after its reconstruction: the Sentence is at address 6, its one
    Entity at address 7. *)
Definition jsent_entity : JSentence :=
  {| js_words := js_words jsent_coref;
     js_syntaxTree := None;
     js_dependencies := [];
     js_roles := [];
     js_entities := [jentity_kim];
     js_corefGroups := [] |}.

Definition heap_sentence_with_entity : heap :=
  match Sentence_reconstruct jsent_entity [] with
  | Ok _ h => h
  | Throw _ h => h
  end.

(* ================================================================== *)
(** * Properties *)

(** ** The monad and [typeCheck] *)

Lemma bind_Ok {A B} (c : M A) (k : A -> M B) h b h' :
  bind c k h = Ok b h' -> exists a h1, c h = Ok a h1 /\ k a h1 = Ok b h'.
Proof.
  unfold bind. destruct (c h) as [a h1|e h1]; [eauto | discriminate].
Qed.

Lemma bind_Ok_intro {A B} (c : M A) (k : A -> M B) h a h1 :
  c h = Ok a h1 -> bind c k h = k a h1.
Proof. unfold bind. intros ->. reflexivity. Qed.

Lemma bind_Throw_intro {A B} (c : M A) (k : A -> M B) h e h1 :
  c h = Throw e h1 -> bind c k h = Throw e h1.
Proof. unfold bind. intros ->. reflexivity. Qed.

(** [typeCheck] never touches the store. *)
Lemma typeCheck_cases values types h :
  typeCheck values types h = Ok tt h \/ exists e, typeCheck values types h = Throw e h.
Proof.
  unfold typeCheck. destruct (typeNames h values) as [ts|]; [|eauto].
  destruct (List.find _ ts); eauto.
Qed.

Lemma typeCheck_Ok_inv values types h u h' :
  typeCheck values types h = Ok u h' ->
  h' = h /\ exists ts, typeNames h values = Some ts /\ Forall (fun t => t ∈ types) ts.
Proof.
  unfold typeCheck. destruct (typeNames h values) as [ts|]; [|discriminate].
  destruct (List.find _ ts) eqn:Hfind; [discriminate|].
  intros [= <- <-]. split; [reflexivity|]. exists ts. split; [reflexivity|].
  apply Forall_forall. intros t Ht.
  pose proof (find_none _ _ Hfind t Ht) as Hn. simpl in Hn.
  apply negb_false_iff, bool_decide_eq_true in Hn. exact Hn.
Qed.

Lemma typeCheck_Ok_intro values types h ts :
  typeNames h values = Some ts -> Forall (fun t => t ∈ types) ts ->
  typeCheck values types h = Ok tt h.
Proof.
  unfold typeCheck. intros -> Hall.
  destruct (List.find _ ts) as [t|] eqn:Hfind; [|reflexivity].
  apply find_some in Hfind as [Hin Hn].
  rewrite Forall_forall in Hall. specialize (Hall t Hin).
  apply negb_true_iff, bool_decide_eq_false in Hn. contradiction.
Qed.

Lemma typeNames_Some_Forall2 h values ts :
  typeNames h values = Some ts <-> Forall2 (fun v t => typeName h v = Some t) values ts.
Proof.
  revert ts. induction values as [|v vs IH]; intros ts; simpl.
  - split; [intros [= <-]; constructor | intros H; inversion H; reflexivity].
  - destruct (typeName h v) as [t|] eqn:Ht.
    + destruct (typeNames h vs) as [ts'|].
      * split.
        -- intros [= <-]. constructor; [exact Ht | apply IH; reflexivity].
        -- intros H. inversion H as [|? t' ? ts'' Hv Hrest]; subst.
           apply IH in Hrest. congruence.
      * split; [discriminate|].
        intros H. inversion H as [|? t' ? ts'' Hv Hrest]; subst.
        apply IH in Hrest. discriminate.
    + split; [discriminate|].
      intros H. inversion H; subst. congruence.
Qed.

(** A single value passes [typeCheck([v], 'Word')] exactly when it is a Word. *)
Lemma typeName_Word h v : typeName h v = Some "Word" <-> is_Word h v.
Proof.
  split.
  - destruct v as [| | | |cls ?|r]; simpl; try discriminate.
    + destruct cls; discriminate.
    + destruct (h !! r) as [o|] eqn:Hr; simpl; [|discriminate].
      destruct o as [| w | | | t | e |]; simpl; try discriminate.
      * intros _. exists r, w. auto.
      * destruct (tree_class_of t); discriminate.
      * destruct (edge_class_of e); discriminate.
  - intros (r & w & -> & Hr). simpl. rewrite Hr. reflexivity.
Qed.

Lemma typeName_Morpheme h v : typeName h v = Some "Morpheme" <-> is_Morpheme h v.
Proof.
  split.
  - destruct v as [| | | |cls ?|r]; simpl; try discriminate.
    + destruct cls; discriminate.
    + destruct (h !! r) as [o|] eqn:Hr; simpl; [|discriminate].
      destruct o as [m | | | | t | e |]; simpl; try discriminate.
      * intros _. exists r, m. auto.
      * destruct (tree_class_of t); discriminate.
      * destruct (edge_class_of e); discriminate.
  - intros (r & m & -> & Hr). simpl. rewrite Hr. reflexivity.
Qed.

(** ** Write-once accessors *)

Lemma cell_set_same c : cell_set c (cell_value c) = inr c.
Proof. unfold cell_set. rewrite decide_True by reflexivity. reflexivity. Qed.

Lemma cell_set_other c newValue :
  isDefined (cell_value c) = true -> isDefined newValue = true -> newValue ≠ cell_value c ->
  cell_set c newValue = inl (TypeError_writeonce (cell_property c) (cell_value c) newValue).
Proof.
  intros Hc Hn Hne. unfold cell_set.
  rewrite decide_False by congruence. rewrite Hc, Hn. reflexivity.
Qed.

Lemma cell_set_first c newValue :
  isDefined (cell_value c) = false ->
  exists c', cell_set c newValue = inr c' /\ cell_value c' = newValue
             /\ cell_property c' = cell_property c /\ cell_defValue c' = cell_defValue c.
Proof.
  intros Hc. unfold cell_set. destruct (decide (cell_value c = newValue)) as [<-|Hne].
  - exists c. auto.
  - rewrite Hc. eexists. split; [reflexivity|]. simpl. auto.
Qed.

(** Whatever the setter does, on success the closure holds the assigned
    value. *)
Lemma cell_set_inr c newValue c' :
  cell_set c newValue = inr c' ->
  cell_value c' = newValue /\ cell_property c' = cell_property c
  /\ cell_defValue c' = cell_defValue c.
Proof.
  unfold cell_set. destruct (decide (cell_value c = newValue)) as [<-|Hne].
  - intros [= <-]. auto.
  - destruct (isDefined (cell_value c)); [destruct (isDefined newValue); discriminate|].
    intros [= <-]. simpl. auto.
Qed.

Lemma cell_get_defined c : isDefined (cell_value c) = true -> cell_get c = cell_value c.
Proof. unfold cell_get. intros ->. reflexivity. Qed.

Ltac same_object :=
  match goal with
  | |- Ok tt (<[?r := ?o]> ?h) = Ok tt ?h =>
      f_equal; apply list_insert_id; assumption
  end.

(** With [undefined] or [null] as the new value the setter throws as well,
    but it is the runtime that throws, while the message is being built. *)
Lemma cell_set_undefined c newValue :
  isDefined (cell_value c) = true -> isDefined newValue = false ->
  cell_set c newValue = inl TypeError_native.
Proof.
  intros Hc Hn. unfold cell_set.
  rewrite decide_False by (intros Heq; rewrite Heq, Hn in Hc; discriminate).
  rewrite Hc, Hn. reflexivity.
Qed.

(** C2.  For each write-once back-reference (Morpheme.word, Morpheme.id,
    Word.id, Word.phrase, Word.governorEdge, Entity.corefGroup, Tree.parent):
    once its closure holds a concrete value, assigning a different concrete
    value throws the write-once error, which carries the property, the value
    kept and the value rejected, and the store stays as it was; assigning the
    value held once more returns normally and changes nothing. *)
Theorem write_once_second_assignment (f : backref) (h : heap) (target : value)
    (c : cell) (newValue : value) :
  backref_cell f h target = Some c ->
  isDefined (cell_value c) = true ->
  isDefined newValue = true ->
  newValue ≠ cell_value c ->
  backref_assign f target newValue h
    = Throw (TypeError_writeonce (cell_property c) (cell_value c) newValue) h
  /\ backref_assign f target (cell_value c) h = Ok tt h
  /\ backref_get f h target = Some (cell_value c).
Proof.
  intros Hcell Hc Hn Hne.
  split; [|split].
  - destruct target as [| | | | |r]; try discriminate.
    destruct f; simpl in *;
      destruct (h !! r) as [[m|w|e|g|t|e|s]|] eqn:Hr; try discriminate;
      injection Hcell as <-;
      unfold Morpheme_assign_word, Morpheme_assign_id, Word_assign_id, Word_assign_phrase,
        Word_assign_governorEdge, Entity_assign_corefGroup, Tree_assign_parent, run_cell_set;
      rewrite cell_set_other by assumption; reflexivity.
  - destruct target as [| | | | |r]; try discriminate.
    destruct f; simpl in *;
      destruct (h !! r) as [[m|w|e|g|t|e|s]|] eqn:Hr; try discriminate;
      injection Hcell as <-;
      unfold Morpheme_assign_word, Morpheme_assign_id, Word_assign_id, Word_assign_phrase,
        Word_assign_governorEdge, Entity_assign_corefGroup, Tree_assign_parent, run_cell_set;
      rewrite cell_set_same;
      [destruct m | destruct m | destruct w | destruct w | destruct w | destruct e | destruct t];
      simpl in *; same_object.
  - unfold backref_get. rewrite Hcell. simpl. f_equal. apply cell_get_defined, Hc.
Qed.

Lemma write_once_second_assignment_witness :
  backref_assign Word_phrase (VObj 1%nat) (VObj 0%nat) heap_word_in_phrase
    = Throw (TypeError_writeonce "phrase" (VObj 2%nat) (VObj 0%nat)) heap_word_in_phrase
  /\ backref_assign Word_phrase (VObj 1%nat) (VObj 2%nat) heap_word_in_phrase
     = Ok tt heap_word_in_phrase
  /\ backref_get Word_phrase heap_word_in_phrase (VObj 1%nat) = Some (VObj 2%nat).
Proof.
  apply (write_once_second_assignment Word_phrase heap_word_in_phrase (VObj 1%nat)
           (Cell "phrase" VUndefined (VObj 2%nat)) (VObj 0%nat)).
  - vm_compute. reflexivity.
  - reflexivity.
  - reflexivity.
  - discriminate.
Defined.

(** ** Morpheme.wordSense *)

(** Assigning [wordSense] never throws: it stores the new value. *)
Lemma Morpheme_assign_wordSense_overwrites h r m newValue :
  h !! r = Some (OMorpheme m) ->
  exists h', Morpheme_assign_wordSense (VObj r) newValue h = Ok tt h'
             /\ Morpheme_wordSense h' (VObj r) = newValue.
Proof.
  intros Hr. unfold Morpheme_assign_wordSense. rewrite Hr.
  eexists. split; [reflexivity|].
  unfold Morpheme_wordSense.
  rewrite list_lookup_insert_eq by (eapply lookup_lt_Some; eassumption).
  reflexivity.
Qed.

(** C7 (the code departs from it).  A Morpheme whose [wordSense] holds 1:
    assigning 2 returns normally and the stored value becomes 2.  The
    write-once accessor that the constructor installs sits under the name
    [wordsense]; its closure still holds [undefined] afterwards. *)
Theorem wordSense_is_overwritten :
  Morpheme_wordSense heap_morpheme_with_sense (VObj 0%nat) = VNum 1
  /\ exists h', Morpheme_assign_wordSense (VObj 0%nat) (VNum 2) heap_morpheme_with_sense = Ok tt h'
                /\ Morpheme_wordSense h' (VObj 0%nat) = VNum 2
                /\ Morpheme_wordsense_cell h' (VObj 0%nat)
                   = Some (Cell "wordsense" VUndefined VUndefined).
Proof.
  split; [reflexivity|]. eexists. split; [reflexivity|]. split; reflexivity.
Qed.

(** ** ImmutableArray.lastIndexOf *)

Lemma lastIndexOf_is_indexOf items v :
  ImmutableArray_lastIndexOf items v = ImmutableArray_indexOf items v.
Proof. reflexivity. Qed.

Lemma Array_indexOf_from_first items v : forall k (i : nat),
  items !! i = Some v -> 0 <= k ->
  k <= Array_indexOf_from k items v <= k + Z.of_nat i.
Proof.
  induction items as [|x items IH]; intros k i Hi Hk; simpl.
  - rewrite lookup_nil in Hi. discriminate.
  - destruct (decide (x = v)) as [->|Hne]; [lia|].
    destruct i as [|i]; simpl in Hi; [congruence|].
    specialize (IH (k + 1) i Hi). lia.
Qed.

(** Whenever a value occurs at two indices, [lastIndexOf] returns an index
    below the greater one. *)
Lemma lastIndexOf_not_greatest items v (i j : nat) :
  items !! i = Some v -> items !! j = Some v -> (i < j)%nat ->
  ImmutableArray_lastIndexOf items v < Z.of_nat j.
Proof.
  intros Hi Hj Hlt. unfold ImmutableArray_lastIndexOf, Array_indexOf.
  pose proof (Array_indexOf_from_first items v 0 i Hi). lia.
Qed.

(** C8 (the code departs from it).  The Entity built over the morphemes
    [m0, m1, m0] holds [m0] at indices 0 and 2; its [lastIndexOf(m0)] returns
    0, whereas the greatest index holding [m0], which
    [Array.prototype.lastIndexOf] returns, is 2. *)
Theorem lastIndexOf_returns_first_index :
  let entity := VObj 2%nat in
  let m0 := VObj 0%nat in
  ImmutableArray_items heap_entity_repeated entity = [m0; VObj 1%nat; m0]
  /\ ImmutableArray_lastIndexOf (ImmutableArray_items heap_entity_repeated entity) m0 = 0
  /\ Array_lastIndexOf (ImmutableArray_items heap_entity_repeated entity) m0 = 2.
Proof. repeat split. Qed.

(** ** Entity construction *)

(** C9 as stated fails: an Entity over no morphemes is constructed. *)
Lemma Entity_new_empty_counterexample :
  ~ (forall (surface label fineLabel originalLabel : value) (h : heap),
       exists e h', Entity_new surface label fineLabel [] originalLabel h = Throw e h').
Proof.
  intros H.
  destruct (H (VStr "김") (VStr "PS") (VStr "PS_NAME") VUndefined []) as (e & h' & Hthrow).
  vm_compute in Hthrow. discriminate.
Qed.

(** C9, amended.  With a string surface, label and fineLabel, and an
    originalLabel that is absent or a string, constructing an Entity over the
    empty morpheme list returns a new Entity holding no morphemes, and no
    other object changes. *)
Theorem Entity_new_empty_succeeds (h : heap) (surface label fineLabel : string)
    (originalLabel : option string) :
  let o := from_option VStr VUndefined originalLabel in
  Entity_new (VStr surface) (VStr label) (VStr fineLabel) [] o h
  = Ok (VObj (length h))
       (h ++ [OEntity {| entity_items := [];
                         entity_surface := VStr surface;
                         entity_label := VStr label;
                         entity_fineLabel := VStr fineLabel;
                         entity_originalLabel := o;
                         entity_corefGroup := writeonlyonce VUndefined "corefGroup" |}]).
Proof.
  destruct originalLabel; reflexivity.
Qed.

(** ** RoleEdge construction *)

Lemma typeCheck_single h v types :
  typeCheck [v] types h = Ok tt h <-> exists t, typeName h v = Some t /\ t ∈ types.
Proof.
  split.
  - intros H. apply typeCheck_Ok_inv in H as (_ & ts & Hts & Hall).
    simpl in Hts. destruct (typeName h v) as [t|]; [|discriminate].
    injection Hts as <-. inversion Hall; subst. eauto.
  - intros (t & Ht & Hin). apply typeCheck_Ok_intro with (ts := [t]).
    + simpl. rewrite Ht. reflexivity.
    + constructor; [exact Hin | constructor].
Qed.

Lemma typeCheck_Words h values :
  typeCheck values ["Word"] h = Ok tt h <-> Forall (is_Word h) values.
Proof.
  split.
  - intros H. apply typeCheck_Ok_inv in H as (_ & ts & Hts & Hall).
    apply typeNames_Some_Forall2 in Hts.
    induction Hts as [|v t vs ts' Hv _ IH]; constructor.
    + inversion Hall as [|? ? Ht _]; subst.
      apply list_elem_of_singleton in Ht. subst. apply typeName_Word, Hv.
    + apply IH. inversion Hall; assumption.
  - intros Hall. apply typeCheck_Ok_intro with (ts := map (fun _ => "Word") values).
    + apply typeNames_Some_Forall2.
      induction Hall as [|v vs Hv _ IH]; constructor; [apply typeName_Word, Hv | exact IH].
    + clear Hall. induction values; constructor; [apply list_elem_of_singleton; reflexivity | assumption].
Qed.

Lemma typeCheck_Morphemes h values :
  typeCheck values ["Morpheme"] h = Ok tt h <-> Forall (is_Morpheme h) values.
Proof.
  split.
  - intros H. apply typeCheck_Ok_inv in H as (_ & ts & Hts & Hall).
    apply typeNames_Some_Forall2 in Hts.
    induction Hts as [|v t vs ts' Hv _ IH]; constructor.
    + inversion Hall as [|? ? Ht _]; subst.
      apply list_elem_of_singleton in Ht. subst. apply typeName_Morpheme, Hv.
    + apply IH. inversion Hall; assumption.
  - intros Hall. apply typeCheck_Ok_intro with (ts := map (fun _ => "Morpheme") values).
    + apply typeNames_Some_Forall2.
      induction Hall as [|v vs Hv _ IH]; constructor; [apply typeName_Morpheme, Hv | exact IH].
    + clear Hall. induction values; constructor; [apply list_elem_of_singleton; reflexivity | assumption].
Qed.

Lemma typeCheck_Ok_same values types h u h' :
  typeCheck values types h = Ok u h' -> h' = h /\ typeCheck values types h = Ok tt h.
Proof.
  intros H. destruct u. apply typeCheck_Ok_inv in H as H'. destruct H' as [-> _]. auto.
Qed.

Lemma is_Word_alloc h o v : is_Word h v -> is_Word (h ++ [o]) v.
Proof.
  intros (r & w & -> & Hr). exists r, w. split; [reflexivity|].
  apply lookup_app_l_Some, Hr.
Qed.

Lemma Word_push_Ok field store h word x :
  is_Word h word -> exists h', Word_push field store word x h = Ok tt h'.
Proof.
  intros (r & w & -> & Hr). unfold Word_push. rewrite Hr. eauto.
Qed.

Lemma Word_push_is_Word field store h word x h' v :
  Word_push field store word x h = Ok tt h' -> is_Word h v -> is_Word h' v.
Proof.
  unfold Word_push. destruct word as [| | | | |r]; try discriminate.
  destruct (h !! r) as [[|w| | | | |]|] eqn:Hr; try discriminate.
  intros [= <-] (r' & w' & -> & Hr').
  destruct (decide (r = r')) as [<-|Hne].
  - eexists r, _. split; [reflexivity|].
    apply list_lookup_insert_eq. eapply lookup_lt_Some, Hr.
  - exists r', w'. split; [reflexivity|].
    rewrite list_lookup_insert_ne by assumption. exact Hr'.
Qed.

Lemma Word_push_inv field store word x h u h' :
  Word_push field store word x h = Ok u h' -> is_Word h word.
Proof.
  unfold Word_push. destruct word as [| | | | |r]; try discriminate.
  destruct (h !! r) as [[|w| | | | |]|] eqn:Hr; try discriminate.
  intros _. exists r, w. auto.
Qed.

Lemma is_Word_defined h v : is_Word h v -> isDefined v = true.
Proof. intros (r & w & -> & _). reflexivity. Qed.

(** The label check of [DAGEdge] passes once [RoleEdge] has normalised a
    label that passed its own check. *)
Lemma RoleEdge_label_normalised h label :
  (exists t, typeName h label = Some t /\ t ∈ ["string"; "RoleType"]) ->
  typeCheck [tagname_if RoleType label] ["undefined"; "string"] h = Ok tt h.
Proof.
  intros (t & Ht & Hin). apply typeCheck_single. exists "string". split.
  - destruct label as [| | | |cls n|r]; simpl in *.
    + injection Ht as <-. apply list_elem_of_In in Hin. simpl in Hin.
      destruct Hin as [|[|[]]]; discriminate.
    + discriminate.
    + injection Ht as <-. apply list_elem_of_In in Hin. simpl in Hin.
      destruct Hin as [|[|[]]]; discriminate.
    + reflexivity.
    + destruct cls; simpl in *; try reflexivity;
        injection Ht as <-; apply list_elem_of_In in Hin; simpl in Hin;
        destruct Hin as [|[|[]]]; discriminate.
    + destruct (h !! r) as [o|]; simpl in Ht; [|discriminate].
      injection Ht as <-. apply list_elem_of_In in Hin. simpl in Hin.
      destruct o as [| | | |tr|ed|]; simpl in Hin;
        try destruct (tree_class_of tr); try destruct (edge_class_of ed);
        destruct Hin as [|[|[]]]; discriminate.
  - apply list_elem_of_In. simpl. auto.
Qed.

(** C1 as stated fails: with a Word as argument, a string label and no
    predicate, construction throws the constructor's assertion. *)
Lemma RoleEdge_new_no_predicate_counterexample :
  is_Word heap_one_word (VObj 1%nat)
  /\ RoleEdge_new VUndefined (VObj 1%nat) (VStr "ARG1") None VUndefined heap_one_word
     = Throw (TypeError_assert "[value.predicate]은 undefined일 수 없습니다.") heap_one_word.
Proof.
  split; [|reflexivity].
  eexists 1%nat, _. split; reflexivity.
Qed.

Lemma DAGEdge_super_no_dest h src label :
  exists e, DAGEdge_super src VUndefined label h = Throw e h.
Proof.
  unfold DAGEdge_super.
  destruct (typeCheck_cases [src] ["undefined"; "Word"] h) as [H|[e H]].
  - rewrite (bind_Ok_intro _ _ _ _ _ H).
    eexists. apply bind_Throw_intro. reflexivity.
  - rewrite (bind_Throw_intro _ _ _ _ _ H). eauto.
Qed.

(** With the argument undefined, construction throws, whatever the rest. *)
Lemma RoleEdge_new_no_argument_throws h predicate label modifiers originalLabel :
  exists e h', RoleEdge_new predicate VUndefined label modifiers originalLabel h = Throw e h'.
Proof.
  unfold RoleEdge_new.
  destruct (typeCheck_cases [label] ["string"; "RoleType"] h) as [H|[e H]];
    [rewrite (bind_Ok_intro _ _ _ _ _ H) | rewrite (bind_Throw_intro _ _ _ _ _ H); eauto].
  destruct (typeCheck_cases [originalLabel] ["undefined"; "string"] h) as [H1|[e H1]];
    [rewrite (bind_Ok_intro _ _ _ _ _ H1) | rewrite (bind_Throw_intro _ _ _ _ _ H1); eauto].
  destruct (typeCheck_cases (default [] modifiers) ["Word"] h) as [H2|[e H2]];
    [rewrite (bind_Ok_intro _ _ _ _ _ H2) | rewrite (bind_Throw_intro _ _ _ _ _ H2); eauto].
  destruct (isDefined predicate) eqn:Hp.
  - rewrite (bind_Ok_intro _ _ h tt h) by reflexivity.
    destruct (DAGEdge_super_no_dest h predicate (tagname_if RoleType label)) as [e He].
    rewrite (bind_Throw_intro _ _ _ _ _ He). eauto.
  - rewrite (bind_Throw_intro _ _ h (TypeError_assert "[value.predicate]은 undefined일 수 없습니다.") h)
      by reflexivity.
    eauto.
Qed.

Lemma RoleEdge_new_Ok_inv h predicate argument label modifiers originalLabel e h' :
  RoleEdge_new predicate argument label modifiers originalLabel h = Ok e h' ->
  ((exists t, typeName h label = Some t /\ t ∈ ["string"; "RoleType"])
   /\ (exists t, typeName h originalLabel = Some t /\ t ∈ ["undefined"; "string"])
   /\ Forall (is_Word h) (default [] modifiers)
   /\ is_Word h predicate
   /\ is_Word h argument).
Proof.
  unfold RoleEdge_new. intros H.
  apply bind_Ok in H as ([] & h1 & Hl & H).
  apply typeCheck_Ok_same in Hl as [-> Hl].
  apply bind_Ok in H as ([] & h1 & Ho & H).
  apply typeCheck_Ok_same in Ho as [-> Ho].
  apply bind_Ok in H as ([] & h1 & Hm & H).
  apply typeCheck_Ok_same in Hm as [-> Hm].
  apply bind_Ok in H as ([] & h1 & Ha & H).
  unfold assert in Ha. destruct (isDefined predicate) eqn:Hp; [|discriminate].
  injection Ha as <-.
  apply bind_Ok in H as ([] & h1 & Hs & H).
  unfold DAGEdge_super in Hs.
  apply bind_Ok in Hs as ([] & h2 & Hsrc & Hs).
  apply typeCheck_Ok_same in Hsrc as [-> Hsrc].
  apply bind_Ok in Hs as ([] & h2 & Hdest & Hs).
  apply typeCheck_Ok_same in Hdest as [-> Hdest].
  apply typeCheck_single in Hl, Ho, Hsrc, Hdest.
  apply typeCheck_Words in Hm.
  repeat split; try assumption.
  - destruct Hsrc as (t & Ht & Hin).
    apply list_elem_of_In in Hin. simpl in Hin. destruct Hin as [<-|[<-|[]]].
    + destruct predicate as [| | | |cls ?|r]; simpl in *; try discriminate.
      * destruct cls; discriminate.
      * destruct (h !! r) as [[| | | |tr|ed|]|]; simpl in Ht;
          try destruct (tree_class_of tr); try destruct (edge_class_of ed); discriminate.
    + apply typeName_Word, Ht.
  - destruct Hdest as (t & Ht & Hin).
    apply list_elem_of_singleton in Hin. subst. apply typeName_Word, Ht.
Qed.

Lemma RoleEdge_new_Ok_intro h predicate argument label modifiers originalLabel :
  ((exists t, typeName h label = Some t /\ t ∈ ["string"; "RoleType"])
   /\ (exists t, typeName h originalLabel = Some t /\ t ∈ ["undefined"; "string"])
   /\ Forall (is_Word h) (default [] modifiers)
   /\ is_Word h predicate
   /\ is_Word h argument) ->
  exists e h', RoleEdge_new predicate argument label modifiers originalLabel h = Ok e h'.
Proof.
  unfold RoleEdge_new.
  intros (Hl & Ho & Hm & Hp & Ha).
  rewrite (bind_Ok_intro _ _ h tt h) by (apply typeCheck_single, Hl).
  rewrite (bind_Ok_intro _ _ h tt h) by (apply typeCheck_single, Ho).
  rewrite (bind_Ok_intro _ _ h tt h) by (apply typeCheck_Words, Hm).
  rewrite (is_Word_defined _ _ Hp), (is_Word_defined _ _ Ha).
  assert (Hsuper : DAGEdge_super predicate argument (tagname_if RoleType label) h = Ok tt h).
  { unfold DAGEdge_super.
    rewrite (bind_Ok_intro _ _ h tt h).
    2:{ apply typeCheck_single. exists "Word". split; [apply typeName_Word, Hp|].
        apply list_elem_of_In. simpl. auto. }
    rewrite (bind_Ok_intro _ _ h tt h).
    2:{ apply typeCheck_single. exists "Word". split; [apply typeName_Word, Ha|].
        apply list_elem_of_singleton. reflexivity. }
    apply RoleEdge_label_normalised, Hl. }
  rewrite (bind_Ok_intro _ _ h tt h) by reflexivity.
  rewrite (bind_Ok_intro _ _ h tt h) by exact Hsuper.
  unfold bind at 1. unfold alloc at 1.
  match goal with |- context [h ++ [?o]] => set (h1 := h ++ [o]) end.
  assert (Ha1 : is_Word h1 argument) by (apply is_Word_alloc, Ha).
  assert (Hp1 : is_Word h1 predicate) by (apply is_Word_alloc, Hp).
  destruct (Word_push_Ok word_predicateRoles set_word_predicateRoles h1 argument
              (VObj (length h)) Ha1) as [h2 Hpush1].
  unfold Word_push_predicateRoles. rewrite (bind_Ok_intro _ _ _ _ _ Hpush1).
  assert (Hp2 : is_Word h2 predicate) by (eapply Word_push_is_Word; eassumption).
  destruct (Word_push_Ok word_argumentRoles set_word_argumentRoles h2 predicate
              (VObj (length h)) Hp2) as [h3 Hpush2].
  unfold Word_push_argumentRoles. rewrite (bind_Ok_intro _ _ _ _ _ Hpush2).
  unfold ret. eauto.
Qed.

(** C1, amended.  Constructing a RoleEdge succeeds exactly when its label is
    a string or a RoleType, its originalLabel is absent or a string, its
    modifiers are Words, and both its predicate (src) and its argument (dest)
    are Words. *)
Theorem RoleEdge_new_succeeds_iff (h : heap) (predicate argument label : value)
    (modifiers : option (list value)) (originalLabel : value) :
  (exists e h', RoleEdge_new predicate argument label modifiers originalLabel h = Ok e h')
  <->
  ((exists t, typeName h label = Some t /\ t ∈ ["string"; "RoleType"])
   /\ (exists t, typeName h originalLabel = Some t /\ t ∈ ["undefined"; "string"])
   /\ Forall (is_Word h) (default [] modifiers)
   /\ is_Word h predicate
   /\ is_Word h argument).
Proof.
  split.
  - intros (e & h' & H). eapply RoleEdge_new_Ok_inv, H.
  - apply RoleEdge_new_Ok_intro.
Qed.

Lemma RoleEdge_new_succeeds_iff_witness :
  exists e h', RoleEdge_new (VObj 1%nat) (VObj 1%nat) (VStr "ARG1") None VUndefined heap_one_word
               = Ok e h'.
Proof.
  apply (RoleEdge_new_succeeds_iff heap_one_word (VObj 1%nat) (VObj 1%nat) (VStr "ARG1")
           None VUndefined).
  split; [|split; [|split; [|split]]].
  - exists "string". split; [reflexivity|]. apply list_elem_of_In. simpl. auto.
  - exists "undefined". split; [reflexivity|]. apply list_elem_of_In. simpl. auto.
  - constructor.
  - eexists 1%nat, _. split; reflexivity.
  - eexists 1%nat, _. split; reflexivity.
Defined.

(** ** Edges register themselves on their endpoints *)

Lemma Word_assign_governorEdge_inv word newValue h u h' :
  Word_assign_governorEdge word newValue h = Ok u h' ->
  exists r w c, word = VObj r /\ h !! r = Some (OWord w)
                /\ cell_set (word_governorEdge w) newValue = inr c
                /\ h' = <[r := OWord (set_word_governorEdge c w)]> h.
Proof.
  unfold Word_assign_governorEdge, run_cell_set.
  destruct word as [| | | | |r]; try discriminate.
  destruct (h !! r) as [[|w| | | | |]|] eqn:Hr; try discriminate.
  destruct (cell_set (word_governorEdge w) newValue) as [|c] eqn:Hc; [discriminate|].
  intros [= <- <-]. exists r, w, c. auto.
Qed.

Lemma Word_push_Ok_inv field store word x h u h' :
  Word_push field store word x h = Ok u h' ->
  exists r w, word = VObj r /\ h !! r = Some (OWord w)
              /\ h' = <[r := OWord (store (field w ++ [x]) w)]> h.
Proof.
  unfold Word_push.
  destruct word as [| | | | |r]; try discriminate.
  destruct (h !! r) as [[|w| | | | |]|] eqn:Hr; try discriminate.
  intros [= <- <-]. exists r, w. auto.
Qed.

Lemma DAGEdge_super_inv src dest label h u h' :
  DAGEdge_super src dest label h = Ok u h' ->
  h' = h /\ is_Word h dest /\ (isDefined src = true -> is_Word h src).
Proof.
  unfold DAGEdge_super. intros H.
  apply bind_Ok in H as ([] & h1 & Hsrc & H).
  apply typeCheck_Ok_same in Hsrc as [-> Hsrc].
  apply bind_Ok in H as ([] & h1 & Hdest & H).
  apply typeCheck_Ok_same in Hdest as [-> Hdest].
  apply typeCheck_Ok_same in H as [-> _].
  apply typeCheck_single in Hsrc, Hdest.
  split; [reflexivity|]. split.
  - destruct Hdest as (t & Ht & Hin).
    apply list_elem_of_singleton in Hin. subst. apply typeName_Word, Ht.
  - intros Hdef. destruct Hsrc as (t & Ht & Hin).
    apply list_elem_of_In in Hin. simpl in Hin. destruct Hin as [<-|[<-|[]]].
    + destruct src as [| | | |cls ?|r]; simpl in *; try discriminate.
      * destruct cls; discriminate.
      * destruct (h !! r) as [[| | | |tr|ed|]|]; simpl in Ht;
          try destruct (tree_class_of tr); try destruct (edge_class_of ed); discriminate.
    + apply typeName_Word, Ht.
Qed.

Lemma DepEdge_new_backrefs h governor dependent type depType originalLabel src dest label e h' :
  DepEdge_new governor dependent type depType originalLabel src dest label h = Ok e h' ->
  Edge_src h' e = src /\ Edge_dest h' e = dest
  /\ backref_get Word_governorEdge h' dest = Some e
  /\ (isDefined src = true -> e ∈ Word_dependentEdges h' src).
Proof.
  unfold DepEdge_new. intros H.
  apply bind_Ok in H as ([] & h1 & Hsuper & H).
  apply DAGEdge_super_inv in Hsuper as (-> & Hdest & Hsrc).
  apply bind_Ok in H as ([] & h1 & H1 & H). apply typeCheck_Ok_same in H1 as [-> _].
  apply bind_Ok in H as ([] & h1 & H1 & H). apply typeCheck_Ok_same in H1 as [-> _].
  apply bind_Ok in H as ([] & h1 & H1 & H). apply typeCheck_Ok_same in H1 as [-> _].
  apply bind_Ok in H as (this & h1 & Halloc & H).
  unfold alloc in Halloc. injection Halloc as <- <-.
  rewrite (is_Word_defined _ _ Hdest) in H.
  apply bind_Ok in H as ([] & h2 & Hgov & H).
  apply Word_assign_governorEdge_inv in Hgov as (rd & wd & c & -> & Hrd & Hc & ->).
  apply cell_set_inr in Hc as (Hcv & _ & _).
  assert (Hlt : (rd < length h)%nat).
  { destruct Hdest as (r & w & [= <-] & Hr). eapply lookup_lt_Some, Hr. }
  assert (Hne : length h ≠ rd) by lia.
  destruct (isDefined src) eqn:Hdef.
  - apply bind_Ok in H as ([] & h3 & Hpush & H).
    injection H as <- <-.
    apply Word_push_Ok_inv in Hpush as (rs & ws & -> & Hrs & ->).
    assert (Hlts : (rs < length h)%nat).
    { destruct (Hsrc eq_refl) as (r & w & [= <-] & Hr). eapply lookup_lt_Some, Hr. }
    assert (Hnes : length h ≠ rs) by lia.
    assert (Hlen : (rs < length (<[rd:=OWord (set_word_governorEdge c wd)]> (h ++ [OEdge
        {| edge_class_of := ClsDepEdge; edge_src := VObj rs; edge_dest := VObj rd;
           edge_label := label; edge_type := tagname_if PhraseTag type;
           edge_modifiers := []; edge_originalLabel := originalLabel |}])))%nat).
    { rewrite length_insert, length_app. lia. }
    unfold Edge_src, Edge_dest, backref_get, Word_dependentEdges. simpl.
    rewrite !(list_lookup_insert_ne _ _ (length h)) by lia.
    rewrite lookup_app_r by lia. rewrite Nat.sub_diag. simpl.
    split; [reflexivity|]. split; [reflexivity|]. split.
    + destruct (decide (rs = rd)) as [->|Hrsd].
      * rewrite list_lookup_insert_eq by exact Hlen. simpl.
        rewrite list_lookup_insert_eq in Hrs
          by (rewrite length_app; simpl; lia).
        injection Hrs as <-. simpl.
        f_equal. rewrite cell_get_defined; rewrite Hcv; reflexivity.
      * rewrite list_lookup_insert_ne by exact Hrsd.
        rewrite list_lookup_insert_eq by (rewrite length_app; simpl; lia). simpl.
        f_equal. rewrite cell_get_defined; rewrite Hcv; reflexivity.
    + intros _. rewrite list_lookup_insert_eq by exact Hlen. simpl.
      apply list_elem_of_In, in_or_app. right. simpl. auto.
  - apply bind_Ok in H as ([] & h3 & Hret & H).
    injection Hret as <-. injection H as <- <-.
    unfold Edge_src, Edge_dest, backref_get, Word_dependentEdges. simpl.
    rewrite !(list_lookup_insert_ne _ _ (length h)) by lia.
    rewrite lookup_app_r by lia. rewrite Nat.sub_diag. simpl.
    split; [reflexivity|]. split; [reflexivity|]. split; [|discriminate].
    rewrite list_lookup_insert_eq by (rewrite length_app; simpl; lia). simpl.
    f_equal. rewrite cell_get_defined; rewrite Hcv; reflexivity.
Qed.

Lemma RoleEdge_new_backrefs h predicate argument label modifiers originalLabel e h' :
  RoleEdge_new predicate argument label modifiers originalLabel h = Ok e h' ->
  Edge_src h' e = predicate /\ Edge_dest h' e = argument
  /\ e ∈ Word_predicateRoles h' argument
  /\ (isDefined predicate = true -> e ∈ Word_argumentRoles h' predicate).
Proof.
  intros H.
  pose proof (RoleEdge_new_Ok_inv _ _ _ _ _ _ _ _ H) as (_ & _ & _ & Hp & Ha).
  unfold RoleEdge_new in H.
  apply bind_Ok in H as ([] & h1 & H1 & H). apply typeCheck_Ok_same in H1 as [-> _].
  apply bind_Ok in H as ([] & h1 & H1 & H). apply typeCheck_Ok_same in H1 as [-> _].
  apply bind_Ok in H as ([] & h1 & H1 & H). apply typeCheck_Ok_same in H1 as [-> _].
  rewrite (is_Word_defined _ _ Hp), (is_Word_defined _ _ Ha) in H.
  apply bind_Ok in H as ([] & h1 & H1 & H). injection H1 as <-.
  apply bind_Ok in H as ([] & h1 & H1 & H). apply DAGEdge_super_inv in H1 as (-> & _ & _).
  apply bind_Ok in H as (this & h1 & Halloc & H).
  unfold alloc in Halloc. injection Halloc as <- <-.
  apply bind_Ok in H as ([] & h2 & Hpush1 & H).
  apply bind_Ok in H as ([] & h3 & Hpush2 & H).
  injection H as <- <-.
  apply Word_push_Ok_inv in Hpush1 as (ra & wa & -> & Hra & ->).
  apply Word_push_Ok_inv in Hpush2 as (rp & wp & -> & Hrp & ->).
  assert (Hlta : (ra < length h)%nat).
  { destruct Ha as (r & w & [= <-] & Hr). eapply lookup_lt_Some, Hr. }
  assert (Hltp : (rp < length h)%nat).
  { destruct Hp as (r & w & [= <-] & Hr). eapply lookup_lt_Some, Hr. }
  unfold Edge_src, Edge_dest, Word_predicateRoles, Word_argumentRoles. simpl.
  rewrite !(list_lookup_insert_ne _ _ (length h)) by lia.
  rewrite lookup_app_r by lia. rewrite Nat.sub_diag. simpl.
  split; [reflexivity|]. split; [reflexivity|]. split.
  - destruct (decide (rp = ra)) as [->|Hne].
    + rewrite list_lookup_insert_eq
        by (rewrite length_insert, length_app; simpl; lia). simpl.
      rewrite list_lookup_insert_eq in Hrp by (rewrite length_app; simpl; lia).
      injection Hrp as <-. simpl.
      apply list_elem_of_In, in_or_app. right. simpl. auto.
    + rewrite list_lookup_insert_ne by exact Hne.
      rewrite list_lookup_insert_eq by (rewrite length_app; simpl; lia). simpl.
      apply list_elem_of_In, in_or_app. right. simpl. auto.
  - intros _.
    rewrite list_lookup_insert_eq
      by (rewrite length_insert, length_app; simpl; lia). simpl.
    apply list_elem_of_In, in_or_app. right. simpl. auto.
Qed.

(** C3.  A DepEdge that has been constructed is the [governorEdge] of its
    [dest] and, when its [src] is defined, an element of its [src]'s
    [dependentEdges]; a RoleEdge that has been constructed is an element of
    its [dest]'s [predicateRoles] and, when its [src] is defined, of its
    [src]'s [argumentRoles]. *)
Theorem edges_registered_on_endpoints (h : heap) :
  (forall governor dependent type depType originalLabel src dest label e h',
      DepEdge_new governor dependent type depType originalLabel src dest label h = Ok e h' ->
      backref_get Word_governorEdge h' (Edge_dest h' e) = Some e
      /\ (isDefined (Edge_src h' e) = true -> e ∈ Word_dependentEdges h' (Edge_src h' e)))
  /\ (forall predicate argument label modifiers originalLabel e h',
      RoleEdge_new predicate argument label modifiers originalLabel h = Ok e h' ->
      e ∈ Word_predicateRoles h' (Edge_dest h' e)
      /\ (isDefined (Edge_src h' e) = true -> e ∈ Word_argumentRoles h' (Edge_src h' e))).
Proof.
  split.
  - intros governor dependent type depType originalLabel src dest label e h' H.
    apply DepEdge_new_backrefs in H as (-> & -> & Hg & Hd). auto.
  - intros predicate argument label modifiers originalLabel e h' H.
    apply RoleEdge_new_backrefs in H as (-> & -> & Hp & Ha). auto.
Qed.

(** Both constructors do succeed: a DepEdge from Word 1 to Word 3 (given
    through [src] and [dest]), and a RoleEdge with predicate 3, argument 1. *)
Lemma edges_registered_on_endpoints_witness :
  (exists e h',
      DepEdge_new (VObj 1%nat) (VObj 3%nat) (VStr "NP") VUndefined VUndefined
        (VObj 1%nat) (VObj 3%nat) VUndefined heap_two_words = Ok e h'
      /\ backref_get Word_governorEdge h' (Edge_dest h' e) = Some e
      /\ (isDefined (Edge_src h' e) = true -> e ∈ Word_dependentEdges h' (Edge_src h' e)))
  /\ (exists e h',
      RoleEdge_new (VObj 3%nat) (VObj 1%nat) (VStr "ARG1") None VUndefined heap_two_words
        = Ok e h'
      /\ e ∈ Word_predicateRoles h' (Edge_dest h' e)
      /\ (isDefined (Edge_src h' e) = true -> e ∈ Word_argumentRoles h' (Edge_src h' e))).
Proof.
  split.
  - eexists _, _. split; [vm_compute; reflexivity|].
    apply (proj1 (edges_registered_on_endpoints heap_two_words)
             (VObj 1%nat) (VObj 3%nat) (VStr "NP") VUndefined VUndefined
             (VObj 1%nat) (VObj 3%nat) VUndefined).
    vm_compute. reflexivity.
  - eexists _, _. split; [vm_compute; reflexivity|].
    apply (proj2 (edges_registered_on_endpoints heap_two_words)
             (VObj 3%nat) (VObj 1%nat) (VStr "ARG1") None VUndefined).
    vm_compute. reflexivity.
Defined.

(** ** Word construction finalises its morphemes *)

Lemma Morpheme_assign_word_inv morph newValue h u h' :
  Morpheme_assign_word morph newValue h = Ok u h' ->
  exists r m c, morph = VObj r /\ h !! r = Some (OMorpheme m)
                /\ cell_set (morph_word m) newValue = inr c
                /\ h' = <[r := OMorpheme (set_morph_word c m)]> h.
Proof.
  unfold Morpheme_assign_word, run_cell_set.
  destruct morph as [| | | | |r]; try discriminate.
  destruct (h !! r) as [[m| | | | | |]|] eqn:Hr; try discriminate.
  destruct (cell_set (morph_word m) newValue) as [|c] eqn:Hc; [discriminate|].
  intros [= <- <-]. exists r, m, c. auto.
Qed.

Lemma Morpheme_assign_id_inv morph newValue h u h' :
  Morpheme_assign_id morph newValue h = Ok u h' ->
  exists r m c, morph = VObj r /\ h !! r = Some (OMorpheme m)
                /\ cell_set (morph_id m) newValue = inr c
                /\ h' = <[r := OMorpheme (set_morph_id c m)]> h.
Proof.
  unfold Morpheme_assign_id, run_cell_set.
  destruct morph as [| | | | |r]; try discriminate.
  destruct (h !! r) as [[m| | | | | |]|] eqn:Hr; try discriminate.
  destruct (cell_set (morph_id m) newValue) as [|c] eqn:Hc; [discriminate|].
  intros [= <- <-]. exists r, m, c. auto.
Qed.

(** One round of the constructor's loop: [morph.word = this; morph.id = i]. *)
Lemma Word_link_step this i morph h h' :
  (Morpheme_assign_word morph this ;;; Morpheme_assign_id morph (VNum i)) h = Ok tt h' ->
  linked this h' morph i
  /\ (forall morph' i', linked this h morph' i' -> linked this h' morph' i')
  /\ length h' = length h.
Proof.
  intros H. apply bind_Ok in H as ([] & h1 & Hw & Hi).
  apply Morpheme_assign_word_inv in Hw as (r & m & c & -> & Hr & Hc & ->).
  apply Morpheme_assign_id_inv in Hi as (r' & m' & c' & [= <-] & Hr' & Hc' & ->).
  assert (Hlt : (r < length h)%nat) by (eapply lookup_lt_Some, Hr).
  rewrite list_lookup_insert_eq in Hr' by exact Hlt. injection Hr' as <-.
  rewrite list_insert_insert_eq.
  apply cell_set_inr in Hc as Hc1. destruct Hc1 as (Hcv & _ & _).
  apply cell_set_inr in Hc' as Hc1. destruct Hc1 as (Hcv' & _ & _).
  split; [|split].
  - exists r, (set_morph_id c' (set_morph_word c m)).
    rewrite list_lookup_insert_eq by exact Hlt. simpl. auto.
  - intros morph' i' (r1 & m1 & -> & Hr1 & Hid & Hword).
    destruct (decide (r = r1)) as [<-|Hne].
    + rewrite Hr in Hr1. injection Hr1 as <-.
      exists r, (set_morph_id c' (set_morph_word c m)).
      rewrite list_lookup_insert_eq by exact Hlt. simpl.
      split; [reflexivity|]. split; [reflexivity|]. split; [|exact Hcv].
      simpl in Hc'. unfold cell_set in Hc'. rewrite Hid in Hc'.
      destruct (decide (VNum i' = VNum i)) as [Heq|Hneq].
      * injection Hc' as <-. exact Hid.
      * simpl in Hc'. discriminate.
    + exists r1, m1. rewrite list_lookup_insert_ne by exact Hne. auto.
  - rewrite length_insert. reflexivity.
Qed.

Lemma Word_link_loop this morphemes : forall k h h',
  forM_entries (fun i morph =>
      Morpheme_assign_word morph this ;;; Morpheme_assign_id morph (VNum i)) k morphemes h
    = Ok tt h' ->
  (forall morph i, linked this h morph i -> linked this h' morph i)
  /\ (forall (j : nat) morph, morphemes !! j = Some morph ->
        linked this h' morph (k + Z.of_nat j))
  /\ length h' = length h.
Proof.
  induction morphemes as [|m ms IH]; intros k h h' H; simpl in H.
  - injection H as <-. split; [auto|]. split; [|reflexivity].
    intros j morph Hj. rewrite lookup_nil in Hj. discriminate.
  - apply bind_Ok in H as ([] & h1 & Hstep & Hrest).
    apply Word_link_step in Hstep as (Hm & Hkeep & Hlen).
    apply IH in Hrest as (Hkeep' & Hall & Hlen').
    split; [auto|]. split; [|congruence].
    intros [|j] morph Hj; simpl in Hj.
    + injection Hj as <-. rewrite Z.add_0_r. apply Hkeep', Hm.
    + replace (k + Z.of_nat (S j)) with (k + 1 + Z.of_nat j) by lia.
      apply Hall, Hj.
Qed.

Lemma linked_backrefs this h morph i :
  isDefined this = true -> linked this h morph i ->
  backref_get Morpheme_id h morph = Some (VNum i)
  /\ backref_get Morpheme_word h morph = Some this.
Proof.
  intros Hdef (r & m & -> & Hr & Hid & Hword).
  unfold backref_get. simpl. rewrite Hr. simpl.
  rewrite !cell_get_defined; rewrite ?Hid, ?Hword; auto.
Qed.

(** C5.  When [new Word({surface, morphemes})] returns a Word, every
    [morphemes[i]] has [id] equal to [i] and [word] equal to that Word, and
    the Word's items are the given morphemes in order. *)
Theorem Word_new_numbers_morphemes (h : heap) (surface : value) (morphemes : list value)
    (word : value) (h' : heap) :
  Word_new surface morphemes h = Ok word h' ->
  Word_items h' word = morphemes
  /\ forall (i : nat) morph, morphemes !! i = Some morph ->
       backref_get Morpheme_id h' morph = Some (VNum (Z.of_nat i))
       /\ backref_get Morpheme_word h' morph = Some word.
Proof.
  unfold Word_new. intros H.
  apply bind_Ok in H as ([] & h1 & Hm & H). apply typeCheck_Ok_same in Hm as [-> Hm].
  apply bind_Ok in H as ([] & h1 & Hs & H). apply typeCheck_Ok_same in Hs as [-> _].
  apply bind_Ok in H as (this & h1 & Halloc & H).
  unfold alloc in Halloc. injection Halloc as <- <-.
  apply bind_Ok in H as ([] & h2 & Hloop & H). injection H as <- <-.
  apply typeCheck_Morphemes in Hm.
  assert (Hloop' := Hloop).
  apply Word_link_loop in Hloop' as (_ & Hall & Hlen).
  split.
  - clear Hall.
    assert (Hword : forall h0, (length h < length h0)%nat ->
              h0 !! length h = Some (OWord
                {| word_items := morphemes; word_surface := surface;
                   word_id := writeonlyonce (VNum (-1)) "id";
                   word_phrase := writeonlyonce VUndefined "phrase";
                   word_governorEdge := writeonlyonce VUndefined "governorEdge";
                   word_dependentEdges := []; word_argumentRoles := [];
                   word_predicateRoles := [] |}) ->
              forall l k h3,
              forM_entries (fun i morph =>
                  Morpheme_assign_word morph (VObj (length h)) ;;;
                  Morpheme_assign_id morph (VNum i)) k l h0 = Ok tt h3 ->
              Word_items h3 (VObj (length h)) = morphemes).
    { intros h0 Hlt0 Hw0 l. revert h0 Hlt0 Hw0.
      induction l as [|m ms IH]; intros h0 Hlt0 Hw0 k h3 Hf; simpl in Hf.
      - injection Hf as <-. unfold Word_items. cbv beta iota. rewrite Hw0. reflexivity.
      - apply bind_Ok in Hf as ([] & h4 & Hstep & Hrest).
        apply bind_Ok in Hstep as ([] & h5 & Hw & Hi).
        apply Morpheme_assign_word_inv in Hw as (r & mo & c & -> & Hr & Hc & ->).
        apply Morpheme_assign_id_inv in Hi as (r' & mo' & c' & [= <-] & Hr' & Hc' & ->).
        eapply IH; [| |exact Hrest].
        + rewrite !length_insert. exact Hlt0.
        + assert (r ≠ length h) by (intros ->; rewrite Hw0 in Hr; discriminate).
          rewrite !list_lookup_insert_ne by assumption. exact Hw0. }
    eapply Hword; [| |exact Hloop].
    + rewrite length_app. simpl. lia.
    + rewrite lookup_app_r by lia. rewrite Nat.sub_diag. reflexivity.
  - intros i morph Hi. apply linked_backrefs; [reflexivity|].
    specialize (Hall i morph Hi). rewrite Z.add_0_l in Hall. exact Hall.
Qed.

Lemma Word_new_numbers_morphemes_witness :
  exists word h',
    Word_new (VStr "나는") [VObj 0%nat; VObj 1%nat] heap_two_morphemes = Ok word h'
    /\ Word_items h' word = [VObj 0%nat; VObj 1%nat]
    /\ forall (i : nat) morph, [VObj 0%nat; VObj 1%nat] !! i = Some morph ->
         backref_get Morpheme_id h' morph = Some (VNum (Z.of_nat i))
         /\ backref_get Morpheme_word h' morph = Some word.
Proof.
  eexists _, _. split; [vm_compute; reflexivity|].
  apply (Word_new_numbers_morphemes heap_two_morphemes (VStr "나는") [VObj 0%nat; VObj 1%nat]).
  vm_compute. reflexivity.
Defined.

(** Construction does return a Word when the morphemes are pairwise distinct
    objects that no Word has been built over. *)
Lemma Word_link_step_fresh this i morph h :
  unlinked h morph ->
  exists h', (Morpheme_assign_word morph this ;;; Morpheme_assign_id morph (VNum i)) h = Ok tt h'
             /\ forall morph', morph' ≠ morph -> unlinked h morph' -> unlinked h' morph'.
Proof.
  intros (r & m & -> & Hr & Hid & Hword).
  assert (Hlt : (r < length h)%nat) by (eapply lookup_lt_Some, Hr).
  destruct (cell_set_first (morph_word m) this) as (c & Hc & _); [rewrite Hword; reflexivity|].
  destruct (cell_set_first (morph_id m) (VNum i)) as (c' & Hc' & _); [rewrite Hid; reflexivity|].
  exists (<[r := OMorpheme (set_morph_id c' (set_morph_word c m))]> h). split.
  - unfold bind, Morpheme_assign_word, Morpheme_assign_id, run_cell_set.
    rewrite Hr, Hc. rewrite list_lookup_insert_eq by exact Hlt. simpl.
    rewrite Hc'. rewrite list_insert_insert_eq. reflexivity.
  - intros morph' Hne (r1 & m1 & -> & Hr1 & Hid1 & Hword1).
    exists r1, m1. rewrite list_lookup_insert_ne by congruence. auto.
Qed.

Lemma Word_link_loop_fresh this morphemes : forall k h,
  NoDup morphemes -> Forall (unlinked h) morphemes ->
  exists h', forM_entries (fun i morph =>
      Morpheme_assign_word morph this ;;; Morpheme_assign_id morph (VNum i)) k morphemes h
    = Ok tt h'.
Proof.
  induction morphemes as [|m ms IH]; intros k h Hnd Hall; simpl.
  - eexists. reflexivity.
  - inversion Hnd as [|? ? Hnotin Hnd']; subst.
    inversion Hall as [|? ? Hm Hms]; subst.
    destruct (Word_link_step_fresh this k m h Hm) as (h1 & Hstep & Hkeep).
    rewrite (bind_Ok_intro _ _ _ _ _ Hstep).
    apply IH; [exact Hnd'|].
    rewrite Forall_forall in Hms |- *. intros x Hx.
    apply Hkeep; [|apply Hms, Hx].
    intros ->. apply Hnotin, list_elem_of_In, Hx.
Qed.

Lemma Word_new_fresh_succeeds h surface morphemes :
  typeName h surface = Some "string" -> NoDup morphemes -> Forall (unlinked h) morphemes ->
  exists word h', Word_new surface morphemes h = Ok word h'.
Proof.
  intros Hs Hnd Hall. unfold Word_new.
  rewrite (bind_Ok_intro _ _ h tt h).
  2:{ apply typeCheck_Morphemes. eapply Forall_impl; [|exact Hall].
      intros v (r & m & -> & Hr & _). exists r, m. auto. }
  rewrite (bind_Ok_intro _ _ h tt h).
  2:{ apply typeCheck_single. exists "string". split; [exact Hs|].
      apply list_elem_of_singleton. reflexivity. }
  unfold bind at 1. unfold alloc at 1.
  match goal with |- context [h ++ [?o]] => set (h1 := h ++ [o]) end.
  destruct (Word_link_loop_fresh (VObj (length h)) morphemes 0 h1 Hnd) as [h2 Hloop].
  { eapply Forall_impl; [|exact Hall].
    intros v (r & m & -> & Hr & Hid & Hword). exists r, m.
    split; [reflexivity|]. split; [apply lookup_app_l_Some, Hr | auto]. }
  rewrite (bind_Ok_intro _ _ _ _ _ Hloop). unfold ret. eauto.
Qed.

(** ** getTerminals *)

Lemma Tree_ind (P : Tree -> Prop) :
  (forall label terminal children, Forall P children -> P (TreeNode label terminal children)) ->
  forall t, P t.
Proof.
  intros Hnode. fix IH 1. intros [label terminal children].
  apply Hnode. induction children as [|c cs IHcs]; constructor; [apply IH | exact IHcs].
Qed.

Section SortByKey.

Context {A : Type} (key : A -> Z).

Local Notation compare := (fun x y : A => key x - key y).

Lemma sort_insert_Permutation x l : Permutation (sort_insert compare x l) (x :: l).
Proof.
  induction l as [|y l IH]; simpl; [reflexivity|].
  destruct (decide (key x - key y <= 0)); [reflexivity|].
  rewrite IH. apply perm_swap.
Qed.

Lemma Array_sort_Permutation l : Permutation (Array_sort compare l) l.
Proof.
  induction l as [|x l IH]; simpl; [reflexivity|].
  rewrite sort_insert_Permutation, IH. reflexivity.
Qed.

Lemma sort_insert_sorted x l :
  StronglySorted (fun a b => key a <= key b) l ->
  StronglySorted (fun a b => key a <= key b) (sort_insert compare x l).
Proof.
  induction l as [|y l IH]; intros Hs; simpl.
  - constructor; constructor.
  - inversion Hs as [|? ? Hs' Hy]; subst.
    destruct (decide (key x - key y <= 0)) as [Hle|Hgt].
    + constructor; [exact Hs|].
      constructor; [lia|].
      eapply Forall_impl; [|exact Hy]. intros z Hz. simpl in Hz. lia.
    + constructor; [apply IH, Hs'|].
      eapply Permutation_Forall; [symmetry; apply sort_insert_Permutation|].
      constructor; [lia | exact Hy].
Qed.

Lemma Array_sort_sorted l :
  StronglySorted (fun a b => key a <= key b) (Array_sort compare l).
Proof.
  induction l as [|x l IH]; simpl; [constructor | apply sort_insert_sorted, IH].
Qed.

Lemma sorted_distinct_keys l :
  StronglySorted (fun a b => key a <= key b) l -> NoDup (map key l) ->
  StronglySorted Z.lt (map key l).
Proof.
  induction l as [|x l IH]; intros Hs Hnd; simpl; [constructor|].
  inversion Hs as [|? ? Hs' Hx]; subst.
  simpl in Hnd. inversion Hnd as [|? ? Hnotin Hnd']; subst.
  constructor; [apply IH; assumption|].
  apply Forall_forall. intros k Hk.
  apply in_map_iff in Hk as (y & <- & Hy).
  rewrite Forall_forall in Hx. specialize (Hx y Hy). simpl in Hx.
  assert (key x ≠ key y).
  { intros Heq. apply Hnotin. rewrite Heq.
    apply list_elem_of_In, in_map, Hy. }
  lia.
Qed.

End SortByKey.

Lemma fold_left_concat {A B} (g : B -> list A) (l : list B) (acc : list A) :
  fold_left (fun acc c => acc ++ g c) l acc = acc ++ concat (map g l).
Proof.
  revert acc. induction l as [|c l IH]; intros acc; simpl.
  - rewrite app_nil_r. reflexivity.
  - rewrite IH, app_assoc. reflexivity.
Qed.

Lemma Permutation_concat_map {A B} (f g : B -> list A) (l : list B) :
  Forall (fun c => Permutation (f c) (g c)) l ->
  Permutation (concat (map f l)) (concat (map g l)).
Proof.
  induction 1 as [|c l Hc _ IH]; simpl; [reflexivity|].
  rewrite Hc, IH. reflexivity.
Qed.

(** What [getTerminals] returns is a rearrangement of the reachable
    terminals. *)
Lemma getTerminals_Permutation h t : Permutation (getTerminals h t) (reachable_terminals t).
Proof.
  induction t as [label terminal children IH] using Tree_ind. simpl.
  etransitivity; [apply (Array_sort_Permutation (Word_id h))|].
  rewrite fold_left_concat. simpl.
  apply Permutation_concat_map in IH.
  destruct (decide (terminal = VUndefined)); simpl; [exact IH|].
  rewrite IH. symmetry. apply Permutation_cons_append.
Qed.

Lemma getTerminals_sorted h t :
  StronglySorted (fun a b => Word_id h a <= Word_id h b) (getTerminals h t).
Proof.
  destruct t as [label terminal children]. simpl.
  apply (Array_sort_sorted (Word_id h)).
Qed.

Lemma reachable_terminals_length t : length (reachable_terminals t) = count_terminals t.
Proof.
  induction t as [label terminal children IH] using Tree_ind. simpl.
  rewrite length_app. f_equal.
  - destruct (decide (terminal = VUndefined)); reflexivity.
  - induction IH as [|c cs Hc _ IHcs]; simpl; [reflexivity|].
    rewrite length_app, Hc, IHcs. reflexivity.
Qed.

(** C4.  For a tree whose reachable terminal Words have pairwise distinct
    ids, [getTerminals()] returns exactly the reachable terminals (its own
    and those of all descendants), in strictly ascending order of [id], and
    as many of them as there are nodes carrying a terminal. *)
Theorem getTerminals_sorted_by_id (h : heap) (t : Tree) :
  NoDup (map (Word_id h) (reachable_terminals t)) ->
  Permutation (getTerminals h t) (reachable_terminals t)
  /\ StronglySorted Z.lt (map (Word_id h) (getTerminals h t))
  /\ length (getTerminals h t) = count_terminals t.
Proof.
  intros Hnd.
  pose proof (getTerminals_Permutation h t) as Hperm.
  split; [exact Hperm|]. split.
  - apply sorted_distinct_keys; [apply getTerminals_sorted|].
    eapply NoDup_Permutation_proper; [|exact Hnd].
    apply Permutation_map, Hperm.
  - rewrite (Permutation_length Hperm). apply reachable_terminals_length.
Qed.

Lemma getTerminals_sorted_by_id_witness :
  exists t, Tree_unfold 3 heap_parsed_sentence (VObj 7%nat) = Some t
            /\ getTerminals heap_parsed_sentence t = [VObj 1%nat; VObj 3%nat]
            /\ Permutation (getTerminals heap_parsed_sentence t) (reachable_terminals t)
            /\ StronglySorted Z.lt (map (Word_id heap_parsed_sentence)
                                      (getTerminals heap_parsed_sentence t))
            /\ length (getTerminals heap_parsed_sentence t) = count_terminals t.
Proof.
  eexists. split; [vm_compute; reflexivity|]. split; [vm_compute; reflexivity|].
  apply (getTerminals_sorted_by_id heap_parsed_sentence).
  apply (bool_decide_unpack _). vm_compute. exact I.
Defined.

(** ** Sentence.nouns *)

Lemma Array_findIndex_from_spec {A} (p : A -> bool) (l : list A) : forall k, 0 <= k ->
  (Array_findIndex_from p k l = -1 /\ Forall (fun x => p x = false) l)
  \/ (exists n, Array_findIndex_from p k l = k + Z.of_nat n /\ earliest_index p l n).
Proof.
  induction l as [|x l IH]; intros k Hk; simpl.
  - left. split; [reflexivity | constructor].
  - destruct (p x) eqn:Hx.
    + right. exists 0%nat. split; [lia|]. split; [exists x; auto|].
      intros j y Hj. lia.
    + destruct (IH (k + 1)) as [[Hr Hall]|(n & Hr & (y & Hy & Hpy) & Hbefore)]; [lia| |].
      * left. split; [exact Hr | constructor; assumption].
      * right. exists (S n). split; [lia|]. split; [exists y; auto|].
        intros [|j] z Hj Hz; simpl in Hz.
        -- injection Hz as <-. exact Hx.
        -- eapply Hbefore; [|exact Hz]. lia.
Qed.

Lemma lodash_findLastIndex_from_spec {A} (p : A -> bool) (l : list A) : forall k, 0 <= k ->
  (lodash_findLastIndex_from p k l = -1 /\ Forall (fun x => p x = false) l)
  \/ (exists n, lodash_findLastIndex_from p k l = k + Z.of_nat n
                /\ (exists x, l !! n = Some x /\ p x = true)
                /\ forall j x, (n < j)%nat -> l !! j = Some x -> p x = false).
Proof.
  induction l as [|x l IH]; intros k Hk; simpl.
  - left. split; [reflexivity | constructor].
  - destruct (IH (k + 1)) as [[Hr Hall]|(n & Hr & (y & Hy & Hpy) & Hafter)]; [lia| |].
    + rewrite Hr. rewrite decide_True by reflexivity.
      destruct (p x) eqn:Hx.
      * right. exists 0%nat. split; [lia|]. split; [exists x; auto|].
        intros [|j] z Hj Hz; [lia|]. simpl in Hz.
        rewrite Forall_forall in Hall. apply Hall.
        apply list_elem_of_In, list_elem_of_lookup. eauto.
      * left. split; [reflexivity | constructor; assumption].
    + rewrite Hr. rewrite decide_False by lia.
      right. exists (S n). split; [lia|]. split; [exists y; auto|].
      intros [|j] z Hj Hz; [lia|]. simpl in Hz. eapply Hafter; [|exact Hz]. lia.
Qed.

Lemma earliest_index_unique {A} (p : A -> bool) l i j :
  earliest_index p l i -> earliest_index p l j -> i = j.
Proof.
  intros [(x & Hx & Hpx) Hi] [(y & Hy & Hpy) Hj].
  destruct (Nat.lt_trichotomy i j) as [Hlt|[Heq|Hgt]]; [|exact Heq|].
  - specialize (Hj i x Hlt Hx). congruence.
  - specialize (Hi j y Hgt Hy). congruence.
Qed.

Lemma earliest_index_not_all_false {A} (p : A -> bool) l i :
  earliest_index p l i -> ~ Forall (fun x => p x = false) l.
Proof.
  intros [(x & Hx & Hpx) _] Hall. rewrite Forall_forall in Hall.
  assert (p x = false) by (apply Hall, list_elem_of_In, list_elem_of_lookup; eauto).
  congruence.
Qed.

Lemma latest_index_unique {A} (p : A -> bool) l k k' :
  latest_index_or_minus1 p l k -> latest_index_or_minus1 p l k' -> k = k'.
Proof.
  intros [[-> Hall]|(Hk & (x & Hx & Hpx) & Hafter)]
         [[-> Hall']|(Hk' & (y & Hy & Hpy) & Hafter')].
  - reflexivity.
  - rewrite Forall_forall in Hall.
    assert (p y = false) by (apply Hall, list_elem_of_In, list_elem_of_lookup; eauto).
    congruence.
  - rewrite Forall_forall in Hall'.
    assert (p x = false) by (apply Hall', list_elem_of_In, list_elem_of_lookup; eauto).
    congruence.
  - destruct (Nat.lt_trichotomy (Z.to_nat k) (Z.to_nat k')) as [Hlt|[Heq|Hgt]]; [|lia|].
    + specialize (Hafter _ y Hlt Hy). congruence.
    + specialize (Hafter' _ x Hgt Hx). congruence.
Qed.

Lemma Array_findIndex_earliest {A} (p : A -> bool) l :
  (Array_findIndex p l = -1 /\ Forall (fun x => p x = false) l)
  \/ (exists n, Array_findIndex p l = Z.of_nat n /\ earliest_index p l n).
Proof.
  unfold Array_findIndex.
  destruct (Array_findIndex_from_spec p l 0) as [H|(n & Hr & Hn)]; [lia|auto|].
  right. exists n. rewrite Hr. split; [lia | exact Hn].
Qed.

Lemma lodash_findLastIndex_latest {A} (p : A -> bool) l :
  latest_index_or_minus1 p l (lodash_findLastIndex p l).
Proof.
  unfold lodash_findLastIndex, latest_index_or_minus1.
  destruct (lodash_findLastIndex_from_spec p l 0) as [H|(n & Hr & Hn & Hafter)]; [lia|auto|].
  right. rewrite Hr. rewrite Z.add_0_l, Nat2Z.id. split; [lia | auto].
Qed.

(** The loop of the getter keeps the Words that pass its test. *)
Lemma fold_left_push_if {A} (test : A -> bool) (l : list A) : forall (acc : list A) x,
  x ∈ fold_left (fun result w => if test w then result ++ [w] else result) l acc
  <-> x ∈ acc \/ (x ∈ l /\ test x = true).
Proof.
  induction l as [|w l IH]; intros acc x; simpl.
  - split; [auto | intros [H|[H _]]; [exact H | inversion H]].
  - rewrite IH. destruct (test w) eqn:Hw.
    + rewrite elem_of_app, list_elem_of_singleton, elem_of_cons. split.
      * intros [[H| ->]|[H Ht]]; auto.
      * intros [H|[[->|H] Ht]]; auto.
    + rewrite elem_of_cons. split.
      * intros [H|[H Ht]]; auto.
      * intros [H|[[->|H] Ht]]; [auto|congruence|auto].
Qed.

Lemma earliest_index_ext {A} (p q : A -> bool) l i :
  (forall x, p x = q x) -> earliest_index p l i -> earliest_index q l i.
Proof.
  intros Hpq [(x & Hx & Hpx) Hbefore]. split.
  - exists x. rewrite <- Hpq. auto.
  - intros j y Hj Hy. rewrite <- Hpq. eauto.
Qed.

Lemma latest_index_ext {A} (p q : A -> bool) l k :
  (forall x, p x = q x) -> latest_index_or_minus1 p l k -> latest_index_or_minus1 q l k.
Proof.
  intros Hpq [[-> Hall]|(Hk & (x & Hx & Hpx) & Hafter)].
  - left. split; [reflexivity|]. eapply Forall_impl; [|exact Hall].
    intros x Hx. simpl in Hx. rewrite <- Hpq. exact Hx.
  - right. split; [exact Hk|]. split.
    + exists x. rewrite <- Hpq. auto.
    + intros j y Hj Hy. rewrite <- Hpq. eauto.
Qed.

Section WordClassRule.

Variable POS_isNoun : value -> bool.
Variable POS_startsWith : value -> string -> bool.

Lemma nouns_inclusion_unfold m :
  nouns_inclusion POS_isNoun POS_startsWith m
  = POS_isNoun (morph_tag m) || POS_startsWith (morph_tag m) "ETN"
    || POS_startsWith (morph_tag m) "XSN".
Proof.
  unfold nouns_inclusion, Morpheme_isNoun, Morpheme_hasTagOneOf. simpl.
  destruct (POS_isNoun _), (POS_startsWith _ "ETN"), (POS_startsWith _ "XSN"); reflexivity.
Qed.

Lemma nouns_exclusion_unfold m :
  nouns_exclusion POS_startsWith m
  = POS_startsWith (morph_tag m) "XSV" || POS_startsWith (morph_tag m) "XSA"
    || POS_startsWith (morph_tag m) "XSM".
Proof.
  unfold nouns_exclusion, Morpheme_hasTagOneOf. simpl.
  destruct (POS_startsWith _ "XSV"), (POS_startsWith _ "XSA"), (POS_startsWith _ "XSM");
    reflexivity.
Qed.

(** C6.  A Word of a Sentence is among [nouns] exactly when it has a
    morpheme that is noun-category or tagged with prefix ETN or XSN and the
    earliest index of such a morpheme is strictly greater than the latest
    index of a morpheme tagged with prefix XSV, XSA or XSM, that latest
    index being -1 when there is no such morpheme. *)
Theorem Sentence_nouns_rule (h : heap) (sentence word : value) :
  word ∈ Sentence_items h sentence ->
  (word ∈ Sentence_nouns POS_isNoun POS_startsWith h sentence
   <-> noun_word POS_isNoun POS_startsWith (Word_morphemes h word)).
Proof.
  intros Hin. unfold Sentence_nouns.
  rewrite (fold_left_push_if
    (fun word =>
       bool_decide (Array_findIndex (nouns_inclusion POS_isNoun POS_startsWith)
                      (Word_morphemes h word) ≠ -1)
       && bool_decide (Array_findIndex (nouns_inclusion POS_isNoun POS_startsWith)
                         (Word_morphemes h word)
                       > lodash_findLastIndex (nouns_exclusion POS_startsWith)
                           (Word_morphemes h word)))).
  set (ms := Word_morphemes h word).
  pose proof (Array_findIndex_earliest (nouns_inclusion POS_isNoun POS_startsWith) ms)
    as Hfirst.
  pose proof (lodash_findLastIndex_latest (nouns_exclusion POS_startsWith) ms) as Hlast.
  split.
  - intros [Hnil|[_ Htest]]; [inversion Hnil|].
    apply andb_true_iff in Htest as [Hne Hgt].
    apply bool_decide_eq_true in Hne, Hgt.
    destruct Hfirst as [[Hr _]|(n & Hr & Hn)]; [contradiction|].
    exists n, (lodash_findLastIndex (nouns_exclusion POS_startsWith) ms).
    split; [|split].
    + eapply earliest_index_ext; [apply nouns_inclusion_unfold | exact Hn].
    + eapply latest_index_ext; [apply nouns_exclusion_unfold | exact Hlast].
    + rewrite <- Hr. exact Hgt.
  - intros (i & k & Hi & Hk & Hik). right. split; [exact Hin|].
    apply (earliest_index_ext _ (nouns_inclusion POS_isNoun POS_startsWith)) in Hi;
      [|intros x; symmetry; apply nouns_inclusion_unfold].
    apply (latest_index_ext _ (nouns_exclusion POS_startsWith)) in Hk;
      [|intros x; symmetry; apply nouns_exclusion_unfold].
    destruct Hfirst as [[_ Hall]|(n & Hr & Hn)].
    + exfalso. eapply earliest_index_not_all_false; eassumption.
    + rewrite (earliest_index_unique _ _ _ _ Hn Hi) in Hr.
      rewrite (latest_index_unique _ _ _ _ Hlast Hk).
      rewrite Hr. apply andb_true_iff. split; apply bool_decide_eq_true; lia.
Qed.

End WordClassRule.

(** Of the two Words of the concrete sentence, 먹/VV+기/ETN is a noun (ETN at
    index 1, no exclusion), 사랑/NNG+하/XSV+다/EF is not (NNG at 0, XSV at 1). *)
Lemma Sentence_nouns_rule_witness :
  Sentence_nouns tag_isNoun tag_startsWith heap_nouns_sentence (VObj 7%nat) = [VObj 6%nat]
  /\ (VObj 6%nat ∈ Sentence_nouns tag_isNoun tag_startsWith heap_nouns_sentence (VObj 7%nat)
      <-> noun_word tag_isNoun tag_startsWith (Word_morphemes heap_nouns_sentence (VObj 6%nat))).
Proof.
  split; [vm_compute; reflexivity|].
  apply (Sentence_nouns_rule tag_isNoun tag_startsWith heap_nouns_sentence
           (VObj 7%nat) (VObj 6%nat)).
  apply (bool_decide_unpack _). vm_compute. exact I.
Defined.

(** ** Reconstruction of coreference groups *)

Lemma obj_evolves_refl o : obj_evolves o o.
Proof. destruct o; simpl; auto. Qed.

Lemma obj_evolves_trans o1 o2 o3 : obj_evolves o1 o2 -> obj_evolves o2 o3 -> obj_evolves o1 o3.
Proof.
  destruct o1, o2; simpl; try contradiction; destruct o3; simpl; try contradiction; auto.
  - intros (-> & -> & H1) (-> & -> & H2). auto.
  - congruence.
  - intros (-> & -> & ->) (-> & -> & ->). auto.
  - intros (-> & H1) (-> & H2). split; [reflexivity|].
    intros Hne. rewrite H2; rewrite H1; auto.
Qed.

Lemma heap_evolves_refl h : heap_evolves h h.
Proof. intros r o Hr. exists o. split; [exact Hr | apply obj_evolves_refl]. Qed.

Lemma heap_evolves_trans h1 h2 h3 :
  heap_evolves h1 h2 -> heap_evolves h2 h3 -> heap_evolves h1 h3.
Proof.
  intros H12 H23 r o Hr.
  destruct (H12 r o Hr) as (o2 & Hr2 & Ho2).
  destruct (H23 r o2 Hr2) as (o3 & Hr3 & Ho3).
  exists o3. split; [exact Hr3 | eapply obj_evolves_trans; eassumption].
Qed.

Lemma heap_evolves_alloc h o : heap_evolves h (h ++ [o]).
Proof.
  intros r o1 Hr. exists o1. split; [apply lookup_app_l_Some, Hr | apply obj_evolves_refl].
Qed.

Lemma heap_evolves_insert h r o o' :
  h !! r = Some o -> obj_evolves o o' -> heap_evolves h (<[r := o']> h).
Proof.
  intros Hr Ho r1 o1 Hr1. destruct (decide (r = r1)) as [<-|Hne].
  - rewrite Hr in Hr1. injection Hr1 as <-. exists o'. split; [|exact Ho].
    apply list_lookup_insert_eq. eapply lookup_lt_Some, Hr.
  - exists o1. rewrite list_lookup_insert_ne by exact Hne.
    split; [exact Hr1 | apply obj_evolves_refl].
Qed.

Lemma heap_evolves_length h h' : heap_evolves h h' -> (length h <= length h')%nat.
Proof.
  intros He. destruct (decide (length h = 0)%nat) as [Hz|Hnz]; [lia|].
  destruct (lookup_lt_is_Some_2 h (length h - 1)) as [o Ho]; [lia|].
  destruct (He _ _ Ho) as (o' & Ho' & _).
  apply lookup_lt_Some in Ho'. lia.
Qed.

Lemma is_Morpheme_evolves h h' v : heap_evolves h h' -> is_Morpheme h v -> is_Morpheme h' v.
Proof.
  intros He (r & m & -> & Hr). destruct (He _ _ Hr) as (o' & Hr' & Ho).
  destruct o'; simpl in Ho; try contradiction. eexists r, _. eauto.
Qed.

Lemma Morpheme_entities_evolves h h' m x :
  heap_evolves h h' -> x ∈ Morpheme_entities h m -> x ∈ Morpheme_entities h' m.
Proof.
  intros He. unfold Morpheme_entities. destruct m as [| | | | |r]; auto.
  destruct (h !! r) as [o|] eqn:Hr; [|intros H; inversion H].
  destruct (He _ _ Hr) as (o' & -> & Ho).
  destruct o, o'; simpl in Ho; try contradiction; try (intros H; inversion H; fail).
  destruct Ho as (_ & _ & Hsub). apply Hsub.
Qed.

(** Indexing a Sentence or a Word reads frozen items only. *)
Lemma index_pure x name h v h1 : index x name h = Ok v h1 -> h1 = h.
Proof.
  unfold index. destruct x as [| | | | |r]; try discriminate.
  destruct (h !! r) as [[| | | | | |]|]; try discriminate; intros [= _ <-]; reflexivity.
Qed.

Lemma index_evolves x name h v h' :
  heap_evolves h h' -> index x name h = Ok v h -> index x name h' = Ok v h'.
Proof.
  intros He. unfold index. destruct x as [| | | | |r]; try discriminate.
  destruct (h !! r) as [o|] eqn:Hr; [|discriminate].
  destruct (He _ _ Hr) as (o' & -> & Ho).
  destruct o, o'; simpl in Ho; try contradiction; try discriminate.
  - rewrite Ho. intros [= <-]. reflexivity.
  - destruct Ho as [-> _]. intros [= <-]. reflexivity.
Qed.

Lemma _getMorph_pure this jm h v h1 : _getMorph this jm h = Ok v h1 -> h1 = h.
Proof.
  unfold _getMorph. intros H. apply bind_Ok in H as (w & h2 & Hw & Hm).
  apply index_pure in Hw as ->. apply index_pure in Hm. exact Hm.
Qed.

Lemma _getMorph_evolves this jm h v h' :
  heap_evolves h h' -> _getMorph this jm h = Ok v h -> _getMorph this jm h' = Ok v h'.
Proof.
  intros He H. unfold _getMorph in *. apply bind_Ok in H as (w & h2 & Hw & Hm).
  assert (h2 = h) as -> by (eapply index_pure, Hw).
  rewrite (bind_Ok_intro _ _ _ _ _ (index_evolves _ _ _ _ _ He Hw)).
  eapply index_evolves; eassumption.
Qed.

Lemma mapM_getMorph_pure this l : forall h vs h1,
  mapM (_getMorph this) l h = Ok vs h1 -> h1 = h.
Proof.
  induction l as [|jm l IH]; intros h vs h1 H; simpl in H.
  - injection H as <- <-. reflexivity.
  - apply bind_Ok in H as (v & h2 & Hv & H). apply _getMorph_pure in Hv as ->.
    apply bind_Ok in H as (vs' & h3 & Hvs & H). apply IH in Hvs as ->.
    injection H as <- <-. reflexivity.
Qed.

Lemma mapM_getMorph_evolves this l : forall h vs h',
  heap_evolves h h' ->
  mapM (_getMorph this) l h = Ok vs h -> mapM (_getMorph this) l h' = Ok vs h'.
Proof.
  induction l as [|jm l IH]; intros h vs h' He H; simpl in *.
  - injection H as <-. reflexivity.
  - apply bind_Ok in H as (v & h2 & Hv & H).
    assert (h2 = h) as -> by (eapply _getMorph_pure, Hv).
    apply bind_Ok in H as (vs' & h3 & Hvs & H).
    assert (h3 = h) as -> by (eapply mapM_getMorph_pure, Hvs).
    injection H as <-.
    rewrite (bind_Ok_intro _ _ _ _ _ (_getMorph_evolves _ _ _ _ _ He Hv)).
    rewrite (bind_Ok_intro _ _ _ _ _ (IH _ _ _ He Hvs)). reflexivity.
Qed.

Lemma mapM_getMorph_lookup this l : forall h vs (i : nat) jm,
  mapM (_getMorph this) l h = Ok vs h -> l !! i = Some jm ->
  exists v, vs !! i = Some v /\ _getMorph this jm h = Ok v h.
Proof.
  induction l as [|jm0 l IH]; intros h vs i jm H Hi; simpl in *.
  - rewrite lookup_nil in Hi. discriminate.
  - apply bind_Ok in H as (v & h2 & Hv & H).
    assert (h2 = h) as -> by (eapply _getMorph_pure, Hv).
    apply bind_Ok in H as (vs' & h3 & Hvs & H).
    assert (h3 = h) as -> by (eapply mapM_getMorph_pure, Hvs).
    injection H as <-.
    destruct i as [|i]; simpl in *.
    + injection Hi as <-. eauto.
    + eapply IH; eassumption.
Qed.

Lemma entity_image_evolves this h h' e E :
  heap_evolves h h' -> entity_image this h e E -> entity_image this h' e E.
Proof.
  intros He (r & ent & -> & Hr & Hms & Hlabel & Hfine & Hall).
  destruct (He _ _ Hr) as (o' & Hr' & Ho).
  destruct o' as [| |ent'| | | |]; simpl in Ho; try contradiction.
  destruct Ho as (Hitems & Hl & Hf).
  exists r, ent'. split; [reflexivity|]. split; [exact Hr'|].
  rewrite <- Hitems, <- Hl, <- Hf.
  split; [eapply mapM_getMorph_evolves; eassumption|].
  split; [exact Hlabel|]. split; [exact Hfine|].
  eapply Forall_impl; [|exact Hall]. intros m [Hm Hin]. split.
  - eapply is_Morpheme_evolves; eassumption.
  - eapply Morpheme_entities_evolves; eassumption.
Qed.

Lemma Morpheme_push_entities_inv morph x h u h' :
  Morpheme_push_entities morph x h = Ok u h' ->
  heap_evolves h h' /\ x ∈ Morpheme_entities h' morph.
Proof.
  unfold Morpheme_push_entities. destruct morph as [| | | | |r]; try discriminate.
  destruct (h !! r) as [[m| | | | | |]|] eqn:Hr; try discriminate.
  intros [= <- <-]. split.
  - eapply heap_evolves_insert; [exact Hr|]. simpl.
    split; [reflexivity|]. split; [reflexivity|].
    intros y Hy. apply elem_of_app. auto.
  - unfold Morpheme_entities.
    rewrite list_lookup_insert_eq by (eapply lookup_lt_Some, Hr). simpl.
    apply elem_of_app. right. apply list_elem_of_singleton. reflexivity.
Qed.

Lemma Entity_push_loop x l : forall h h',
  forM (fun morph => Morpheme_push_entities morph x) l h = Ok tt h' ->
  heap_evolves h h' /\ Forall (fun m => x ∈ Morpheme_entities h' m) l.
Proof.
  induction l as [|m l IH]; intros h h' H; simpl in H.
  - injection H as <-. split; [apply heap_evolves_refl | constructor].
  - apply bind_Ok in H as ([] & h1 & Hpush & Hrest).
    apply Morpheme_push_entities_inv in Hpush as [He1 Hin].
    apply IH in Hrest as [He2 Hall].
    split; [eapply heap_evolves_trans; eassumption|].
    constructor; [|exact Hall].
    eapply Morpheme_entities_evolves; eassumption.
Qed.

(** What a returning [new Entity(...)] has done. *)
Lemma Entity_new_inv surface label fineLabel morphemes originalLabel h E h' :
  Entity_new surface label fineLabel morphemes originalLabel h = Ok E h' ->
  E = VObj (length h) /\ heap_evolves h h'
  /\ (exists ent, h' !! length h = Some (OEntity ent)
                  /\ entity_items ent = morphemes
                  /\ entity_label ent = tagname_if CoarseEntityType label
                  /\ entity_fineLabel ent = fineLabel)
  /\ Forall (fun m => is_Morpheme h' m /\ E ∈ Morpheme_entities h' m) morphemes.
Proof.
  unfold Entity_new. intros H.
  apply bind_Ok in H as ([] & h1 & Hm & H). apply typeCheck_Ok_same in Hm as [-> Hm].
  apply bind_Ok in H as ([] & h1 & H1 & H). apply typeCheck_Ok_same in H1 as [-> _].
  apply bind_Ok in H as ([] & h1 & H1 & H). apply typeCheck_Ok_same in H1 as [-> _].
  apply bind_Ok in H as ([] & h1 & H1 & H). apply typeCheck_Ok_same in H1 as [-> _].
  apply bind_Ok in H as (this & h1 & Halloc & H).
  unfold alloc in Halloc. injection Halloc as <- <-.
  apply bind_Ok in H as ([] & h2 & Hloop & H). injection H as <- <-.
  apply typeCheck_Morphemes in Hm.
  apply Entity_push_loop in Hloop as [He Hall].
  assert (He' : heap_evolves h h2)
    by (eapply heap_evolves_trans; [apply heap_evolves_alloc | exact He]).
  split; [reflexivity|]. split; [exact He'|]. split.
  - destruct (He (length h) _ (list_lookup_middle h [] _ _ eq_refl)) as (o' & Hr' & Ho).
    destruct o' as [| |ent'| | | |]; simpl in Ho; try contradiction.
    destruct Ho as (Hitems & Hl & Hf). exists ent'. auto.
  - rewrite Forall_forall in Hm, Hall |- *. intros m Hin. split.
    + eapply is_Morpheme_evolves; [exact He' | apply Hm, Hin].
    + apply Hall, Hin.
Qed.

Lemma _getEntity_inv this e h E h' :
  _getEntity this e h = Ok E h' ->
  E = VObj (length h) /\ heap_evolves h h' /\ entity_image this h' e E.
Proof.
  unfold _getEntity. intros H.
  apply bind_Ok in H as (ms & h1 & Hms & H).
  assert (h1 = h) as -> by (eapply mapM_getMorph_pure, Hms).
  apply Entity_new_inv in H as (-> & He & (ent & Hr & Hitems & Hl & Hf) & Hall).
  split; [reflexivity|]. split; [exact He|].
  exists (length h), ent. rewrite Hitems.
  split; [reflexivity|]. split; [exact Hr|].
  split; [eapply mapM_getMorph_evolves; eassumption|]. auto.
Qed.

Lemma Entity_assign_corefGroup_evolves entity newValue h u h' :
  Entity_assign_corefGroup entity newValue h = Ok u h' -> heap_evolves h h'.
Proof.
  unfold Entity_assign_corefGroup, run_cell_set.
  destruct entity as [| | | | |r]; try discriminate.
  destruct (h !! r) as [[| |ent| | | |]|] eqn:Hr; try discriminate.
  destruct (cell_set _ _); [discriminate|]. intros [= <- <-].
  eapply heap_evolves_insert; [exact Hr|]. simpl. auto.
Qed.

Lemma corefGroup_loop_evolves this l : forall h h',
  forM (fun entity => Entity_assign_corefGroup entity this) l h = Ok tt h' ->
  heap_evolves h h'.
Proof.
  induction l as [|x l IH]; intros h h' Hloop; simpl in Hloop.
  - injection Hloop as <-. apply heap_evolves_refl.
  - apply bind_Ok in Hloop as ([] & h1 & Hstep & Hrest).
    eapply heap_evolves_trans; [eapply Entity_assign_corefGroup_evolves, Hstep|].
    apply IH, Hrest.
Qed.

Lemma CoreferenceGroup_new_evolves entities h g h' :
  CoreferenceGroup_new entities h = Ok g h' -> heap_evolves h h'.
Proof.
  unfold CoreferenceGroup_new. intros H.
  apply bind_Ok in H as ([] & h1 & H1 & H). apply typeCheck_Ok_same in H1 as [-> _].
  apply bind_Ok in H as (this & h1 & Halloc & H).
  unfold alloc in Halloc. injection Halloc as <- <-.
  apply bind_Ok in H as ([] & h2 & Hloop & H). injection H as <- <-.
  apply corefGroup_loop_evolves in Hloop.
  eapply heap_evolves_trans; [apply heap_evolves_alloc | exact Hloop].
Qed.

Lemma Sentence_assign_entities_evolves this newValue h u h' :
  Sentence_assign_list "entities" sent_entities set_sent_entities this newValue h = Ok u h' ->
  heap_evolves h h'.
Proof.
  unfold Sentence_assign_list. destruct this as [| | | | |r]; try discriminate.
  destruct (h !! r) as [[| | | | | |s]|] eqn:Hr; try discriminate.
  destruct (decide (0 < length (sent_entities s))%nat) as [|Hempty]; [discriminate|].
  intros [= <- <-]. eapply heap_evolves_insert; [exact Hr|]. simpl.
  split; [reflexivity|]. intros Hne. destruct (sent_entities s); [congruence | simpl in Hempty; lia].
Qed.

Lemma Sentence_assign_corefGroups_evolves this newValue h u h' :
  Sentence_assign_list "corefGroups" sent_corefGroups set_sent_corefGroups this newValue h
    = Ok u h' ->
  heap_evolves h h'.
Proof.
  unfold Sentence_assign_list. destruct this as [| | | | |r]; try discriminate.
  destruct (h !! r) as [[| | | | | |s]|] eqn:Hr; try discriminate.
  destruct (decide (0 < length (sent_corefGroups s))%nat); [discriminate|].
  intros [= <- <-]. eapply heap_evolves_insert; [exact Hr|]. simpl. auto.
Qed.

Lemma Word_assign_id_evolves word newValue h u h' :
  Word_assign_id word newValue h = Ok u h' -> heap_evolves h h'.
Proof.
  unfold Word_assign_id, run_cell_set.
  destruct word as [| | | | |r]; try discriminate.
  destruct (h !! r) as [[|w| | | | |]|] eqn:Hr; try discriminate.
  destruct (cell_set _ _); [discriminate|]. intros [= <- <-].
  eapply heap_evolves_insert; [exact Hr|]. reflexivity.
Qed.

Lemma Word_id_loop_evolves l : forall k h h',
  forM_entries (fun i word => Word_assign_id word (VNum i)) k l h = Ok tt h' ->
  heap_evolves h h'.
Proof.
  induction l as [|w l IH]; intros k h h' H; simpl in H.
  - injection H as <-. apply heap_evolves_refl.
  - apply bind_Ok in H as ([] & h1 & Hstep & Hrest).
    eapply heap_evolves_trans; [eapply Word_assign_id_evolves, Hstep | eapply IH, Hrest].
Qed.

(** An invariant carried through [array.map] with an effectful callback. *)
Lemma mapM_invariant {A B} (f : A -> M B) (P : heap -> A -> B -> Prop) (h0 : heap) :
  (forall h h' a b, heap_evolves h h' -> P h a b -> P h' a b) ->
  (forall a h b h', heap_evolves h0 h -> f a h = Ok b h' -> heap_evolves h h' /\ P h' a b) ->
  forall l h bs h', heap_evolves h0 h -> mapM f l h = Ok bs h' ->
    heap_evolves h h' /\ Forall2 (P h') l bs.
Proof.
  intros Hmono Hstep. induction l as [|a l IH]; intros h bs h' H0 H; simpl in H.
  - injection H as <- <-. split; [apply heap_evolves_refl | constructor].
  - apply bind_Ok in H as (b & h1 & Hb & H).
    apply bind_Ok in H as (bs' & h2 & Hbs & H). injection H as <- <-.
    destruct (Hstep _ _ _ _ H0 Hb) as [He1 Pa].
    destruct (IH h1 bs' h2) as [He2 Hall]; [eapply heap_evolves_trans; eassumption|exact Hbs|].
    split; [eapply heap_evolves_trans; eassumption|].
    constructor; [eapply Hmono; eassumption | exact Hall].
Qed.

Lemma Forall2_ignore_right {A B} (P : A -> Prop) (l : list A) (bs : list B) :
  Forall2 (fun a _ => P a) l bs -> Forall P l.
Proof. induction 1; constructor; assumption. Qed.

Lemma Forall2_elem_left {A B} (P : A -> B -> Prop) (l : list A) (bs : list B) a :
  Forall2 P l bs -> a ∈ l -> exists b, b ∈ bs /\ P a b.
Proof.
  induction 1 as [|x y l bs Hxy _ IH]; intros Hin; [inversion Hin|].
  apply elem_of_cons in Hin as [->|Hin].
  - exists y. split; [apply elem_of_cons; auto | exact Hxy].
  - destruct (IH Hin) as (b & Hb & Hab). exists b. split; [apply elem_of_cons; auto | exact Hab].
Qed.

Lemma Forall2_elem_right {A B} (P : A -> B -> Prop) (l : list A) (bs : list B) b :
  Forall2 P l bs -> b ∈ bs -> exists a, a ∈ l /\ P a b.
Proof.
  induction 1 as [|x y l bs Hxy _ IH]; intros Hin; [inversion Hin|].
  apply elem_of_cons in Hin as [->|Hin].
  - exists x. split; [apply elem_of_cons; auto | exact Hxy].
  - destruct (IH Hin) as (a & Ha & Hab). exists a. split; [apply elem_of_cons; auto | exact Hab].
Qed.

Lemma JTree_ind (P : JTree -> Prop) :
  (forall label terminal nonTerminals originalLabel,
      Forall P nonTerminals -> P (JTreeNode label terminal nonTerminals originalLabel)) ->
  forall t, P t.
Proof.
  intros Hnode. fix IH 1. intros [label terminal nonTerminals originalLabel].
  apply Hnode. induction nonTerminals as [|c cs IHcs]; constructor; [apply IH | exact IHcs].
Qed.

(** [_reconSyntaxTree] never returns: a leaf passes [children: undefined] to
    [new SyntaxTree], whose [super(value)] runs [typeCheck] on it before the
    default [[]] is put in. *)
Lemma _reconSyntaxTree_throws this jtree h :
  exists e h', _reconSyntaxTree this jtree h = Throw e h'.
Proof.
  revert h. induction jtree as [label terminal nonTerminals originalLabel IH] using JTree_ind.
  intros h. simpl.
  set (getTerm := match terminal with Some id => _getWord this (Some id) | None => ret VUndefined end).
  destruct (getTerm h) as [term h1|e h1] eqn:Hterm.
  2:{ rewrite (bind_Throw_intro _ _ _ _ _ Hterm). eauto. }
  rewrite (bind_Ok_intro _ _ _ _ _ Hterm).
  destruct nonTerminals as [|c cs].
  - rewrite (bind_Ok_intro _ _ h1 None h1) by reflexivity.
    unfold SyntaxTree_new, Tree_super.
    eexists _, _. apply bind_Throw_intro. reflexivity.
  - inversion IH as [|? ? Hc _]; subst.
    destruct (Hc h1) as (e & h2 & Hthrow).
    eexists e, h2. apply bind_Throw_intro. apply bind_Throw_intro.
    simpl. apply bind_Throw_intro. exact Hthrow.
Qed.

(** Neither does [_getDepEdge]: the object literal it passes to
    [new DepEdge] has no [dest] when [super(value)] checks it. *)
Lemma _getDepEdge_throws this e h : exists err h', _getDepEdge this e h = Throw err h'.
Proof.
  unfold _getDepEdge.
  destruct (_getWord this (jd_governor e) h) as [governor h1|err h1] eqn:Hg.
  2:{ rewrite (bind_Throw_intro _ _ _ _ _ Hg). eauto. }
  rewrite (bind_Ok_intro _ _ _ _ _ Hg).
  destruct (_getWord this (jd_dependent e) h1) as [dependent h2|err h2] eqn:Hd.
  2:{ rewrite (bind_Throw_intro _ _ _ _ _ Hd). eauto. }
  rewrite (bind_Ok_intro _ _ _ _ _ Hd).
  unfold DepEdge_new. eexists _, _. apply bind_Throw_intro. reflexivity.
Qed.

Lemma mapM_throwing {A B} (f : A -> M B) l h bs h' :
  (forall a h, exists e h', f a h = Throw e h') -> mapM f l h = Ok bs h' -> l = [].
Proof.
  intros Hf H. destruct l as [|a l]; [reflexivity|]. simpl in H.
  destruct (Hf a h) as (e & h1 & Hthrow).
  rewrite (bind_Throw_intro _ _ _ _ _ Hthrow) in H. discriminate.
Qed.

Lemma is_Word_evolves h h' v : heap_evolves h h' -> is_Word h v -> is_Word h' v.
Proof.
  intros He (r & w & -> & Hr). destruct (He _ _ Hr) as (o' & Hr' & Ho).
  destruct o'; simpl in Ho; try contradiction. eexists r, _. eauto.
Qed.

Lemma _getWord_pure this jword h v h1 : _getWord this jword h = Ok v h1 -> h1 = h.
Proof.
  unfold _getWord. destruct jword; [apply index_pure | intros [= _ <-]; reflexivity].
Qed.

Lemma mapM_getWord_pure this l : forall h vs h1,
  mapM (_getWord this) l h = Ok vs h1 -> h1 = h.
Proof.
  induction l as [|jw l IH]; intros h vs h1 H; simpl in H.
  - injection H as <- <-. reflexivity.
  - apply bind_Ok in H as (v & h2 & Hv & H). apply _getWord_pure in Hv as ->.
    apply bind_Ok in H as (vs' & h3 & Hvs & H). apply IH in Hvs as ->.
    injection H as <- <-. reflexivity.
Qed.

Lemma Word_push_evolves field store word x h u h' :
  (forall l w, word_items (store l w) = word_items w) ->
  Word_push field store word x h = Ok u h' -> heap_evolves h h'.
Proof.
  intros Hstore H. apply Word_push_Ok_inv in H as (r & w & -> & Hr & ->).
  eapply heap_evolves_insert; [exact Hr|]. simpl. symmetry. apply Hstore.
Qed.

Lemma RoleEdge_new_evolves predicate argument label modifiers originalLabel h e h' :
  RoleEdge_new predicate argument label modifiers originalLabel h = Ok e h' ->
  heap_evolves h h'.
Proof.
  intros H.
  pose proof (RoleEdge_new_Ok_inv _ _ _ _ _ _ _ _ H) as (_ & _ & _ & Hp & Ha).
  unfold RoleEdge_new in H.
  apply bind_Ok in H as ([] & h1 & H1 & H). apply typeCheck_Ok_same in H1 as [-> _].
  apply bind_Ok in H as ([] & h1 & H1 & H). apply typeCheck_Ok_same in H1 as [-> _].
  apply bind_Ok in H as ([] & h1 & H1 & H). apply typeCheck_Ok_same in H1 as [-> _].
  rewrite (is_Word_defined _ _ Hp), (is_Word_defined _ _ Ha) in H.
  apply bind_Ok in H as ([] & h1 & H1 & H). injection H1 as <-.
  apply bind_Ok in H as ([] & h1 & H1 & H). apply DAGEdge_super_inv in H1 as (-> & _ & _).
  apply bind_Ok in H as (this & h1 & Halloc & H).
  unfold alloc in Halloc. injection Halloc as <- <-.
  apply bind_Ok in H as ([] & h2 & Hpush1 & H).
  apply bind_Ok in H as ([] & h3 & Hpush2 & H).
  injection H as <- <-.
  eapply heap_evolves_trans; [apply heap_evolves_alloc|].
  eapply heap_evolves_trans.
  - eapply Word_push_evolves; [|exact Hpush1]. reflexivity.
  - eapply Word_push_evolves; [|exact Hpush2]. reflexivity.
Qed.

Lemma _getRole_evolves this e h edge h' : _getRole this e h = Ok edge h' -> heap_evolves h h'.
Proof.
  unfold _getRole. intros H.
  apply bind_Ok in H as (p & h1 & Hp & H). apply _getWord_pure in Hp as ->.
  apply bind_Ok in H as (a & h1 & Ha & H). apply _getWord_pure in Ha as ->.
  apply bind_Ok in H as (ms & h1 & Hms & H). apply mapM_getWord_pure in Hms as ->.
  eapply RoleEdge_new_evolves, H.
Qed.

Lemma Sentence_assign_syntaxTree_evolves this newValue h u h' :
  Sentence_assign_syntaxTree this newValue h = Ok u h' -> heap_evolves h h'.
Proof.
  unfold Sentence_assign_syntaxTree, run_cell_set.
  destruct this as [| | | | |r]; try discriminate.
  destruct (h !! r) as [[| | | | | |s]|] eqn:Hr; try discriminate.
  destruct (sent_syntaxTree s) as [v|c].
  - intros [= <- <-]. eapply heap_evolves_insert; [exact Hr|]. simpl. auto.
  - destruct (cell_set c newValue); [discriminate|]. intros [= <- <-].
    eapply heap_evolves_insert; [exact Hr|]. simpl. auto.
Qed.

Lemma Sentence_assign_dependencies_evolves this newValue h u h' :
  Sentence_assign_list "dependencies" sent_dependencies set_sent_dependencies this newValue h
    = Ok u h' ->
  heap_evolves h h'.
Proof.
  unfold Sentence_assign_list. destruct this as [| | | | |r]; try discriminate.
  destruct (h !! r) as [[| | | | | |s]|] eqn:Hr; try discriminate.
  destruct (decide (0 < length (sent_dependencies s))%nat); [discriminate|].
  intros [= <- <-]. eapply heap_evolves_insert; [exact Hr|]. simpl. auto.
Qed.

Lemma Sentence_assign_roles_evolves this newValue h u h' :
  Sentence_assign_list "roles" sent_roles set_sent_roles this newValue h = Ok u h' ->
  heap_evolves h h'.
Proof.
  unfold Sentence_assign_list. destruct this as [| | | | |r]; try discriminate.
  destruct (h !! r) as [[| | | | | |s]|] eqn:Hr; try discriminate.
  destruct (decide (0 < length (sent_roles s))%nat); [discriminate|].
  intros [= <- <-]. eapply heap_evolves_insert; [exact Hr|]. simpl. auto.
Qed.

Lemma throwaway_image_evolves this n0 h h' e :
  heap_evolves h h' -> throwaway_image this n0 h e -> throwaway_image this n0 h' e.
Proof.
  intros He (R & Hn & HR). exists R. split; [exact Hn|].
  eapply entity_image_evolves; eassumption.
Qed.

(** [_getCorefGroup] builds one throwaway Entity per entry of the group. *)
Lemma _getCorefGroup_inv this h0 c h g h' :
  heap_evolves h0 h -> _getCorefGroup this c h = Ok g h' ->
  heap_evolves h h' /\ Forall (throwaway_image this (length h0) h') c.
Proof.
  intros H0 H. unfold _getCorefGroup in H.
  apply bind_Ok in H as (entities & h1 & Hmap & Hnew).
  apply (mapM_invariant _ (fun h e _ => throwaway_image this (length h0) h e) h0)
    in Hmap as [He1 Hall];
    [| intros; eapply throwaway_image_evolves; eassumption | | exact H0].
  - apply Forall2_ignore_right in Hall.
    apply CoreferenceGroup_new_evolves in Hnew.
    split; [eapply heap_evolves_trans; eassumption|].
    eapply Forall_impl; [|exact Hall].
    intros e He. eapply throwaway_image_evolves; eassumption.
  - intros e h2 y h3 H02 Hstep.
    apply bind_Ok in Hstep as (R & h4 & HR & Hfind). injection Hfind as _ <-.
    apply _getEntity_inv in HR as (-> & He & Himg).
    split; [exact He|]. exists (VObj (length h2)). split; [|exact Himg].
    simpl. apply heap_evolves_length, H02.
Qed.

Lemma fold_left_push_new (l : list value) : forall (acc : list value) x,
  x ∈ fold_left (fun result entity =>
        if bool_decide (entity ∈ result) then result else result ++ [entity]) l acc
  <-> x ∈ acc \/ x ∈ l.
Proof.
  induction l as [|y l IH]; intros acc x; simpl.
  - split; [auto | intros [H|H]; [exact H | inversion H]].
  - rewrite IH, elem_of_cons. destruct (bool_decide (y ∈ acc)) eqn:Hy.
    + apply bool_decide_eq_true in Hy. split.
      * intros [H|H]; auto.
      * intros [H|[->|H]]; auto.
    + rewrite elem_of_app, list_elem_of_singleton. split.
      * intros [[H|H]|H]; auto.
      * intros [H|[H|H]]; auto.
Qed.

Lemma Word_entities_elem h word x :
  x ∈ Word_entities h word
  <-> exists m, m ∈ Word_items h word /\ x ∈ Morpheme_entities h m.
Proof.
  unfold Word_entities.
  assert (Hgen : forall l acc,
    x ∈ fold_left (fun result morpheme =>
          fold_left (fun result entity =>
              if bool_decide (entity ∈ result) then result else result ++ [entity])
            (Morpheme_entities h morpheme) result) l acc
    <-> x ∈ acc \/ exists m, m ∈ l /\ x ∈ Morpheme_entities h m).
  { induction l as [|m l IH]; intros acc; simpl.
    - split; [auto | intros [H|(m & H & _)]; [exact H | inversion H]].
    - rewrite IH, fold_left_push_new. split.
      + intros [[H|H]|(m' & Hm' & H)]; [auto| |].
        * right. exists m. split; [apply elem_of_cons; auto | exact H].
        * right. exists m'. split; [apply elem_of_cons; auto | exact H].
      + intros [H|(m' & Hm' & H)]; [auto|].
        apply elem_of_cons in Hm' as [->|Hm']; [auto|].
        right. exists m'. auto. }
  rewrite Hgen. split.
  - intros [H|H]; [inversion H | exact H].
  - auto.
Qed.

Lemma Morpheme_equals_refl h m : is_Morpheme h m -> Morpheme_equals h m m = true.
Proof.
  intros (r & mo & -> & Hr). unfold Morpheme_equals. rewrite Hr.
  rewrite !bool_decide_eq_true_2 by reflexivity. reflexivity.
Qed.

Lemma ImmutableArray_equals_refl h items :
  Forall (is_Morpheme h) items -> ImmutableArray_equals (Morpheme_equals h) items items = true.
Proof.
  intros Hall. unfold ImmutableArray_equals.
  rewrite bool_decide_eq_true_2 by reflexivity. simpl.
  induction Hall as [|m l Hm _ IH]; simpl; [reflexivity|].
  rewrite Morpheme_equals_refl by exact Hm. exact IH.
Qed.

(** Two images of one native entity in one store are value-equal and sit on
    the [entities] lists of the same Morphemes. *)
Lemma entity_images_equal this h e E R :
  entity_image this h e E -> entity_image this h e R ->
  Entity_equals h E R = true
  /\ forall (i : nat) jm, je_morphemes e !! i = Some jm ->
       exists m, _getMorph this jm h = Ok m h /\ is_Morpheme h m
                 /\ E ∈ Morpheme_entities h m /\ R ∈ Morpheme_entities h m.
Proof.
  intros (rE & entE & -> & HrE & HmsE & HlE & HfE & HallE)
         (rR & entR & -> & HrR & HmsR & HlR & HfR & HallR).
  assert (Hitems : entity_items entR = entity_items entE) by congruence.
  split.
  - unfold Entity_equals. rewrite HrE, HrR.
    rewrite !bool_decide_eq_true_2 by congruence. simpl.
    rewrite Hitems. apply ImmutableArray_equals_refl.
    eapply Forall_impl; [|exact HallE]. intros m [Hm _]. exact Hm.
  - intros i jm Hi.
    destruct (mapM_getMorph_lookup _ _ _ _ _ _ HmsE Hi) as (m & Hm & Hget).
    exists m. split; [exact Hget|].
    rewrite Hitems in HallR. rewrite Forall_forall in HallE, HallR.
    assert (Hin : In m (entity_items entE))
      by (apply list_elem_of_In, list_elem_of_lookup; eauto).
    destruct (HallE m Hin) as [Him HE]. destruct (HallR m Hin) as [_ HR]. auto.
Qed.

Lemma proxy_index_elem items name r :
  proxy_index items name = VObj r -> VObj r ∈ items.
Proof.
  unfold proxy_index.
  set (i := if decide (0 <= name) then name else Z.of_nat (length items) + name).
  destruct (decide (0 <= i)); [|discriminate].
  destruct (items !! Z.to_nat i) as [v|] eqn:Hv; simpl; [|discriminate].
  intros ->. apply list_elem_of_lookup. eauto.
Qed.

Lemma entity_image_address this h e E :
  entity_image this h e E -> E = VObj (address E) /\ (address E < length h)%nat.
Proof.
  intros (r & ent & -> & Hr & _). split; [reflexivity|]. simpl. eapply lookup_lt_Some, Hr.
Qed.

Lemma Sentence_entities_evolves h h' this :
  heap_evolves h h' -> Sentence_entities h this ≠ [] ->
  Sentence_entities h' this = Sentence_entities h this.
Proof.
  intros He. unfold Sentence_entities. destruct this as [| | | | |r]; try congruence.
  destruct (h !! r) as [o|] eqn:Hr; [|congruence].
  destruct (He _ _ Hr) as (o' & -> & Ho).
  destruct o, o'; simpl in Ho; try contradiction; try congruence.
  destruct Ho as [_ Hkeep]. exact Hkeep.
Qed.

Lemma Sentence_assign_entities_inv this newValue h u h' :
  Sentence_assign_list "entities" sent_entities set_sent_entities this newValue h = Ok u h' ->
  Sentence_entities h' this = newValue.
Proof.
  unfold Sentence_assign_list. destruct this as [| | | | |r]; try discriminate.
  destruct (h !! r) as [[| | | | | |s]|] eqn:Hr; try discriminate.
  destruct (decide (0 < length (sent_entities s))%nat); [discriminate|].
  intros [= <- <-]. unfold Sentence_entities.
  rewrite list_lookup_insert_eq by (eapply lookup_lt_Some, Hr). reflexivity.
Qed.

Lemma index_Sentence h r s name v h1 :
  h !! r = Some (OSentence s) -> index (VObj r) name h = Ok v h1 ->
  v = proxy_index (sent_items s) name.
Proof. unfold index. intros ->. intros [= <- _]. reflexivity. Qed.

Lemma index_Word h r w name v h1 :
  h !! r = Some (OWord w) -> index (VObj r) name h = Ok v h1 ->
  v = proxy_index (word_items w) name.
Proof. unfold index. intros ->. intros [= <- _]. reflexivity. Qed.

Lemma index_undefined name h : exists e, index VUndefined name h = Throw e h.
Proof. eexists. reflexivity. Qed.

(** C10.  Reconstructing a Sentence from a native sentence: for a native
    entity [e] of the sentence that a coreference group refers to, every
    morpheme that [e] covers ends up with two distinct Entity objects on its
    [entities] list that are equal by [Entity.equals]: the one reconstructed
    for the sentence's entity list, [E], and the one built only to be matched
    against that list, [R], which is not on the sentence's entity list.  The
    Word holding the morpheme reports both in [Word.entities]. *)
Theorem coref_reconstruction_duplicates_entities (jsent : JSentence) (h0 : heap)
    (this : value) (h' : heap) (c : list JEntity) (e : JEntity) (i : nat) (jm : JMorphRef) :
  Sentence_reconstruct jsent h0 = Ok this h' ->
  c ∈ js_corefGroups jsent -> e ∈ c -> e ∈ js_entities jsent ->
  je_morphemes e !! i = Some jm ->
  exists word m E R,
    index this (jmr_word jm) h' = Ok word h'
    /\ index word (jmr_id jm) h' = Ok m h'
    /\ is_Word h' word /\ is_Morpheme h' m /\ m ∈ Word_items h' word
    /\ E ≠ R
    /\ E ∈ Sentence_entities h' this /\ (R ∉ Sentence_entities h' this)
    /\ E ∈ Morpheme_entities h' m /\ R ∈ Morpheme_entities h' m
    /\ Entity_equals h' E R = true
    /\ E ∈ Word_entities h' word /\ R ∈ Word_entities h' word.
Proof.
  intros H Hc He Hents Hjm. unfold Sentence_reconstruct in H.
  apply bind_Ok in H as (words & h1 & Hwords & H).
  apply bind_Ok in H as ([] & h1' & Htc & H). apply typeCheck_Ok_same in Htc as [-> Htc].
  apply typeCheck_Words in Htc.
  apply bind_Ok in H as (r & h2 & Halloc & H).
  unfold alloc in Halloc. injection Halloc as <- <-.
  set (sent := {| sent_items := words;
                  sent_syntaxTree := Accessor (writeonlyonce VUndefined "syntaxTree");
                  sent_dependencies := []; sent_roles := [];
                  sent_entities := []; sent_corefGroups := [] |}) in *.
  set (h2 := h1 ++ [OSentence sent]) in *.
  assert (Hsent2 : h2 !! length h1 = Some (OSentence sent))
    by (apply list_lookup_middle; reflexivity).
  apply bind_Ok in H as (tree & h3 & Htree & H).
  destruct (js_syntaxTree jsent) as [jtree|].
  { destruct (_reconSyntaxTree_throws (VObj (length h1)) jtree h2) as (err & h3' & Hthrow).
    rewrite Hthrow in Htree. discriminate. }
  injection Htree as <- <-.
  apply bind_Ok in H as ([] & h4 & Hat & H). apply Sentence_assign_syntaxTree_evolves in Hat.
  apply bind_Ok in H as (deps & h5 & Hdeps & H).
  pose proof (mapM_throwing _ _ _ _ _ (_getDepEdge_throws _) Hdeps) as Hnil.
  rewrite Hnil in Hdeps. injection Hdeps as <- <-.
  apply bind_Ok in H as ([] & h6 & Had & H).
  apply Sentence_assign_dependencies_evolves in Had.
  apply bind_Ok in H as (roles & h7 & Hroles & H).
  apply (mapM_invariant _ (fun _ _ _ => True) h6) in Hroles as [Her _];
    [| auto | intros a h b hb _ Hstep; split; [eapply _getRole_evolves, Hstep | exact I]
     | apply heap_evolves_refl].
  apply bind_Ok in H as ([] & h8 & Har & H). apply Sentence_assign_roles_evolves in Har.
  apply bind_Ok in H as (ents & h9 & Hmap & H).
  apply (mapM_invariant _ (fun h e E => entity_image (VObj (length h1)) h e E) h8)
    in Hmap as [Hee Himgs];
    [| intros; eapply entity_image_evolves; eassumption
     | intros a h b hb _ Hstep; apply _getEntity_inv in Hstep as (_ & Hev & Himg); auto
     | apply heap_evolves_refl].
  apply bind_Ok in H as ([] & h10 & Hae & H).
  pose proof (Sentence_assign_entities_inv _ _ _ _ _ Hae) as Hsents.
  apply Sentence_assign_entities_evolves in Hae.
  apply bind_Ok in H as (cgs & h11 & Hcgs & H).
  apply (mapM_invariant _
           (fun h c _ => Forall (throwaway_image (VObj (length h1)) (length h10) h) c) h10)
    in Hcgs as [Hec Hthrow];
    [| intros h ha c0 _ Hev Hall; eapply Forall_impl; [|exact Hall];
       intros e0 He0; eapply throwaway_image_evolves; eassumption
     | intros c0 h b hb H0 Hstep; eapply _getCorefGroup_inv; eassumption
     | apply heap_evolves_refl].
  apply Forall2_ignore_right in Hthrow.
  apply bind_Ok in H as ([] & h12 & Hac & H).
  apply Sentence_assign_corefGroups_evolves in Hac.
  apply bind_Ok in H as ([] & h13 & Hloop & H). injection H as <- <-.
  apply Word_id_loop_evolves in Hloop.
  (* the store only evolves from the allocation of the sentence on *)
  assert (He2_9 : heap_evolves h2 h9).
  { eapply heap_evolves_trans; [exact Hat|].
    eapply heap_evolves_trans; [exact Had|].
    eapply heap_evolves_trans; [exact Her|].
    eapply heap_evolves_trans; [exact Har | exact Hee]. }
  assert (He9_10 : heap_evolves h9 h10) by exact Hae.
  assert (He11_end : heap_evolves h11 h13).
  { eapply heap_evolves_trans; [exact Hac | exact Hloop]. }
  assert (He10_end : heap_evolves h10 h13).
  { eapply heap_evolves_trans; [exact Hec | exact He11_end]. }
  assert (He2_end : heap_evolves h2 h13).
  { eapply heap_evolves_trans; [exact He2_9|].
    eapply heap_evolves_trans; [exact He9_10 | exact He10_end]. }
  (* the entity of the sentence and the throwaway entity *)
  destruct (Forall2_elem_left _ _ _ _ Himgs Hents) as (E & HE_in & HE).
  rewrite Forall_forall in Hthrow.
  assert (HR : throwaway_image (VObj (length h1)) (length h10) h11 e).
  { pose proof (Hthrow c (proj1 (list_elem_of_In _ _) Hc)) as Hall.
    rewrite Forall_forall in Hall. apply Hall, list_elem_of_In, He. }
  destruct HR as (R & HRaddr & HR).
  pose proof (entity_image_address _ _ _ _ HE) as [HEobj HEaddr].
  pose proof (entity_image_address _ _ _ _ HR) as [HRobj _].
  pose proof (heap_evolves_length _ _ He9_10) as Hlen.
  assert (HE' : entity_image (VObj (length h1)) h13 e E).
  { eapply entity_image_evolves; [|exact HE].
    eapply heap_evolves_trans; [exact He9_10 | exact He10_end]. }
  assert (HR' : entity_image (VObj (length h1)) h13 e R)
    by (eapply entity_image_evolves; [exact He11_end | exact HR]).
  destruct (entity_images_equal _ _ _ _ _ HE' HR') as [Heq Hmorphs].
  destruct (Hmorphs i jm Hjm) as (m & Hget & Hm & HEm & HRm).
  (* the morpheme and its word *)
  unfold _getMorph in Hget. apply bind_Ok in Hget as (word & hw & Hword & Hmorph).
  assert (hw = h13) as -> by (eapply index_pure, Hword).
  destruct (He2_end _ _ Hsent2) as (o' & Hsent' & Ho).
  destruct o' as [| | | | | |sent']; simpl in Ho; try contradiction.
  destruct Ho as [Hitems _]. simpl in Hitems.
  pose proof (index_Sentence _ _ _ _ _ _ Hsent' Hword) as Hwordv.
  assert (Hw : is_Word h13 word).
  { destruct word as [| | | | |rw];
      try (destruct (index_undefined (jmr_id jm) h13); simpl in *; discriminate);
      try (simpl in Hmorph; discriminate).
    symmetry in Hwordv. apply proxy_index_elem in Hwordv. rewrite <- Hitems in Hwordv.
    rewrite Forall_forall in Htc.
    eapply is_Word_evolves; [|apply Htc, list_elem_of_In, Hwordv].
    eapply heap_evolves_trans; [apply heap_evolves_alloc | exact He2_end]. }
  assert (Hmw : m ∈ Word_items h13 word).
  { destruct Hw as (rw & w & -> & Hrw).
    pose proof (index_Word _ _ _ _ _ _ Hrw Hmorph) as Hmv.
    destruct Hm as (rm & mo & -> & _).
    symmetry in Hmv. apply proxy_index_elem in Hmv.
    unfold Word_items. rewrite Hrw. exact Hmv. }
  assert (Hsents' : Sentence_entities h13 (VObj (length h1)) = ents).
  { rewrite <- Hsents. apply Sentence_entities_evolves; [exact He10_end|].
    rewrite Hsents. intros ->. inversion HE_in. }
  exists word, m, E, R.
  split; [exact Hword|]. split; [exact Hmorph|]. split; [exact Hw|].
  split; [exact Hm|]. split; [exact Hmw|].
  split; [intros ->; lia|].
  split; [rewrite Hsents'; exact HE_in|].
  split.
  { rewrite Hsents'. intros HRin.
    destruct (Forall2_elem_right _ _ _ _ Himgs HRin) as (e' & _ & HRimg).
    apply entity_image_address in HRimg as [_ HRlt]. lia. }
  split; [exact HEm|]. split; [exact HRm|]. split; [exact Heq|].
  split; apply Word_entities_elem; exists m; auto.
Qed.

(** Reconstruction of the concrete sentence returns; the morpheme 김 ends up
    with the Entity of the sentence and the throwaway Entity. *)
Lemma coref_reconstruction_duplicates_entities_witness :
  exists this h',
    Sentence_reconstruct jsent_coref [] = Ok this h'
    /\ Morpheme_entities h' (VObj 0%nat) = [VObj 7%nat; VObj 8%nat]
    /\ Word_entities h' (VObj 2%nat) = [VObj 7%nat; VObj 8%nat]
    /\ exists word m E R,
         index this 0 h' = Ok word h'
         /\ index word 0 h' = Ok m h'
         /\ is_Word h' word /\ is_Morpheme h' m /\ m ∈ Word_items h' word
         /\ E ≠ R
         /\ E ∈ Sentence_entities h' this /\ (R ∉ Sentence_entities h' this)
         /\ E ∈ Morpheme_entities h' m /\ R ∈ Morpheme_entities h' m
         /\ Entity_equals h' E R = true
         /\ E ∈ Word_entities h' word /\ R ∈ Word_entities h' word.
Proof.
  eexists _, _. split; [vm_compute; reflexivity|].
  split; [vm_compute; reflexivity|]. split; [vm_compute; reflexivity|].
  apply (coref_reconstruction_duplicates_entities jsent_coref [] _ _
           [jentity_kim] jentity_kim 0%nat {| jmr_word := 0; jmr_id := 0 |}).
  - vm_compute. reflexivity.
  - simpl. apply list_elem_of_singleton. reflexivity.
  - apply list_elem_of_singleton. reflexivity.
  - simpl. apply list_elem_of_singleton. reflexivity.
  - reflexivity.
Defined.

(** ** [typeCheck], as its callers see it *)

Lemma typeNames_None_iff h values :
  typeNames h values = None <-> exists v, v ∈ values /\ typeName h v = None.
Proof.
  induction values as [|v vs IH]; simpl.
  - split; [discriminate|]. intros (v & Hv & _). inversion Hv.
  - destruct (typeName h v) as [t|] eqn:Ht.
    + destruct (typeNames h vs) as [ts|] eqn:Hts.
      * split; [discriminate|]. intros (x & Hx & Hn).
        apply elem_of_cons in Hx as [->|Hx]; [congruence|].
        destruct IH as [_ IH]. discriminate IH. eauto.
      * split; [|reflexivity]. intros _. destruct IH as [IH _].
        destruct (IH eq_refl) as (x & Hx & Hn). exists x. split; [right; exact Hx|exact Hn].
    + split; [|reflexivity]. intros _. exists v. split; [left|exact Ht].
Qed.

Lemma typeCheck_Ok_iff values types h :
  typeCheck values types h = Ok tt h
  <-> Forall (fun v => exists t, typeName h v = Some t /\ t ∈ types) values.
Proof.
  split.
  - intros H. apply typeCheck_Ok_inv in H as (_ & ts & Hts & Hall).
    apply typeNames_Some_Forall2 in Hts.
    induction Hts as [|v t vs ts' Hv _ IH]; constructor.
    + inversion Hall; subst. eauto.
    + apply IH. inversion Hall; assumption.
  - intros H.
    assert (exists ts, Forall2 (fun v t => typeName h v = Some t) values ts
                       /\ Forall (fun t => t ∈ types) ts) as (ts & H2 & Hall).
    { induction H as [|v vs (t & Ht & Hin) _ (ts & H2 & Hall)].
      - exists []. split; constructor.
      - exists (t :: ts). split; constructor; assumption. }
    apply typeCheck_Ok_intro with ts; [apply typeNames_Some_Forall2|]; assumption.
Qed.

(** X1. [typeCheck(values, ...types)] returns exactly when the type name of
    every value ([typeof], or the constructor's name for an object) is one
    of [types]; in particular it returns on an empty array whatever [types]
    is.  Returning or throwing, it leaves the store as it was. *)
Theorem typeCheck_passes_iff (values : list value) (types : list string) (h : heap) :
  (typeCheck values types h = Ok tt h
   <-> Forall (fun v => exists t, typeName h v = Some t /\ t ∈ types) values)
  /\ typeCheck [] types h = Ok tt h
  /\ (exists r, typeCheck values types h = r
                /\ match r with Ok _ h' => h' = h | Throw _ h' => h' = h end).
Proof.
  split; [apply typeCheck_Ok_iff|]. split; [reflexivity|].
  destruct (typeCheck_cases values types h) as [H|(e & H)]; rewrite H; eexists; split; reflexivity.
Qed.

(** X2. A [null] among the values makes [typeCheck] throw the runtime's
    TypeError (from [null.constructor]) whatever the allowed types are and
    whatever the other values are: the type names of all values are computed
    before the first one is compared. *)
Theorem typeCheck_null_throws (values : list value) (types : list string) (h : heap) :
  VNull ∈ values -> typeCheck values types h = Throw TypeError_native h.
Proof.
  intros Hin. unfold typeCheck.
  assert (typeNames h values = None) as ->; [|reflexivity].
  apply typeNames_None_iff. exists VNull. split; [assumption|reflexivity].
Qed.

Lemma typeCheck_null_throws_witness :
  VNull ∈ [VNum 3; VNull]
  /\ typeCheck [VNum 3; VNull] ["undefined"; "string"] [] = Throw TypeError_native [].
Proof.
  split.
  - apply (bool_decide_unpack _). vm_compute. exact I.
  - apply (typeCheck_null_throws [VNum 3; VNull] ["undefined"; "string"] []).
    apply (bool_decide_unpack _). vm_compute. exact I.
Defined.

(** ** Reading a container by position *)

Lemma proxy_index_inside (items : list value) (i : nat) x :
  items !! i = Some x ->
  proxy_index items (Z.of_nat i) = x
  /\ proxy_index items (Z.of_nat i - Z.of_nat (length items)) = x.
Proof.
  intros Hi. pose proof (lookup_lt_Some _ _ _ Hi) as Hlt. unfold proxy_index. split.
  - destruct (decide (0 <= Z.of_nat i)) as [_|]; [|lia].
    destruct (decide (0 <= Z.of_nat i)) as [_|]; [|lia].
    rewrite Nat2Z.id, Hi. reflexivity.
  - destruct (decide (0 <= Z.of_nat i - Z.of_nat (length items))) as [|_]; [lia|].
    destruct (decide (0 <= Z.of_nat (length items) + (Z.of_nat i - Z.of_nat (length items))))
      as [_|]; [|lia].
    replace (Z.to_nat (Z.of_nat (length items) + (Z.of_nat i - Z.of_nat (length items))))
      with i by lia.
    rewrite Hi. reflexivity.
Qed.

Lemma proxy_index_outside (items : list value) (name : Z) :
  Z.of_nat (length items) <= name \/ name < - Z.of_nat (length items) ->
  proxy_index items name = VUndefined.
Proof.
  intros Hname. unfold proxy_index.
  destruct (decide (0 <= name)).
  - destruct (decide (0 <= name)) as [_|]; [|lia].
    rewrite lookup_ge_None_2 by lia. reflexivity.
  - destruct (decide (0 <= Z.of_nat (length items) + name)) as [|_]; [lia|]. reflexivity.
Qed.



Lemma Array_includes_elem items v : Array_includes items v = true <-> v ∈ items.
Proof.
  unfold Array_includes. induction items as [|x items IH]; simpl.
  - split; [discriminate|]. intros H. inversion H.
  - rewrite orb_true_iff, IH, elem_of_cons, bool_decide_eq_true. split; intros [?|?]; auto.
Qed.

Lemma Array_indexOf_from_spec items v : forall k, 0 <= k ->
  (Array_indexOf_from k items v = -1 /\ (v ∉ items))
  \/ (exists i : nat, Array_indexOf_from k items v = k + Z.of_nat i /\ items !! i = Some v
        /\ forall (j : nat) x, (j < i)%nat -> items !! j = Some x -> x ≠ v).
Proof.
  induction items as [|x items IH]; intros k Hk; simpl.
  - left. split; [reflexivity|]. intros H. inversion H.
  - destruct (decide (x = v)) as [->|Hne].
    + right. exists 0%nat. split; [lia|]. split; [reflexivity|]. intros j y Hj. lia.
    + destruct (IH (k + 1) ltac:(lia)) as [[H1 H2]|(i & H1 & H2 & H3)].
      * left. split; [exact H1|]. intros Hin. apply elem_of_cons in Hin as [->|Hin]; auto.
      * right. exists (S i). split; [lia|]. split; [exact H2|].
        intros [|j] y Hj Hy; simpl in Hy.
        -- injection Hy as <-. exact Hne.
        -- apply (H3 j); [lia|exact Hy].
Qed.

(** X4. [indexOf(value)] is -1 exactly when the container does not hold
    [value] (by reference), and is otherwise the first position holding it;
    [includes(value)] is true exactly in the second case. *)
Theorem indexOf_first_occurrence (items : list value) (v : value) :
  (ImmutableArray_indexOf items v = -1 /\ (v ∉ items)
   /\ ImmutableArray_includes items v = false)
  \/ (exists i : nat, ImmutableArray_indexOf items v = Z.of_nat i /\ items !! i = Some v
        /\ (forall (j : nat) x, (j < i)%nat -> items !! j = Some x -> x ≠ v)
        /\ ImmutableArray_includes items v = true).
Proof.
  unfold ImmutableArray_indexOf, Array_indexOf, ImmutableArray_includes.
  destruct (Array_indexOf_from_spec items v 0 ltac:(lia)) as [[H1 H2]|(i & H1 & H2 & H3)].
  - left. split; [exact H1|]. split; [exact H2|].
    destruct (Array_includes items v) eqn:E; [|reflexivity].
    apply Array_includes_elem in E. contradiction.
  - right. exists i. split; [lia|]. split; [exact H2|]. split; [exact H3|].
    apply Array_includes_elem. apply list_elem_of_lookup. eauto.
Qed.

(** ** Search by value *)

Lemma Forall_false_not_exists {A} (p : A -> bool) (l : list A) :
  Forall (fun x => p x = false) l <-> ~ exists x, x ∈ l /\ p x = true.
Proof.
  rewrite list.Forall_forall. split.
  - intros H (x & Hx & Hp). rewrite (H x Hx) in Hp. discriminate.
  - intros H x Hx. destruct (p x) eqn:E; [|reflexivity]. exfalso. eauto.
Qed.

Lemma indexOfValue_spec (elem_equals : value -> value -> bool)
    (items : list value) (v : value) :
  let first := ImmutableArray_indexOfValue elem_equals items v in
  let last := ImmutableArray_lastIndexOfValue elem_equals items v in
  (ImmutableArray_includesValue elem_equals items v = true
   <-> exists x, x ∈ items /\ elem_equals x v = true)
  /\ ((first = -1 /\ last = -1 /\ ImmutableArray_includesValue elem_equals items v = false)
      \/ (exists i k : nat,
            first = Z.of_nat i /\ last = Z.of_nat k /\ (i <= k)%nat
            /\ earliest_index (fun x => elem_equals x v) items i
            /\ (exists x, items !! k = Some x /\ elem_equals x v = true)
            /\ forall (j : nat) x, (k < j)%nat -> items !! j = Some x -> elem_equals x v = false)).
Proof.
  intros first last. subst first last.
  unfold ImmutableArray_includesValue, ImmutableArray_indexOfValue, ImmutableArray_lastIndexOfValue.
  set (p := fun x => elem_equals x v).
  destruct (Array_findIndex_earliest p items) as [[H1 H2]|(i & H1 & H2)];
    destruct (lodash_findLastIndex_latest p items) as [[K1 K2]|(K1 & K2 & K3)].
  - rewrite H1, K1. split.
    + split; [discriminate|]. intros Hex. apply Forall_false_not_exists in H2. contradiction.
    + left. auto.
  - exfalso. destruct K2 as (x & Hx & Hp).
    rewrite list.Forall_forall in H2. rewrite (H2 x) in Hp; [discriminate|].
    apply list_elem_of_lookup. eauto.
  - exfalso. destruct H2 as [(x & Hx & Hp) _].
    rewrite list.Forall_forall in K2. rewrite (K2 x) in Hp; [discriminate|].
    apply list_elem_of_lookup. eauto.
  - rewrite H1. split.
    + rewrite bool_decide_eq_false_2 by lia. split; [|reflexivity]. intros _.
      destruct H2 as [(x & Hx & Hp) _]. exists x. split; [|exact Hp].
      apply list_elem_of_lookup. eauto.
    + right. exists i, (Z.to_nat (lodash_findLastIndex p items)).
      split; [reflexivity|]. split; [lia|]. split; [|split; [exact H2|split; [exact K2|exact K3]]].
      destruct H2 as [(x & Hx & Hp) _].
      destruct (decide (i <= Z.to_nat (lodash_findLastIndex p items))%nat) as [|Hgt]; [assumption|].
      rewrite (K3 i x) in Hp; [discriminate|lia|exact Hx].
Qed.

(** X5. In a container of Morphemes (a Word, an Entity), [indexOfValue] and
    [lastIndexOfValue] search with [Morpheme.equals]: both are -1 exactly
    when no item equals the value, otherwise [indexOfValue] is the first and
    [lastIndexOfValue] the last position of an item that equals it;
    [includesValue] is true exactly when some item equals the value.  A
    Morpheme that the container holds is therefore found by value too, at or
    before the position [indexOf] gives. *)
Theorem indexOfValue_lastIndexOfValue (h : heap) (items : list value) (v : value) :
  let first := ImmutableArray_indexOfValue (Morpheme_equals h) items v in
  let last := ImmutableArray_lastIndexOfValue (Morpheme_equals h) items v in
  (ImmutableArray_includesValue (Morpheme_equals h) items v = true
   <-> exists x, x ∈ items /\ Morpheme_equals h x v = true)
  /\ ((first = -1 /\ last = -1
       /\ ImmutableArray_includesValue (Morpheme_equals h) items v = false)
      \/ (exists i k : nat,
            first = Z.of_nat i /\ last = Z.of_nat k /\ (i <= k)%nat
            /\ earliest_index (fun x => Morpheme_equals h x v) items i
            /\ (exists x, items !! k = Some x /\ Morpheme_equals h x v = true)
            /\ forall (j : nat) x, (k < j)%nat -> items !! j = Some x ->
                 Morpheme_equals h x v = false))
  /\ (Forall (is_Morpheme h) items -> ImmutableArray_includes items v = true ->
      ImmutableArray_includesValue (Morpheme_equals h) items v = true
      /\ 0 <= first <= ImmutableArray_indexOf items v).
Proof.
  intros first last.
  pose proof (indexOfValue_spec (Morpheme_equals h) items v) as [Hinc Hcases].
  split; [exact Hinc|]. split; [exact Hcases|].
  intros Hm Hin. apply Array_includes_elem in Hin.
  assert (Morpheme_equals h v v = true) as Hrefl.
  { apply Morpheme_equals_refl. rewrite Forall_forall in Hm. apply Hm, list_elem_of_In, Hin. }
  assert (ImmutableArray_includesValue (Morpheme_equals h) items v = true) as Hv
    by (apply Hinc; eauto).
  split; [exact Hv|].
  destruct Hcases as [(_ & _ & Hf)|(i & k & Hi & _ & _ & Hearly & _)]; [congruence|].
  fold first in Hi. rewrite Hi.
  unfold ImmutableArray_indexOf, Array_indexOf.
  destruct (Array_indexOf_from_spec items v 0 ltac:(lia)) as [[_ Hno]|(n & Hn & Hat & _)];
    [contradiction|].
  rewrite Hn. destruct Hearly as [_ Hbefore].
  destruct (decide (i <= n)%nat) as [|Hgt]; [lia|].
  rewrite (Hbefore n v) in Hrefl; [discriminate|lia|exact Hat].
Qed.

Lemma indexOfValue_lastIndexOfValue_witness :
  ImmutableArray_includesValue (Morpheme_equals heap_entity_repeated)
    [VObj 0%nat; VObj 1%nat; VObj 0%nat] (VObj 0%nat) = true
  /\ 0 <= ImmutableArray_indexOfValue (Morpheme_equals heap_entity_repeated)
            [VObj 0%nat; VObj 1%nat; VObj 0%nat] (VObj 0%nat)
       <= ImmutableArray_indexOf [VObj 0%nat; VObj 1%nat; VObj 0%nat] (VObj 0%nat).
Proof.
  apply (proj2 (proj2 (indexOfValue_lastIndexOfValue heap_entity_repeated
                         [VObj 0%nat; VObj 1%nat; VObj 0%nat] (VObj 0%nat)))).
  - repeat constructor; eexists _, _; split; reflexivity.
  - reflexivity.
Defined.

(** ** equals *)

Lemma ImmutableArray_equals_sym (eqv : value -> value -> bool) (l1 l2 : list value) :
  (forall a b, a ∈ l1 -> b ∈ l2 -> eqv a b = eqv b a) ->
  ImmutableArray_equals eqv l1 l2 = ImmutableArray_equals eqv l2 l1.
Proof.
  unfold ImmutableArray_equals. intros Hsym.
  destruct (decide (length l2 = length l1)) as [Hlen|Hlen].
  - rewrite !bool_decide_eq_true_2 by congruence. simpl.
    revert l2 Hsym Hlen. induction l1 as [|a l1 IH]; intros [|b l2] Hsym Hlen;
      simpl in *; try discriminate; [reflexivity|].
    rewrite Hsym by (left). f_equal. apply IH; [|congruence].
    intros x y Hx Hy. apply Hsym; right; assumption.
  - rewrite !bool_decide_eq_false_2 by congruence. reflexivity.
Qed.

Lemma ImmutableArray_equals_trans (eqv : value -> value -> bool) (l1 l2 l3 : list value) :
  (forall a b c, eqv a b = true -> eqv b c = true -> eqv a c = true) ->
  ImmutableArray_equals eqv l1 l2 = true -> ImmutableArray_equals eqv l2 l3 = true ->
  ImmutableArray_equals eqv l1 l3 = true.
Proof.
  unfold ImmutableArray_equals. intros Htr H12 H23.
  apply andb_true_iff in H12 as [L12 F12]. apply andb_true_iff in H23 as [L23 F23].
  apply bool_decide_eq_true in L12. apply bool_decide_eq_true in L23.
  apply andb_true_iff. split; [apply bool_decide_eq_true; congruence|].
  revert l2 l3 L12 L23 F12 F23. induction l1 as [|a l1 IH]; intros [|b l2] [|c l3] L12 L23 F12 F23;
    simpl in *; try discriminate; [reflexivity|].
  apply andb_true_iff in F12 as [E12 F12]. apply andb_true_iff in F23 as [E23 F23].
  apply andb_true_iff. split; [eapply Htr; eassumption|].
  apply (IH l2 l3); congruence.
Qed.

Lemma Morpheme_equals_sym h a b : Morpheme_equals h a b = Morpheme_equals h b a.
Proof.
  unfold Morpheme_equals.
  destruct a as [| | | | |a], b as [| | | | |b]; try reflexivity.
  destruct (h !! a) as [[x| | | | | |]|], (h !! b) as [[y| | | | | |]|]; try reflexivity.
  f_equal; apply bool_decide_ext; split; congruence.
Qed.

Lemma Morpheme_equals_trans h a b c :
  Morpheme_equals h a b = true -> Morpheme_equals h b c = true -> Morpheme_equals h a c = true.
Proof.
  unfold Morpheme_equals.
  destruct a as [| | | | |a], b as [| | | | |b], c as [| | | | |c]; try discriminate.
  destruct (h !! a) as [[x| | | | | |]|], (h !! b) as [[y| | | | | |]|],
    (h !! c) as [[z| | | | | |]|]; try discriminate.
  intros H1 H2. apply andb_true_iff in H1 as [S1 T1]. apply andb_true_iff in H2 as [S2 T2].
  apply bool_decide_eq_true in S1, T1, S2, T2.
  apply andb_true_iff. split; apply bool_decide_eq_true; congruence.
Qed.

(** X6. [Morpheme.equals] is an equivalence on Morphemes: every Morpheme
    equals itself, the answer does not depend on which of two Morphemes is
    asked, and it is transitive; a value that is not a Morpheme equals
    none. *)
Theorem Morpheme_equals_equivalence (h : heap) (a b : value) :
  is_Morpheme h a -> is_Morpheme h b ->
  Morpheme_equals h a a = true
  /\ Morpheme_equals h a b = Morpheme_equals h b a
  /\ (forall c, Morpheme_equals h a b = true -> Morpheme_equals h b c = true ->
                Morpheme_equals h a c = true)
  /\ (forall c, ~ is_Morpheme h c -> Morpheme_equals h a c = false).
Proof.
  intros Ha Hb. split; [apply Morpheme_equals_refl; exact Ha|].
  split; [apply Morpheme_equals_sym|]. split.
  - intros c. apply Morpheme_equals_trans.
  - intros c Hc. destruct Ha as (r & m & -> & Hr). unfold Morpheme_equals. rewrite Hr.
    destruct c as [| | | | |c]; try reflexivity.
    destruct (h !! c) as [[y| | | | | |]|] eqn:E; try reflexivity.
    exfalso. apply Hc. exists c, y. auto.
Qed.

Lemma Morpheme_equals_equivalence_witness :
  Morpheme_equals heap_two_morphemes (VObj 0%nat) (VObj 0%nat) = true
  /\ Morpheme_equals heap_two_morphemes (VObj 0%nat) (VObj 1%nat)
     = Morpheme_equals heap_two_morphemes (VObj 1%nat) (VObj 0%nat).
Proof.
  assert (is_Morpheme heap_two_morphemes (VObj 0%nat)) as H0.
  { eexists _, _. split; reflexivity. }
  assert (is_Morpheme heap_two_morphemes (VObj 1%nat)) as H1.
  { eexists _, _. split; reflexivity. }
  destruct (Morpheme_equals_equivalence heap_two_morphemes _ _ H0 H1) as (R & S & _).
  split; [exact R|exact S].
Defined.

Lemma Entity_equals_sym h a b : Entity_equals h a b = Entity_equals h b a.
Proof.
  unfold Entity_equals.
  destruct a as [| | | | |a], b as [| | | | |b]; try reflexivity.
  destruct (h !! a) as [[|?|x| | | |]|], (h !! b) as [[|?|y| | | |]|]; try reflexivity.
  f_equal; [f_equal; apply bool_decide_ext; split; congruence|].
  apply ImmutableArray_equals_sym. intros; apply Morpheme_equals_sym.
Qed.

Lemma Entity_equals_trans h a b c :
  Entity_equals h a b = true -> Entity_equals h b c = true -> Entity_equals h a c = true.
Proof.
  unfold Entity_equals.
  destruct a as [| | | | |a], b as [| | | | |b], c as [| | | | |c]; try discriminate.
  destruct (h !! a) as [[|?|x| | | |]|], (h !! b) as [[|?|y| | | |]|],
    (h !! c) as [[|?|z| | | |]|]; try discriminate.
  intros H1 H2.
  apply andb_true_iff in H1 as [H1 I1]. apply andb_true_iff in H1 as [L1 F1].
  apply andb_true_iff in H2 as [H2 I2]. apply andb_true_iff in H2 as [L2 F2].
  apply bool_decide_eq_true in L1, F1, L2, F2.
  apply andb_true_iff. split; [apply andb_true_iff; split; apply bool_decide_eq_true; congruence|].
  eapply ImmutableArray_equals_trans; [apply Morpheme_equals_trans|eassumption|eassumption].
Qed.

(** X7. [Entity.equals] compares the label, the fine label and the
    morphemes (pairwise, by [Morpheme.equals]) and nothing else: two Entities
    that differ only in [surface] and [originalLabel] are equal.  On
    Entities it is reflexive, symmetric and transitive. *)
Theorem Entity_equals_equivalence (h : heap) (a b : ref) (x y : Entity) :
  h !! a = Some (OEntity x) -> h !! b = Some (OEntity y) ->
  Forall (is_Morpheme h) (entity_items x) ->
  Entity_equals h (VObj a) (VObj a) = true
  /\ Entity_equals h (VObj a) (VObj b) = Entity_equals h (VObj b) (VObj a)
  /\ (forall c, Entity_equals h (VObj a) (VObj b) = true -> Entity_equals h (VObj b) c = true ->
                Entity_equals h (VObj a) c = true)
  /\ (entity_label x = entity_label y -> entity_fineLabel x = entity_fineLabel y ->
      entity_items x = entity_items y -> Entity_equals h (VObj a) (VObj b) = true).
Proof.
  intros Hx Hy Hm.
  assert (forall z, entity_label x = entity_label z -> entity_fineLabel x = entity_fineLabel z ->
                    entity_items x = entity_items z -> forall r, h !! r = Some (OEntity z) ->
                    Entity_equals h (VObj a) (VObj r) = true) as Hsame.
  { intros z L F I r Hr. unfold Entity_equals. rewrite Hx, Hr.
    rewrite !bool_decide_eq_true_2 by assumption. simpl. rewrite <- I.
    apply ImmutableArray_equals_refl. exact Hm. }
  split; [apply (Hsame x); auto|].
  split; [apply Entity_equals_sym|]. split.
  - intros c. apply Entity_equals_trans.
  - intros L F I. apply (Hsame y); auto.
Qed.

Lemma Entity_equals_equivalence_witness :
  Entity_equals heap_entity_repeated (VObj 2%nat) (VObj 2%nat) = true.
Proof.
  refine (proj1 (Entity_equals_equivalence heap_entity_repeated 2%nat 2%nat
                   _ _ eq_refl eq_refl _)).
  repeat constructor; eexists _, _; split; reflexivity.
Defined.

Lemma Word_equals_refl h r w :
  h !! r = Some (OWord w) -> Forall (is_Morpheme h) (word_items w) ->
  Word_equals h (VObj r) (VObj r) = inr true.
Proof.
  intros Hr Hm. unfold Word_equals, arraylike_items, surface_of. rewrite Hr.
  rewrite ImmutableArray_equals_refl by exact Hm.
  rewrite bool_decide_eq_true_2 by reflexivity. reflexivity.
Qed.

Lemma Word_equals_undefined h this :
  is_Word h this -> Word_equals h this VUndefined = inr false.
Proof. intros (r & w & -> & Hr). unfold Word_equals. rewrite Hr. reflexivity. Qed.

(** X8. An edge without a source (a root edge) cannot be compared:
    [equals] evaluates [this.src.equals(...)] as soon as the labels agree, so
    it throws instead of answering, also when the edge is compared with
    itself.  Asked the other way round, an edge that has a source answers
    [false] for a root edge. *)
Theorem DAGEdge_equals_root_edge (h : heap) (e : ref) (x : Edge) :
  h !! e = Some (OEdge x) -> edge_src x = VUndefined ->
  DAGEdge_equals h (VObj e) e = inl TypeError_native
  /\ (forall other, label_of h other = edge_label x ->
        DAGEdge_equals h (VObj e) other = inl TypeError_native)
  /\ (forall e' x', h !! e' = Some (OEdge x') -> is_Word h (edge_src x') ->
        DAGEdge_equals h (VObj e') e = inr false).
Proof.
  intros He Hsrc.
  assert (forall other, label_of h other = edge_label x ->
            DAGEdge_equals h (VObj e) other = inl TypeError_native) as Hthrow.
  { intros other Hl. unfold DAGEdge_equals. rewrite He, Hsrc.
    rewrite bool_decide_eq_true_2 by congruence. reflexivity. }
  split; [apply Hthrow; unfold label_of; rewrite He; reflexivity|].
  split; [exact Hthrow|].
  intros e' x' He' Hw. unfold DAGEdge_equals. rewrite He'.
  destruct (bool_decide (edge_label x' = label_of h e)); [|reflexivity].
  unfold src_of. rewrite He, Hsrc. rewrite (Word_equals_undefined _ _ Hw). reflexivity.
Qed.

Lemma DAGEdge_equals_root_edge_witness :
  DAGEdge_equals heap_root_edge (VObj 4%nat) 4%nat = inl TypeError_native
  /\ DAGEdge_equals heap_root_edge (VObj 5%nat) 4%nat = inr false.
Proof.
  destruct (DAGEdge_equals_root_edge heap_root_edge 4%nat _ eq_refl eq_refl) as (H1 & _ & H2).
  split; [exact H1|].
  apply (H2 5%nat _ eq_refl). eexists _, _. split; reflexivity.
Defined.

(** X9. An edge whose source and destination are Words over Morphemes
    equals itself, as a [DAGEdge] and as a [DepEdge]. *)
Theorem DAGEdge_equals_refl (h : heap) (e : ref) (x : Edge) (s d : ref) (ws wd : Word) :
  h !! e = Some (OEdge x) ->
  edge_src x = VObj s -> h !! s = Some (OWord ws) -> Forall (is_Morpheme h) (word_items ws) ->
  edge_dest x = VObj d -> h !! d = Some (OWord wd) -> Forall (is_Morpheme h) (word_items wd) ->
  DAGEdge_equals h (VObj e) e = inr true /\ DepEdge_equals h (VObj e) e = inr true.
Proof.
  intros He Hs Hws Ms Hd Hwd Md.
  assert (DAGEdge_equals h (VObj e) e = inr true) as H.
  { unfold DAGEdge_equals, label_of, src_of, dest_of. rewrite He.
    rewrite bool_decide_eq_true_2 by reflexivity.
    rewrite Hs, (Word_equals_refl _ _ _ Hws Ms), Hd. apply (Word_equals_refl _ _ _ Hwd Md). }
  split; [exact H|].
  unfold DepEdge_equals, type_of. rewrite He.
  rewrite bool_decide_eq_true_2 by reflexivity. exact H.
Qed.

Lemma DAGEdge_equals_refl_witness :
  DAGEdge_equals heap_root_edge (VObj 5%nat) 5%nat = inr true
  /\ DepEdge_equals heap_root_edge (VObj 5%nat) 5%nat = inr true.
Proof.
  refine (DAGEdge_equals_refl heap_root_edge 5%nat _ 1%nat 3%nat _ _
            eq_refl eq_refl eq_refl _ eq_refl eq_refl _);
    repeat constructor; eexists _, _; split; reflexivity.
Defined.

(** ** Write-once links, generically *)

Lemma run_cell_set_Ok {A} c v (k : cell -> A) store h u h' :
  run_cell_set c v k store h = Ok u h' -> exists c', cell_set c v = inr c' /\ h' = store (k c').
Proof.
  unfold run_cell_set. destruct (cell_set c v) as [|c']; [discriminate|].
  intros [= <- <-]. eauto.
Qed.

Lemma backref_assign_inv f target v h u h' :
  backref_assign f target v h = Ok u h' ->
  exists r c c', target = VObj r /\ backref_cell f h target = Some c
    /\ cell_set c v = inr c' /\ backref_cell f h' target = Some c'
    /\ length h' = length h
    /\ (forall r', r' ≠ r -> h' !! r' = h !! r')
    /\ (forall f' c0, f' ≠ f -> backref_cell f' h target = Some c0 ->
          backref_cell f' h' target = Some c0).
Proof.
  intros H.
  destruct f; simpl in H;
    unfold Morpheme_assign_word, Morpheme_assign_id, Word_assign_id, Word_assign_phrase,
      Word_assign_governorEdge, Entity_assign_corefGroup, Tree_assign_parent in H;
    destruct target as [| | | | |r]; try discriminate;
    destruct (h !! r) as [o|] eqn:Hr; try discriminate;
    destruct o; try discriminate;
    apply run_cell_set_Ok in H as (c' & Hc & ->);
    pose proof (lookup_lt_Some _ _ _ Hr) as Hlt;
    (eexists r, _, c'; split; [reflexivity|]; split; [simpl; rewrite Hr; reflexivity|];
     split; [exact Hc|]; split; [simpl; rewrite list_lookup_insert_eq by exact Hlt; reflexivity|];
     split; [apply length_insert|]; split;
     [intros r' Hne; apply list_lookup_insert_ne; congruence|];
     intros f' c0 Hf' H0; simpl in H0 |- *; rewrite Hr in H0;
     rewrite list_lookup_insert_eq by exact Hlt;
     destruct f'; try discriminate; try congruence; exact H0).
Qed.

Lemma backref_holds_defined f v h target :
  isDefined v = true -> backref_holds f v h target -> backref_get f h target = Some v.
Proof.
  intros Hv (c & Hc & <-). unfold backref_get. rewrite Hc. simpl.
  rewrite cell_get_defined by exact Hv. reflexivity.
Qed.

Lemma backref_cell_frame f h h' r :
  h' !! r = h !! r -> backref_cell f h' (VObj r) = backref_cell f h (VObj r).
Proof. intros E. unfold backref_cell. rewrite E. reflexivity. Qed.

(** A successful assignment leaves every link that already holds a concrete
    value as it is, and establishes its own. *)
Lemma backref_assign_holds f target v h u h' :
  backref_assign f target v h = Ok u h' ->
  backref_holds f v h' target
  /\ (forall f' v' x, isDefined v' = true -> backref_holds f' v' h x -> backref_holds f' v' h' x)
  /\ (forall f' v' x, x ≠ target -> backref_holds f' v' h x -> backref_holds f' v' h' x)
  /\ length h' = length h
  /\ (forall r, VObj r ≠ target -> h' !! r = h !! r).
Proof.
  intros H. apply backref_assign_inv in H
    as (r & c & c' & -> & Hc & Hset & Hc' & Hlen & Hframe & Hfields).
  pose proof (cell_set_inr _ _ _ Hset) as (Hv & _ & _).
  assert (forall f' v' x, x ≠ VObj r -> backref_holds f' v' h x -> backref_holds f' v' h' x)
    as Hother.
  { intros f' v' x Hx (c0 & H0 & E0). exists c0. split; [|exact E0].
    destruct x as [| | | | |r0]; try (simpl in H0; discriminate).
    rewrite (backref_cell_frame f' h h' r0); [exact H0|]. apply Hframe. congruence. }
  split; [exists c'; auto|]. split; [|split; [exact Hother|split; [exact Hlen|]]].
  - intros f' v' x Hdef (c0 & H0 & E0).
    destruct (decide (x = VObj r)) as [->|Hx]; [|apply Hother; [exact Hx|exists c0; auto]].
    destruct (decide (f' = f)) as [->|Hf].
    + rewrite Hc in H0. injection H0 as <-. exists c'. split; [exact Hc'|].
      unfold cell_set in Hset. destruct (decide (cell_value c = v)) as [E|E].
      * congruence.
      * rewrite E0, Hdef in Hset. destruct (isDefined v); discriminate.
    + exists c0. split; [|exact E0]. apply Hfields; assumption.
  - intros r0 Hne. apply Hframe. congruence.
Qed.

(** [for (const x of l) x.f = v] *)
Lemma backref_loop f v l : forall h h',
  forM (fun x => backref_assign f x v) l h = Ok tt h' ->
  Forall (backref_holds f v h') l
  /\ (forall f' v' x, isDefined v' = true -> backref_holds f' v' h x -> backref_holds f' v' h' x)
  /\ (forall f' v' x, x ∉ l -> backref_holds f' v' h x -> backref_holds f' v' h' x)
  /\ length h' = length h
  /\ (forall r, VObj r ∉ l -> h' !! r = h !! r).
Proof.
  induction l as [|x l IH]; intros h h' H; simpl in H.
  - injection H as <-. split; [constructor|]. auto.
  - apply bind_Ok in H as ([] & h1 & Hstep & Hrest).
    apply backref_assign_holds in Hstep as (Hx & Hkeep & Hother & Hlen & Hframe).
    apply IH in Hrest as (Hall & Hkeep' & Hother' & Hlen' & Hframe').
    split; [|split; [|split; [|split]]].
    + constructor; [|exact Hall].
      destruct (decide (isDefined v = true)) as [Hv|Hv].
      * apply Hkeep'; assumption.
      * destruct (decide (x ∈ l)) as [Hin|Hin].
        -- rewrite list.Forall_forall in Hall. apply Hall, Hin.
        -- apply Hother'; assumption.
    + intros f' v' y Hdef Hy. apply Hkeep', Hkeep; assumption.
    + intros f' v' y Hy Hh. apply not_elem_of_cons in Hy as [Hy1 Hy2].
      apply Hother'; [exact Hy2|]. apply Hother; assumption.
    + congruence.
    + intros r Hr. apply not_elem_of_cons in Hr as [Hr1 Hr2].
      rewrite Hframe' by exact Hr2. apply Hframe. exact Hr1.
Qed.

(** [for (const [i, x] of l.entries()) x.f = v(i)] *)
Lemma backref_loop_entries f (v : Z -> value) l : forall k h h',
  (forall i, isDefined (v i) = true) ->
  forM_entries (fun i x => backref_assign f x (v i)) k l h = Ok tt h' ->
  (forall (j : nat) x, l !! j = Some x -> backref_holds f (v (k + Z.of_nat j)) h' x)
  /\ (forall f' v' x, isDefined v' = true -> backref_holds f' v' h x -> backref_holds f' v' h' x)
  /\ length h' = length h
  /\ (forall r, VObj r ∉ l -> h' !! r = h !! r).
Proof.
  induction l as [|x l IH]; intros k h h' Hv H; simpl in H.
  - injection H as <-. split; [|auto]. intros j x Hj. rewrite lookup_nil in Hj. discriminate.
  - apply bind_Ok in H as ([] & h1 & Hstep & Hrest).
    apply backref_assign_holds in Hstep as (Hx & Hkeep & _ & Hlen & Hframe).
    apply IH in Hrest as (Hall & Hkeep' & Hlen' & Hframe'); [|exact Hv].
    split; [|split; [|split]].
    + intros [|j] y Hj; simpl in Hj.
      * injection Hj as <-. rewrite Z.add_0_r. apply Hkeep'; [apply Hv|exact Hx].
      * replace (k + Z.of_nat (S j)) with (k + 1 + Z.of_nat j) by lia. apply Hall, Hj.
    + intros f' v' y Hdef Hy. apply Hkeep', Hkeep; assumption.
    + congruence.
    + intros r Hr. apply not_elem_of_cons in Hr as [Hr1 Hr2].
      rewrite Hframe' by exact Hr2. apply Hframe. exact Hr1.
Qed.

(** ** CoreferenceGroup *)

Lemma typeName_Entity h v : typeName h v = Some "Entity" <-> is_Entity h v.
Proof.
  split.
  - destruct v as [| | | |cls ?|r]; simpl; try discriminate.
    + destruct cls; discriminate.
    + destruct (h !! r) as [o|] eqn:Hr; simpl; [|discriminate].
      destruct o as [| | e | | t | e |]; simpl; try discriminate.
      * intros _. exists r, e. auto.
      * destruct (tree_class_of t); discriminate.
      * destruct (edge_class_of e); discriminate.
  - intros (r & e & -> & Hr). simpl. rewrite Hr. reflexivity.
Qed.

Lemma typeCheck_Entities h values :
  typeCheck values ["Entity"] h = Ok tt h <-> Forall (is_Entity h) values.
Proof.
  rewrite typeCheck_Ok_iff. split; intros H; (eapply Forall_impl; [|exact H]); simpl.
  - intros v (t & Ht & Hin). apply list_elem_of_singleton in Hin as ->.
    apply typeName_Entity, Ht.
  - intros v Hv. exists "Entity". split; [apply typeName_Entity, Hv|].
    apply list_elem_of_singleton. reflexivity.
Qed.

Lemma CoreferenceGroup_new_inv entities h g h' :
  CoreferenceGroup_new entities h = Ok g h' ->
  g = VObj (length h) /\ Forall (is_Entity h) entities
  /\ forM (fun entity => backref_assign Entity_corefGroup entity (VObj (length h))) entities
       (h ++ [OCoreferenceGroup {| coref_items := entities |}]) = Ok tt h'.
Proof.
  intros H. unfold CoreferenceGroup_new in H.
  apply bind_Ok in H as ([] & h1 & Htc & H). apply typeCheck_Ok_same in Htc as [-> Htc].
  apply typeCheck_Entities in Htc.
  apply bind_Ok in H as (r & h2 & Halloc & H). unfold alloc in Halloc. injection Halloc as <- <-.
  apply bind_Ok in H as ([] & h3 & Hloop & H). injection H as <- <-.
  auto.
Qed.

Lemma is_Entity_not_fresh h v : is_Entity h v -> v ≠ VObj (length h).
Proof.
  intros (r & e & -> & Hr) [= ->]. apply lookup_lt_Some in Hr. lia.
Qed.

(** X10. When [new CoreferenceGroup(entities)] returns a group, its items are
    the given Entities in order and every one of them has the group as its
    [corefGroup]. *)
Theorem CoreferenceGroup_new_links_members (entities : list value) (h : heap)
    (g : value) (h' : heap) :
  CoreferenceGroup_new entities h = Ok g h' ->
  g = VObj (length h)
  /\ ImmutableArray_items h' g = entities
  /\ forall entity, entity ∈ entities -> backref_get Entity_corefGroup h' entity = Some g.
Proof.
  intros H. apply CoreferenceGroup_new_inv in H as (-> & Hents & Hloop).
  apply backref_loop in Hloop as (Hall & _ & _ & _ & Hframe).
  split; [reflexivity|]. split.
  - unfold ImmutableArray_items. rewrite Hframe.
    + rewrite list_lookup_middle by reflexivity. reflexivity.
    + intros Hin. rewrite Forall_forall in Hents.
      apply list_elem_of_In, Hents in Hin. eapply is_Entity_not_fresh; [exact Hin|reflexivity].
  - intros entity Hin. rewrite list.Forall_forall in Hall.
    apply backref_holds_defined; [reflexivity|]. apply Hall, Hin.
Qed.

Lemma CoreferenceGroup_new_links_members_witness :
  exists g h',
    CoreferenceGroup_new [VObj 2%nat; VObj 3%nat] heap_two_entities = Ok g h'
    /\ g = VObj 4%nat
    /\ ImmutableArray_items h' g = [VObj 2%nat; VObj 3%nat]
    /\ forall entity, entity ∈ [VObj 2%nat; VObj 3%nat] ->
         backref_get Entity_corefGroup h' entity = Some g.
Proof.
  eexists _, _. split; [vm_compute; reflexivity|].
  apply (CoreferenceGroup_new_links_members [VObj 2%nat; VObj 3%nat] heap_two_entities).
  vm_compute. reflexivity.
Defined.

Lemma forM_app {A} (body : A -> M unit) (l1 l2 : list A) h :
  forM body (l1 ++ l2) h = (forM body l1 ;;; forM body l2) h.
Proof.
  revert h. induction l1 as [|x l1 IH]; intros h; simpl.
  - reflexivity.
  - unfold bind. destruct (body x h) as [[] h1|e h1]; [|reflexivity].
    rewrite IH. reflexivity.
Qed.

Lemma backref_assign_Ok_intro f x v h c c' :
  backref_cell f h x = Some c -> cell_set c v = inr c' ->
  exists h', backref_assign f x v h = Ok tt h'.
Proof.
  intros Hc Hset.
  destruct f; simpl in Hc |- *;
    unfold Morpheme_assign_word, Morpheme_assign_id, Word_assign_id, Word_assign_phrase,
      Word_assign_governorEdge, Entity_assign_corefGroup, Tree_assign_parent, run_cell_set;
    destruct x as [| | | | |r]; simpl in Hc; try discriminate;
    destruct (h !! r) as [o|] eqn:Hr; simpl in Hc; try discriminate;
    destruct o; simpl in Hc; try discriminate;
    injection Hc as ->; rewrite Hset; eauto.
Qed.

(** The loop of a constructor goes through when every target is still
    unset, or already holds the value. *)
Lemma backref_loop_free f v l : forall h,
  Forall (fun x => backref_holds f VUndefined h x \/ backref_holds f v h x) l ->
  exists h', forM (fun x => backref_assign f x v) l h = Ok tt h'.
Proof.
  induction l as [|x l IH]; intros h Hall; simpl.
  - eexists. reflexivity.
  - inversion Hall as [|? ? Hx Hl]; subst.
    assert (exists c c', backref_cell f h x = Some c /\ cell_set c v = inr c') as (c & c' & Hc & Hset).
    { destruct Hx as [(c & Hc & Hv)|(c & Hc & Hv)]; exists c.
      - destruct (cell_set_first c v) as (c' & Hset & _); [rewrite Hv; reflexivity|]. eauto.
      - exists c. split; [exact Hc|]. rewrite <- Hv. apply cell_set_same. }
    destruct (backref_assign_Ok_intro _ _ _ _ _ _ Hc Hset) as (h1 & Hstep).
    pose proof (backref_assign_holds _ _ _ _ _ _ Hstep) as (Hx1 & _ & Hother & _ & _).
    destruct (IH h1) as (h' & Hrest).
    { eapply Forall_impl; [|exact Hl]. simpl. intros y Hy.
      destruct (decide (y = x)) as [->|Hne]; [right; exact Hx1|].
      destruct Hy as [Hy|Hy]; [left|right]; apply Hother; assumption. }
    exists h'. rewrite (bind_Ok_intro _ _ _ _ _ Hstep). exact Hrest.
Qed.

Lemma backref_holds_alloc f v h o x : backref_holds f v h x -> backref_holds f v (h ++ [o]) x.
Proof.
  intros (c & Hc & Hv). exists c. split; [|exact Hv].
  destruct x as [| | | | |r]; try (simpl in Hc; discriminate).
  unfold backref_cell in *. destruct (h !! r) as [o0|] eqn:Hr; [|destruct f; discriminate].
  rewrite (lookup_app_l_Some _ _ _ _ Hr). exact Hc.
Qed.

(** X11. A failing [new CoreferenceGroup(entities)] is not undone: when an
    Entity of the list already belongs to a group, the constructor throws
    at that Entity, and the Entities before it in the list, which belonged
    to no group, are left with the group that was never returned as their
    [corefGroup]. *)
Theorem CoreferenceGroup_new_failure_is_partial (h : heap) (before after : list value)
    (taken : ref) (ent : Entity) :
  Forall (backref_holds Entity_corefGroup VUndefined h) before ->
  h !! taken = Some (OEntity ent) ->
  isDefined (cell_value (entity_corefGroup ent)) = true ->
  cell_value (entity_corefGroup ent) ≠ VObj (length h) ->
  Forall (is_Entity h) after ->
  exists h',
    CoreferenceGroup_new (before ++ VObj taken :: after) h
    = Throw (TypeError_writeonce (cell_property (entity_corefGroup ent))
               (cell_value (entity_corefGroup ent)) (VObj (length h))) h'
    /\ forall entity, entity ∈ before ->
         backref_get Entity_corefGroup h' entity = Some (VObj (length h)).
Proof.
  intros Hbefore Htaken Hdef Hne Hafter.
  set (g := VObj (length h)).
  set (h1 := h ++ [OCoreferenceGroup {| coref_items := before ++ VObj taken :: after |}]).
  assert (Forall (is_Entity h) (before ++ VObj taken :: after)) as Hents.
  { apply Forall_app. split; [|constructor; [exists taken, ent; auto|exact Hafter]].
    eapply Forall_impl; [|exact Hbefore]. simpl. intros x (c & Hc & _).
    destruct x as [| | | | |r]; try (simpl in Hc; discriminate).
    simpl in Hc. destruct (h !! r) as [[| |e| | | |]|] eqn:Hr; try discriminate.
    exists r, e. auto. }
  assert (VObj taken ∉ before) as Hnotin.
  { intros Hin. rewrite Forall_forall in Hbefore.
    apply list_elem_of_In, Hbefore in Hin as (c & Hc & Hv).
    simpl in Hc. rewrite Htaken in Hc. injection Hc as <-.
    rewrite Hv in Hdef. discriminate. }
  destruct (backref_loop_free Entity_corefGroup g before h1) as (h2 & Hloop).
  { eapply Forall_impl; [|exact Hbefore]. simpl. intros x Hx. left.
    apply backref_holds_alloc, Hx. }
  pose proof (backref_loop _ _ _ _ _ Hloop) as (Hall & _ & _ & _ & Hframe).
  exists h2. split.
  - unfold CoreferenceGroup_new.
    rewrite (bind_Ok_intro _ _ _ _ _ (proj2 (typeCheck_Entities _ _) Hents)).
    unfold bind at 1. unfold alloc. fold h1. fold g.
    apply bind_Throw_intro.
    change (forM (fun x => backref_assign Entity_corefGroup x g) (before ++ VObj taken :: after) h1
            = Throw (TypeError_writeonce (cell_property (entity_corefGroup ent))
                       (cell_value (entity_corefGroup ent)) g) h2).
    rewrite forM_app. rewrite (bind_Ok_intro _ _ _ _ _ Hloop). simpl.
    apply bind_Throw_intro.
    unfold Entity_assign_corefGroup, run_cell_set.
    rewrite (Hframe taken Hnotin). unfold h1.
    rewrite (lookup_app_l_Some _ _ _ _ Htaken).
    rewrite cell_set_other; [reflexivity|exact Hdef|reflexivity|].
    intros E. apply Hne. symmetry. exact E.
  - intros entity Hin. rewrite list.Forall_forall in Hall.
    apply backref_holds_defined; [reflexivity|]. apply Hall, Hin.
Qed.

Lemma CoreferenceGroup_new_failure_is_partial_witness :
  exists h',
    CoreferenceGroup_new [VObj 3%nat; VObj 2%nat] heap_grouped_entity
    = Throw (TypeError_writeonce "corefGroup" (VObj 4%nat) (VObj 5%nat)) h'
    /\ backref_get Entity_corefGroup h' (VObj 3%nat) = Some (VObj 5%nat).
Proof.
  edestruct (CoreferenceGroup_new_failure_is_partial heap_grouped_entity [VObj 3%nat] [] 2%nat)
    as (h' & Hthrow & Hall).
  - constructor; [|constructor]. eexists. split; reflexivity.
  - reflexivity.
  - reflexivity.
  - simpl. discriminate.
  - constructor.
  - exists h'. split; [exact Hthrow|]. apply Hall. left.
Defined.

(** ** SyntaxTree *)

Ltac typeName_cases v h :=
  let cls := fresh "cls" in
  let r := fresh "r" in
  let o := fresh "o" in
  let Hr := fresh "Hr" in
  destruct v as [| | | |cls ?|r]; simpl;
  [ | | | | destruct cls
  | destruct (h !! r) as [o|] eqn:Hr; simpl;
    [destruct o as [?|?|?|?|o|o|?]; simpl;
     [ | | | | destruct (tree_class_of o) | destruct (edge_class_of o) | ] | ] ].

Lemma typeName_undefined h v : typeName h v = Some "undefined" <-> v = VUndefined.
Proof.
  split; [|intros ->; reflexivity].
  typeName_cases v h; intros H; try discriminate; reflexivity.
Qed.

Lemma typeName_string h v : typeName h v = Some "string" <-> exists s, v = VStr s.
Proof.
  split; [|intros (s & ->); reflexivity].
  typeName_cases v h; intros H; try discriminate; eauto.
Qed.

Lemma typeName_Tree h v t :
  typeName h v = Some t -> t ∈ ["SyntaxTree"; "Tree"] -> is_Tree h v.
Proof.
  intros Ht Hin.
  assert (t = "SyntaxTree" \/ t = "Tree") as Hcases.
  { apply elem_of_cons in Hin as [->|Hin]; [auto|].
    apply list_elem_of_singleton in Hin. auto. }
  clear Hin. revert Ht.
  typeName_cases v h; intros [= <-]; destruct Hcases as [?|?]; try discriminate;
    eexists _, _; split; reflexivity || eassumption.
Qed.

Lemma typeCheck_undefined_or_Word h v u h' :
  typeCheck [v] ["undefined"; "Word"] h = Ok u h' -> v = VUndefined \/ is_Word h v.
Proof.
  intros H. apply typeCheck_Ok_same in H as [_ H]. apply typeCheck_single in H as (t & Ht & Hin).
  apply elem_of_cons in Hin as [->|Hin]; [left; apply (typeName_undefined h), Ht|].
  apply list_elem_of_singleton in Hin as ->. right. apply typeName_Word, Ht.
Qed.

Lemma typeCheck_undefined_or_string h v u h' :
  typeCheck [v] ["undefined"; "string"] h = Ok u h' -> v = VUndefined \/ exists s, v = VStr s.
Proof.
  intros H. apply typeCheck_Ok_same in H as [_ H]. apply typeCheck_single in H as (t & Ht & Hin).
  apply elem_of_cons in Hin as [->|Hin]; [left; apply (typeName_undefined h), Ht|].
  apply list_elem_of_singleton in Hin as ->. right. apply (typeName_string h), Ht.
Qed.

Lemma typeCheck_Trees h values u h' :
  typeCheck values ["SyntaxTree"; "Tree"] h = Ok u h' -> Forall (is_Tree h) values.
Proof.
  intros H. apply typeCheck_Ok_same in H as [_ H]. apply typeCheck_Ok_iff in H.
  eapply Forall_impl; [|exact H]. simpl. intros v (t & Ht & Hin). eapply typeName_Tree; eassumption.
Qed.

Lemma Tree_super_inv label terminal children h items h' :
  Tree_super label terminal children h = Ok items h' ->
  h' = h /\ children = Some items /\ Forall (is_Tree h) items
  /\ (exists s, label = VStr s) /\ (terminal = VUndefined \/ is_Word h terminal).
Proof.
  unfold Tree_super. destruct children as [items0|]; [|discriminate].
  intros H.
  apply bind_Ok in H as ([] & h1 & H1 & H). pose proof (typeCheck_Trees _ _ _ _ H1) as Htrees.
  apply typeCheck_Ok_same in H1 as [-> _].
  apply bind_Ok in H as ([] & h1 & H2 & H). apply typeCheck_Ok_same in H2 as [-> H2].
  apply typeCheck_single in H2 as (t & Ht & Hin). apply list_elem_of_singleton in Hin as ->.
  apply typeName_string in Ht.
  apply bind_Ok in H as ([] & h1 & H3 & H). pose proof (typeCheck_undefined_or_Word _ _ _ _ H3).
  apply typeCheck_Ok_same in H3 as [-> _].
  injection H as <- <-. auto.
Qed.

Lemma is_Tree_not_fresh h v : is_Tree h v -> v ≠ VObj (length h).
Proof. intros (r & e & -> & Hr) [= ->]. apply lookup_lt_Some in Hr. lia. Qed.

Lemma is_Word_not_fresh h v : is_Word h v -> v ≠ VObj (length h).
Proof. intros (r & e & -> & Hr) [= ->]. apply lookup_lt_Some in Hr. lia. Qed.

Lemma SyntaxTree_new_inv label terminal children originalLabel h t h' :
  SyntaxTree_new label terminal children originalLabel h = Ok t h' ->
  exists items h3,
    children = Some items /\ t = VObj (length h)
    /\ Forall (is_Tree h) items /\ (exists s, label = VStr s)
    /\ (terminal = VUndefined \/ is_Word h terminal)
    /\ (originalLabel = VUndefined \/ exists s, originalLabel = VStr s)
    /\ (if decide (terminal = VUndefined) then ret tt
        else backref_assign Word_phrase terminal (VObj (length h)))
         (h ++ [OTree {| tree_class_of := ClsSyntaxTree; tree_items := items;
                         tree_label := label; tree_terminal := terminal;
                         tree_parent := writeonlyonce VUndefined "parent";
                         tree_originalLabel := originalLabel |}]) = Ok tt h3
    /\ forM (fun child => backref_assign Tree_parent child (VObj (length h))) items h3 = Ok tt h'.
Proof.
  intros H. unfold SyntaxTree_new in H.
  apply bind_Ok in H as (items & h1 & Hsuper & H).
  apply Tree_super_inv in Hsuper as (-> & -> & Htrees & Hlabel & Hterm).
  apply bind_Ok in H as ([] & h1 & H1 & H). apply typeCheck_Ok_same in H1 as [-> _].
  apply bind_Ok in H as ([] & h1 & H2 & H).
  pose proof (typeCheck_undefined_or_string _ _ _ _ H2) as Hol.
  apply typeCheck_Ok_same in H2 as [-> _].
  apply bind_Ok in H as (r & h2 & Halloc & H). unfold alloc in Halloc. injection Halloc as <- <-.
  apply bind_Ok in H as ([] & h3 & Hphrase & H).
  apply bind_Ok in H as ([] & h4 & Hloop & H). injection H as <- <-.
  exists items, h3. repeat (split; [assumption || reflexivity|]). exact Hloop.
Qed.

(** X12. When [new SyntaxTree(...)] returns a tree, the tree holds the given
    children and is a root, its terminal Word (if there is one) has the tree
    as its [phrase], and every child has the tree as its [parent], so no
    child is a root any more. *)
Theorem SyntaxTree_new_links (label terminal : value) (children : option (list value))
    (originalLabel : value) (h : heap) (t : value) (h' : heap) :
  SyntaxTree_new label terminal children originalLabel h = Ok t h' ->
  t = VObj (length h)
  /\ children = Some (ImmutableArray_items h' t)
  /\ Tree_isRoot h' t = Some true
  /\ (terminal ≠ VUndefined -> backref_get Word_phrase h' terminal = Some t)
  /\ (forall child, child ∈ ImmutableArray_items h' t ->
        backref_get Tree_parent h' child = Some t /\ Tree_isRoot h' child = Some false).
Proof.
  intros H. apply SyntaxTree_new_inv in H
    as (items & h3 & -> & -> & Htrees & _ & Hterm & _ & Hphrase & Hloop).
  set (n := length h) in *.
  set (node := {| tree_class_of := ClsSyntaxTree; tree_items := items;
                  tree_label := label; tree_terminal := terminal;
                  tree_parent := writeonlyonce VUndefined "parent";
                  tree_originalLabel := originalLabel |}) in *.
  apply backref_loop in Hloop as (Hall & Hkeep & _ & _ & Hframe).
  assert (h3 !! n = Some (OTree node)
          /\ (terminal ≠ VUndefined -> backref_holds Word_phrase (VObj n) h3 terminal))
    as [Hnode3 Hterm3].
  { destruct (decide (terminal = VUndefined)) as [->|Hne].
    - injection Hphrase as <-. split; [apply list_lookup_middle; reflexivity|]. congruence.
    - apply backref_assign_holds in Hphrase as (Hx & _ & _ & _ & Hfr). split; [|auto].
      rewrite Hfr; [apply list_lookup_middle; reflexivity|].
      destruct Hterm as [?|Hw]; [contradiction|]. intros E.
      symmetry in E. revert E. apply is_Word_not_fresh, Hw. }
  assert (h' !! n = Some (OTree node)) as Hnode.
  { rewrite Hframe; [exact Hnode3|]. intros Hin. rewrite Forall_forall in Htrees.
    apply list_elem_of_In, Htrees in Hin. eapply is_Tree_not_fresh; [exact Hin|reflexivity]. }
  assert (ImmutableArray_items h' (VObj n) = items) as Hitems.
  { unfold ImmutableArray_items. rewrite Hnode. reflexivity. }
  split; [reflexivity|]. split; [rewrite Hitems; reflexivity|]. split; [|split].
  - unfold Tree_isRoot, backref_get. simpl. rewrite Hnode. reflexivity.
  - intros Hne. apply backref_holds_defined; [reflexivity|]. apply Hkeep; [reflexivity|auto].
  - rewrite Hitems. intros child Hin. rewrite list.Forall_forall in Hall.
    assert (backref_get Tree_parent h' child = Some (VObj n)) as Hp.
    { apply backref_holds_defined; [reflexivity|]. apply Hall, Hin. }
    split; [exact Hp|]. unfold Tree_isRoot. rewrite Hp. reflexivity.
Qed.

Lemma SyntaxTree_new_links_witness :
  exists t h',
    SyntaxTree_new (VStr "S") VUndefined (Some [VObj 5%nat; VObj 6%nat]) VUndefined
      (take 7 heap_parsed_sentence) = Ok t h'
    /\ t = VObj 7%nat
    /\ Some [VObj 5%nat; VObj 6%nat] = Some (ImmutableArray_items h' t)
    /\ Tree_isRoot h' t = Some true
    /\ (VUndefined ≠ VUndefined -> backref_get Word_phrase h' VUndefined = Some t)
    /\ (forall child, child ∈ ImmutableArray_items h' t ->
          backref_get Tree_parent h' child = Some t /\ Tree_isRoot h' child = Some false).
Proof.
  eexists _, _. split; [vm_compute; reflexivity|].
  apply (SyntaxTree_new_links (VStr "S") VUndefined (Some [VObj 5%nat; VObj 6%nat]) VUndefined
           (take 7 heap_parsed_sentence)).
  vm_compute. reflexivity.
Defined.

(** X13. [new SyntaxTree(...)] returns only when [children] is given, all
    children are Trees, the label is a string, the terminal is absent or a
    Word and the original label is absent or a string.  So a call without
    [children] throws, and so does a call whose label is a [PhraseTag]:
    the constructor of [Tree], which runs first, takes strings only. *)
Theorem SyntaxTree_new_requires (label terminal : value) (children : option (list value))
    (originalLabel : value) (h : heap) :
  ((exists t h', SyntaxTree_new label terminal children originalLabel h = Ok t h') ->
   (exists items, children = Some items /\ Forall (is_Tree h) items)
   /\ (exists s, label = VStr s)
   /\ (terminal = VUndefined \/ is_Word h terminal)
   /\ (originalLabel = VUndefined \/ exists s, originalLabel = VStr s))
  /\ (exists e h', SyntaxTree_new label terminal None originalLabel h = Throw e h')
  /\ (forall tagname, exists e h',
        SyntaxTree_new (VEnum PhraseTag tagname) terminal children originalLabel h = Throw e h').
Proof.
  assert (forall l c, (forall t h', SyntaxTree_new l terminal c originalLabel h ≠ Ok t h') ->
            exists e h', SyntaxTree_new l terminal c originalLabel h = Throw e h') as Hthrows.
  { intros l c Hno. destruct (SyntaxTree_new l terminal c originalLabel h) as [t h'|e h'] eqn:E.
    - exfalso. eapply Hno. reflexivity.
    - eauto. }
  split; [|split].
  - intros (t & h' & H). apply SyntaxTree_new_inv in H
      as (items & h3 & -> & _ & Htrees & Hlabel & Hterm & Hol & _).
    split; [eauto|]. auto.
  - apply Hthrows. intros t h' H. apply SyntaxTree_new_inv in H as (items & _ & [=] & _).
  - intros tagname. apply Hthrows. intros t h' H.
    apply SyntaxTree_new_inv in H as (_ & _ & _ & _ & _ & (s & [=]) & _).
Qed.

Lemma SyntaxTree_new_requires_witness :
  (exists items, Some [VObj 5%nat; VObj 6%nat] = Some items
                 /\ Forall (is_Tree (take 7 heap_parsed_sentence)) items)
  /\ (exists s, VStr "S" = VStr s).
Proof.
  destruct (proj1 (SyntaxTree_new_requires (VStr "S") VUndefined (Some [VObj 5%nat; VObj 6%nat])
                     VUndefined (take 7 heap_parsed_sentence))) as (H1 & H2 & _).
  - eexists _, _. vm_compute. reflexivity.
  - split; [exact H1|exact H2].
Defined.

(** ** DepEdge *)

(** X14. [new DepEdge(...)] hands [value] to the constructor of [DAGEdge]
    before [governor] and [dependent] are copied into [src] and [dest].  So
    it returns only when the caller has put a Word into [value.dest] itself
    ([value.src] being absent or a Word), and the edge then runs from that
    [src] to that [dest], whatever [governor] and [dependent] are; called
    with [governor], [dependent] and [type] only, it throws. *)
Theorem DepEdge_new_uses_src_dest (governor dependent type depType originalLabel : value)
    (src dest label : value) (h : heap) :
  (forall e h',
      DepEdge_new governor dependent type depType originalLabel src dest label h = Ok e h' ->
      is_Word h dest /\ (src = VUndefined \/ is_Word h src)
      /\ Edge_src h' e = src /\ Edge_dest h' e = dest)
  /\ (exists err h',
        DepEdge_new governor dependent type depType originalLabel
          VUndefined VUndefined VUndefined h = Throw err h').
Proof.
  split.
  - intros e h' H. pose proof (DepEdge_new_backrefs _ _ _ _ _ _ _ _ _ _ _ H) as (Hs & Hd & _).
    unfold DepEdge_new in H. apply bind_Ok in H as ([] & h1 & Hsuper & _).
    unfold DAGEdge_super in Hsuper.
    apply bind_Ok in Hsuper as ([] & h2 & H1 & Hsuper).
    pose proof (typeCheck_undefined_or_Word _ _ _ _ H1) as Hsrc.
    apply typeCheck_Ok_same in H1 as [-> _].
    apply bind_Ok in Hsuper as ([] & h2 & H2 & _).
    apply typeCheck_Ok_same in H2 as [_ H2]. apply typeCheck_Words in H2.
    inversion H2; subst. auto.
  - destruct (DAGEdge_super_no_dest h VUndefined VUndefined) as (err & Hthrow).
    exists err, h. unfold DepEdge_new. apply bind_Throw_intro. exact Hthrow.
Qed.

Lemma DepEdge_new_uses_src_dest_witness :
  exists e h',
    DepEdge_new VUndefined VUndefined (VStr "NP") VUndefined VUndefined
      (VObj 1%nat) (VObj 3%nat) VUndefined heap_two_words = Ok e h'
    /\ is_Word heap_two_words (VObj 3%nat)
    /\ Edge_src h' e = VObj 1%nat /\ Edge_dest h' e = VObj 3%nat.
Proof.
  eexists _, _. split; [vm_compute; reflexivity|].
  destruct (proj1 (DepEdge_new_uses_src_dest VUndefined VUndefined (VStr "NP") VUndefined
                     VUndefined (VObj 1%nat) (VObj 3%nat) VUndefined heap_two_words) _ _ eq_refl)
    as (Hd & _ & Hsrc & Hdest).
  split; [exact Hd|]. split; [exact Hsrc|exact Hdest].
Defined.

(** ** Sentence *)

Lemma is_Word_VObj h v : is_Word h v -> v = VObj (address v) /\ (address v < length h)%nat.
Proof. intros (r & w & -> & Hr). split; [reflexivity|]. simpl. eapply lookup_lt_Some, Hr. Qed.

Lemma backref_holds_fun f v1 v2 h x :
  backref_holds f v1 h x -> backref_holds f v2 h x -> v1 = v2.
Proof. intros (c1 & H1 & <-) (c2 & H2 & <-). congruence. Qed.

(** X15. When [new Sentence(words)] returns a Sentence for an array of
    Words, its items are the given Words in order, every [words[i]] has
    [id] equal to [i], and no Word occurs twice in the array. *)
Theorem Sentence_new_numbers_words (words : list value) (h : heap) (s : value) (h' : heap) :
  Sentence_new words h = Ok s h' ->
  s = VObj (length h)
  /\ Sentence_items h' s = words
  /\ NoDup words
  /\ forall (i : nat) word, words !! i = Some word ->
       backref_get Word_id_ref h' word = Some (VNum (Z.of_nat i)).
Proof.
  intros H. unfold Sentence_new in H.
  apply bind_Ok in H as ([] & h1 & Htc & H). apply typeCheck_Ok_same in Htc as [-> Htc].
  apply typeCheck_Words in Htc.
  apply bind_Ok in H as (r & h2 & Halloc & H). unfold alloc in Halloc. injection Halloc as <- <-.
  apply bind_Ok in H as ([] & h3 & Hloop & H). injection H as <- <-.
  apply (backref_loop_entries Word_id_ref VNum) in Hloop as (Hall & _ & _ & Hframe);
    [|reflexivity].
  split; [reflexivity|]. split; [|split].
  - unfold Sentence_items. rewrite Hframe.
    + rewrite list_lookup_middle by reflexivity. reflexivity.
    + intros Hin. rewrite Forall_forall in Htc.
      apply list_elem_of_In, Htc in Hin. eapply is_Word_not_fresh; [exact Hin|reflexivity].
  - apply NoDup_alt. intros i j w Hi Hj.
    pose proof (backref_holds_fun _ _ _ _ _ (Hall i w Hi) (Hall j w Hj)) as E.
    injection E as E. lia.
  - intros i w Hi. apply backref_holds_defined; [reflexivity|].
    rewrite <- (Z.add_0_l (Z.of_nat i)). apply Hall, Hi.
Qed.

Lemma Sentence_new_numbers_words_witness :
  exists s h',
    Sentence_new [VObj 3%nat; VObj 1%nat] heap_two_words = Ok s h'
    /\ s = VObj 4%nat
    /\ Sentence_items h' s = [VObj 3%nat; VObj 1%nat]
    /\ NoDup [VObj 3%nat; VObj 1%nat]
    /\ forall (i : nat) word, [VObj 3%nat; VObj 1%nat] !! i = Some word ->
         backref_get Word_id_ref h' word = Some (VNum (Z.of_nat i)).
Proof.
  eexists _, _. split; [vm_compute; reflexivity|].
  apply (Sentence_new_numbers_words [VObj 3%nat; VObj 1%nat] heap_two_words).
  vm_compute. reflexivity.
Defined.

(** ** Word *)

Lemma Word_link_loop_keeps this morphemes : forall k h h',
  forM_entries (fun i morph =>
      Morpheme_assign_word morph this ;;; Morpheme_assign_id morph (VNum i)) k morphemes h
    = Ok tt h' ->
  forall f v x, isDefined v = true -> backref_holds f v h x -> backref_holds f v h' x.
Proof.
  induction morphemes as [|m ms IH]; intros k h h' H f v x Hv Hx; simpl in H.
  - injection H as <-. exact Hx.
  - apply bind_Ok in H as ([] & h1 & Hstep & Hrest).
    apply bind_Ok in Hstep as ([] & h0 & Hw & Hi).
    apply (backref_assign_holds Morpheme_word) in Hw as (_ & Hk1 & _).
    apply (backref_assign_holds Morpheme_id) in Hi as (_ & Hk2 & _).
    eapply IH; [exact Hrest|exact Hv|]. apply Hk2, Hk1; assumption.
Qed.

(** X16. [new Word(...)] returns only for morphemes that are pairwise
    distinct objects, none of which is already held by a Word of the store:
    a Morpheme belongs to one Word, at one position. *)
Theorem Word_new_morphemes_distinct_and_free (surface : value) (morphemes : list value)
    (h : heap) (word : value) (h' : heap) :
  Word_new surface morphemes h = Ok word h' ->
  NoDup morphemes
  /\ forall morph other, morph ∈ morphemes -> is_Word h other ->
       ~ backref_holds Morpheme_word other h morph.
Proof.
  intros H. unfold Word_new in H.
  apply bind_Ok in H as ([] & h1 & Htc & H). apply typeCheck_Ok_same in Htc as [-> _].
  apply bind_Ok in H as ([] & h1 & Htc & H). apply typeCheck_Ok_same in Htc as [-> _].
  apply bind_Ok in H as (r & h2 & Halloc & H). unfold alloc in Halloc. injection Halloc as <- <-.
  apply bind_Ok in H as ([] & h3 & Hloop & H). injection H as <- <-.
  pose proof (Word_link_loop _ _ _ _ _ Hloop) as (_ & Hall & _).
  pose proof (Word_link_loop_keeps _ _ _ _ _ Hloop) as Hkeep.
  split.
  - apply NoDup_alt. intros i j m Hi Hj.
    destruct (Hall i m Hi) as (r1 & m1 & -> & Hr1 & Hid1 & _).
    destruct (Hall j _ Hj) as (r2 & m2 & [= <-] & Hr2 & Hid2 & _).
    rewrite Hr1 in Hr2. injection Hr2 as <-. rewrite Hid1 in Hid2. injection Hid2 as E. lia.
  - intros morph other Hin Hother Hheld.
    apply list_elem_of_lookup in Hin as (i & Hi).
    destruct (Hall i morph Hi) as (r1 & m1 & -> & Hr1 & _ & Hword).
    pose proof (is_Word_defined _ _ Hother) as Hdef.
    apply (backref_holds_alloc _ _ _ (OWord
             {| word_items := morphemes; word_surface := surface;
                word_id := writeonlyonce (VNum (-1)) "id";
                word_phrase := writeonlyonce VUndefined "phrase";
                word_governorEdge := writeonlyonce VUndefined "governorEdge";
                word_dependentEdges := []; word_argumentRoles := [];
                word_predicateRoles := [] |})) in Hheld.
    apply (Hkeep _ _ _ Hdef) in Hheld. destruct Hheld as (c & Hc & Hv).
    simpl in Hc. rewrite Hr1 in Hc. injection Hc as <-.
    rewrite Hword in Hv. revert Hv. apply not_eq_sym, is_Word_not_fresh, Hother.
Qed.

Lemma Word_new_morphemes_distinct_and_free_witness :
  NoDup [VObj 0%nat; VObj 1%nat]
  /\ forall morph other, morph ∈ [VObj 0%nat; VObj 1%nat] -> is_Word heap_two_morphemes other ->
       ~ backref_holds Morpheme_word other heap_two_morphemes morph.
Proof.
  eapply (Word_new_morphemes_distinct_and_free (VStr "나는") [VObj 0%nat; VObj 1%nat]
            heap_two_morphemes).
  vm_compute. reflexivity.
Defined.

(** ** Reconstruction from a native sentence *)

Lemma mapM_Ok_inv {A B} (f : A -> M B) l : forall h bs h',
  mapM f l h = Ok bs h' -> Forall2 (fun a b => exists h1 h2, f a h1 = Ok b h2) l bs.
Proof.
  induction l as [|a l IH]; intros h bs h' H; simpl in H.
  - injection H as <- <-. constructor.
  - apply bind_Ok in H as (b & h1 & Hb & H). apply bind_Ok in H as (bs' & h2 & Hbs & H).
    injection H as <- <-. constructor; [eauto|]. eapply IH, Hbs.
Qed.

Lemma Sentence_reconstruct_inv jsent h0 this h' :
  Sentence_reconstruct jsent h0 = Ok this h' ->
  exists words h1 h12 sent,
    mapM reconstruct_word (js_words jsent) h0 = Ok words h1
    /\ Forall (is_Word h1) words
    /\ this = VObj (length h1)
    /\ sent_items sent = words
    /\ js_syntaxTree jsent = None /\ js_dependencies jsent = []
    /\ (exists roles ha hb, mapM (_getRole this) (js_roles jsent) ha = Ok roles hb)
    /\ heap_evolves (h1 ++ [OSentence sent]) h12
    /\ forM_entries (fun i word => backref_assign Word_id_ref word (VNum i)) 0 words h12
       = Ok tt h'.
Proof.
  intros H. unfold Sentence_reconstruct in H.
  apply bind_Ok in H as (words & h1 & Hwords & H).
  apply bind_Ok in H as ([] & h1' & Htc & H). apply typeCheck_Ok_same in Htc as [-> Htc].
  apply typeCheck_Words in Htc.
  apply bind_Ok in H as (r & h2 & Halloc & H).
  unfold alloc in Halloc. injection Halloc as <- <-.
  set (sent := {| sent_items := words;
                  sent_syntaxTree := Accessor (writeonlyonce VUndefined "syntaxTree");
                  sent_dependencies := []; sent_roles := [];
                  sent_entities := []; sent_corefGroups := [] |}) in *.
  apply bind_Ok in H as (tree & h3 & Htree & H).
  destruct (js_syntaxTree jsent) as [jtree|] eqn:Hjtree.
  { destruct (_reconSyntaxTree_throws (VObj (length h1)) jtree (h1 ++ [OSentence sent]))
      as (err & h3' & Hthrow).
    rewrite Hthrow in Htree. discriminate. }
  injection Htree as <- <-.
  apply bind_Ok in H as ([] & h4 & Hat & H). apply Sentence_assign_syntaxTree_evolves in Hat.
  apply bind_Ok in H as (deps & h5 & Hdeps & H).
  pose proof (mapM_throwing _ _ _ _ _ (_getDepEdge_throws _) Hdeps) as Hnil.
  rewrite Hnil in Hdeps. injection Hdeps as <- <-.
  apply bind_Ok in H as ([] & h6 & Had & H).
  apply Sentence_assign_dependencies_evolves in Had.
  apply bind_Ok in H as (roles & h7 & Hroles & H).
  pose proof Hroles as Hroles0.
  apply (mapM_invariant _ (fun _ _ _ => True) h6) in Hroles as [Her _];
    [| auto | intros a h b hb _ Hstep; split; [eapply _getRole_evolves, Hstep | exact I]
     | apply heap_evolves_refl].
  apply bind_Ok in H as ([] & h8 & Har & H). apply Sentence_assign_roles_evolves in Har.
  apply bind_Ok in H as (ents & h9 & Hmap & H).
  apply (mapM_invariant _ (fun _ _ _ => True) h8) in Hmap as [Hee _];
    [| auto
     | intros a h b hb _ Hstep; apply _getEntity_inv in Hstep as (_ & Hev & _); auto
     | apply heap_evolves_refl].
  apply bind_Ok in H as ([] & h10 & Hae & H).
  apply Sentence_assign_entities_evolves in Hae.
  apply bind_Ok in H as (cgs & h11 & Hcgs & H).
  apply (mapM_invariant _ (fun _ _ _ => True) h10) in Hcgs as [Hec _];
    [| auto
     | intros c0 h b hb H0 Hstep; split; [|exact I];
       eapply (_getCorefGroup_inv _ h10); eassumption
     | apply heap_evolves_refl].
  apply bind_Ok in H as ([] & h12 & Hac & H).
  apply Sentence_assign_corefGroups_evolves in Hac.
  apply bind_Ok in H as ([] & h13 & Hloop & H). injection H as <- <-.
  exists words, h1, h12, sent.
  split; [exact Hwords|]. split; [exact Htc|]. split; [reflexivity|]. split; [reflexivity|].
  split; [reflexivity|]. split; [exact Hnil|]. split; [eauto|]. split; [|exact Hloop].
  eapply heap_evolves_trans; [exact Hat|].
  eapply heap_evolves_trans; [exact Had|].
  eapply heap_evolves_trans; [exact Her|].
  eapply heap_evolves_trans; [exact Har|].
  eapply heap_evolves_trans; [exact Hee|].
  eapply heap_evolves_trans; [exact Hae|].
  eapply heap_evolves_trans; [exact Hec|exact Hac].
Qed.

(** X17. Reconstruction never returns a Sentence for a native sentence that
    has a syntax tree or a dependency edge: rebuilding a tree ends in a leaf
    whose [children] are [undefined], which the constructor of [Tree]
    rejects, and a dependency edge is built without [dest]. *)
Theorem Sentence_reconstruct_no_tree_no_dependencies (jsent : JSentence) (h : heap)
    (s : value) (h' : heap) :
  Sentence_reconstruct jsent h = Ok s h' ->
  js_syntaxTree jsent = None /\ js_dependencies jsent = [].
Proof.
  intros H. apply Sentence_reconstruct_inv in H
    as (words & h1 & h12 & sent & _ & _ & _ & _ & Htree & Hdeps & _).
  auto.
Qed.

Lemma Sentence_reconstruct_no_tree_no_dependencies_witness :
  js_syntaxTree jsent_coref = None /\ js_dependencies jsent_coref = [].
Proof.
  eapply (Sentence_reconstruct_no_tree_no_dependencies jsent_coref []).
  vm_compute. reflexivity.
Defined.

Lemma Morpheme_new_inv surface tag originalTag reference h m h' :
  Morpheme_new surface tag originalTag reference h = Ok m h' ->
  (exists s, surface = VStr s)
  /\ (exists t, typeName h tag = Some t /\ t ∈ ["string"; "POS"])
  /\ (originalTag = VUndefined \/ exists s, originalTag = VStr s).
Proof.
  intros H. unfold Morpheme_new in H.
  apply bind_Ok in H as ([] & h1 & H1 & H). apply typeCheck_Ok_same in H1 as [-> H1].
  apply typeCheck_single in H1 as (t & Ht & Hin). apply list_elem_of_singleton in Hin as ->.
  apply typeName_string in Ht.
  apply bind_Ok in H as ([] & h1 & H2 & H). apply typeCheck_Ok_same in H2 as [-> H2].
  apply typeCheck_single in H2.
  apply bind_Ok in H as ([] & h1 & H3 & H). apply typeCheck_undefined_or_string in H3.
  auto.
Qed.

Lemma _getWord_Word this jword h v h' :
  _getWord this jword h = Ok v h' -> isDefined v = true -> jword ≠ None.
Proof. destruct jword; [discriminate|]. intros [= <- <-]. discriminate. Qed.

(** X18. What reconstruction demands of the native data: every morpheme's
    surface is a string and its original tag is a string or [undefined]
    (a [null] makes the constructor of Morpheme throw), every word's surface
    is a string, and every role edge has both a predicate and an argument. *)
Theorem Sentence_reconstruct_native_requirements (jsent : JSentence) (h : heap)
    (s : value) (h' : heap) :
  Sentence_reconstruct jsent h = Ok s h' ->
  (forall w, w ∈ js_words jsent ->
     (exists str, jw_surface w = VStr str)
     /\ forall m, m ∈ jw_morphemes w ->
          (exists str, jm_surface m = VStr str)
          /\ jm_originalTag m ≠ VNull
          /\ (jm_originalTag m = VUndefined \/ exists str, jm_originalTag m = VStr str))
  /\ (forall role, role ∈ js_roles jsent ->
        jr_predicate role ≠ None /\ jr_argument role ≠ None).
Proof.
  intros H. apply Sentence_reconstruct_inv in H
    as (words & h1 & h12 & sent & Hwords & _ & -> & _ & _ & _ & (roles & ha & hb & Hroles) & _).
  split.
  - intros w Hw. apply mapM_Ok_inv in Hwords.
    destruct (Forall2_elem_left _ _ _ _ Hwords Hw) as (W & _ & h2 & h3 & HW).
    unfold reconstruct_word in HW. apply bind_Ok in HW as (ms & h4 & Hms & HW).
    split.
    + unfold Word_new in HW.
      apply bind_Ok in HW as ([] & h5 & H1 & HW). apply typeCheck_Ok_same in H1 as [-> _].
      apply bind_Ok in HW as ([] & h5 & H2 & _). apply typeCheck_Ok_same in H2 as [_ H2].
      apply typeCheck_single in H2 as (t & Ht & Hin). apply list_elem_of_singleton in Hin as ->.
      apply (typeName_string h4), Ht.
    + intros m Hm. apply mapM_Ok_inv in Hms.
      destruct (Forall2_elem_left _ _ _ _ Hms Hm) as (mo & _ & h5 & h6 & Hmo).
      apply Morpheme_new_inv in Hmo as (Hs & _ & Ho).
      split; [exact Hs|]. split; [|exact Ho].
      destruct Ho as [->|(str & ->)]; discriminate.
  - intros role Hrole. apply mapM_Ok_inv in Hroles.
    destruct (Forall2_elem_left _ _ _ _ Hroles Hrole) as (edge & _ & h2 & h3 & Hedge).
    unfold _getRole in Hedge.
    apply bind_Ok in Hedge as (predicate & h4 & Hp & Hedge).
    apply bind_Ok in Hedge as (argument & h5 & Ha & Hedge).
    apply bind_Ok in Hedge as (modifiers & h6 & _ & Hedge).
    apply RoleEdge_new_Ok_inv in Hedge as (_ & _ & _ & Hpw & Haw).
    split; eapply _getWord_Word; try eassumption; eapply is_Word_defined; eassumption.
Qed.

Lemma Sentence_reconstruct_native_requirements_witness :
  (forall w, w ∈ js_words jsent_coref ->
     (exists str, jw_surface w = VStr str)
     /\ forall m, m ∈ jw_morphemes w ->
          (exists str, jm_surface m = VStr str)
          /\ jm_originalTag m ≠ VNull
          /\ (jm_originalTag m = VUndefined \/ exists str, jm_originalTag m = VStr str))
  /\ (forall role, role ∈ js_roles jsent_coref ->
        jr_predicate role ≠ None /\ jr_argument role ≠ None).
Proof.
  eapply (Sentence_reconstruct_native_requirements jsent_coref []).
  vm_compute. reflexivity.
Defined.

Lemma mapM_length {A B} (f : A -> M B) l h bs h' :
  mapM f l h = Ok bs h' -> length bs = length l.
Proof. intros H. apply mapM_Ok_inv in H. symmetry. eapply Forall2_length, H. Qed.

(** X19. A Sentence reconstructed from a native sentence has one Word per
    native word, and the Word at position [i] has [id] equal to [i]. *)
Theorem Sentence_reconstruct_numbers_words (jsent : JSentence) (h : heap)
    (s : value) (h' : heap) :
  Sentence_reconstruct jsent h = Ok s h' ->
  length (Sentence_items h' s) = length (js_words jsent)
  /\ NoDup (Sentence_items h' s)
  /\ forall (i : nat) word, Sentence_items h' s !! i = Some word ->
       is_Word h' word /\ backref_get Word_id_ref h' word = Some (VNum (Z.of_nat i)).
Proof.
  intros H. apply Sentence_reconstruct_inv in H
    as (words & h1 & h12 & sent & Hwords & Htc & -> & Hitems & _ & _ & _ & Hev & Hloop).
  pose proof Hloop as Hloop0. apply Word_id_loop_evolves in Hloop0.
  apply (backref_loop_entries Word_id_ref VNum) in Hloop as (Hall & _ & _ & Hframe);
    [|reflexivity].
  assert (Sentence_items h' (VObj (length h1)) = words) as Hits.
  { destruct (Hev (length h1) (OSentence sent)) as (o' & Ho' & Hobj);
      [apply list_lookup_middle; reflexivity|].
    destruct o' as [| | | | | |sent']; simpl in Hobj; try contradiction.
    destruct Hobj as [Hsame _].
    unfold Sentence_items. rewrite Hframe.
    - rewrite Ho'. congruence.
    - intros Hin. rewrite Forall_forall in Htc.
      apply list_elem_of_In, Htc in Hin. eapply is_Word_not_fresh; [exact Hin|reflexivity]. }
  rewrite Hits. split; [eapply mapM_length, Hwords|]. split.
  - apply NoDup_alt. intros i j w Hi Hj.
    pose proof (backref_holds_fun _ _ _ _ _ (Hall i w Hi) (Hall j w Hj)) as E.
    injection E as E. lia.
  - intros i w Hi. split.
    + eapply is_Word_evolves; [exact Hloop0|].
      eapply is_Word_evolves; [exact Hev|].
      apply is_Word_alloc. rewrite Forall_forall in Htc.
      apply Htc, list_elem_of_In, list_elem_of_lookup. eauto.
    + apply backref_holds_defined; [reflexivity|].
      rewrite <- (Z.add_0_l (Z.of_nat i)). apply Hall, Hi.
Qed.

Lemma Sentence_reconstruct_numbers_words_witness :
  exists s h',
    Sentence_reconstruct jsent_coref [] = Ok s h'
    /\ Sentence_items h' s = [VObj 2%nat; VObj 5%nat]
    /\ length (Sentence_items h' s) = length (js_words jsent_coref)
    /\ NoDup (Sentence_items h' s)
    /\ forall (i : nat) word, Sentence_items h' s !! i = Some word ->
         is_Word h' word /\ backref_get Word_id_ref h' word = Some (VNum (Z.of_nat i)).
Proof.
  eexists _, _. split; [vm_compute; reflexivity|]. split; [vm_compute; reflexivity|].
  apply (Sentence_reconstruct_numbers_words jsent_coref []).
  vm_compute. reflexivity.
Defined.

(** ** Sentence.verbs, Sentence.modifiers *)

(** The loop shared by the three word-class getters. *)
Lemma word_class_member (inclusion exclusion : Morpheme -> bool) h sentence word :
  word ∈ fold_left (fun result word =>
      let i := Array_findIndex inclusion (Word_morphemes h word) in
      let k := lodash_findLastIndex exclusion (Word_morphemes h word) in
      if bool_decide (i ≠ -1) && bool_decide (i > k) then result ++ [word] else result)
    (Sentence_items h sentence) []
  <-> word ∈ Sentence_items h sentence
      /\ exists (i : nat) (k : Z),
           earliest_index inclusion (Word_morphemes h word) i
           /\ latest_index_or_minus1 exclusion (Word_morphemes h word) k
           /\ Z.of_nat i > k.
Proof.
  cbv zeta.
  rewrite (fold_left_push_if
    (fun word =>
       bool_decide (Array_findIndex inclusion (Word_morphemes h word) ≠ -1)
       && bool_decide (Array_findIndex inclusion (Word_morphemes h word)
                       > lodash_findLastIndex exclusion (Word_morphemes h word)))).
  set (ms := Word_morphemes h word).
  pose proof (Array_findIndex_earliest inclusion ms) as Hfirst.
  pose proof (lodash_findLastIndex_latest exclusion ms) as Hlast.
  split.
  - intros [Hnil|[Hin Htest]]; [inversion Hnil|]. split; [exact Hin|].
    apply andb_true_iff in Htest as [Hne Hgt].
    apply bool_decide_eq_true in Hne, Hgt.
    destruct Hfirst as [[Hr _]|(n & Hr & Hn)]; [contradiction|].
    exists n, (lodash_findLastIndex exclusion ms).
    split; [exact Hn|]. split; [exact Hlast|]. rewrite <- Hr. exact Hgt.
  - intros (Hin & i & k & Hi & Hk & Hik). right. split; [exact Hin|].
    destruct Hfirst as [[_ Hall]|(n & Hr & Hn)].
    + exfalso. eapply earliest_index_not_all_false; eassumption.
    + rewrite (earliest_index_unique _ _ _ _ Hn Hi) in Hr.
      rewrite (latest_index_unique _ _ _ _ Hlast Hk).
      rewrite Hr. apply andb_true_iff. split; apply bool_decide_eq_true; lia.
Qed.

Lemma word_class_sublist (test : value -> bool) (l : list value) : forall acc,
  exists picked, fold_left (fun result w => if test w then result ++ [w] else result) l acc
                 = acc ++ picked /\ sublist picked l.
Proof.
  induction l as [|w l IH]; intros acc; simpl.
  - exists []. rewrite app_nil_r. split; [reflexivity|constructor].
  - destruct (test w).
    + destruct (IH (acc ++ [w])) as (picked & -> & Hsub).
      exists (w :: picked). rewrite <- app_assoc. split; [reflexivity|].
      apply sublist_skip, Hsub.
    + destruct (IH acc) as (picked & -> & Hsub). exists picked. split; [reflexivity|].
      apply sublist_cons, Hsub.
Qed.

Section PredicateClassRule.

Variable POS_isPredicate : value -> bool.
Variable POS_equals_XSV : value -> bool.
Variable POS_startsWith : value -> string -> bool.

Lemma verbs_exclusion_unfold m :
  verbs_exclusion POS_startsWith m
  = POS_startsWith (morph_tag m) "ETN" || POS_startsWith (morph_tag m) "ETM"
    || POS_startsWith (morph_tag m) "XSN" || POS_startsWith (morph_tag m) "XSA"
    || POS_startsWith (morph_tag m) "XSM".
Proof.
  unfold verbs_exclusion, Morpheme_hasTagOneOf. simpl.
  rewrite orb_false_r, !orb_assoc. reflexivity.
Qed.

Lemma modifiers_inclusion_unfold m :
  modifiers_inclusion POS_isPredicate POS_startsWith m
  = POS_isPredicate (morph_tag m) || POS_startsWith (morph_tag m) "ETM"
    || POS_startsWith (morph_tag m) "XSA" || POS_startsWith (morph_tag m) "XSM".
Proof.
  unfold modifiers_inclusion, Morpheme_isPredicate, Morpheme_hasTagOneOf. simpl.
  rewrite orb_false_r, !orb_assoc. reflexivity.
Qed.

Lemma modifiers_exclusion_unfold m :
  modifiers_exclusion POS_startsWith m
  = POS_startsWith (morph_tag m) "ETN" || POS_startsWith (morph_tag m) "XSN"
    || POS_startsWith (morph_tag m) "XSV".
Proof.
  unfold modifiers_exclusion, Morpheme_hasTagOneOf. simpl.
  rewrite orb_false_r, !orb_assoc. reflexivity.
Qed.

(** X20. A Word is among [verbs] exactly when it is a Word of the Sentence,
    has a morpheme that is predicate-category or tagged XSV, and the earliest
    index of such a morpheme is strictly greater than the latest index of a
    morpheme whose tag starts with ETN, ETM, XSN, XSA or XSM (-1 when there
    is none). *)
Theorem Sentence_verbs_rule (h : heap) (sentence word : value) :
  word ∈ Sentence_verbs POS_isPredicate POS_equals_XSV POS_startsWith h sentence
  <-> word ∈ Sentence_items h sentence
      /\ exists (i : nat) (k : Z),
           earliest_index (fun m => POS_isPredicate (morph_tag m)
                                    || POS_equals_XSV (morph_tag m))
             (Word_morphemes h word) i
           /\ latest_index_or_minus1
                (fun m => POS_startsWith (morph_tag m) "ETN"
                          || POS_startsWith (morph_tag m) "ETM"
                          || POS_startsWith (morph_tag m) "XSN"
                          || POS_startsWith (morph_tag m) "XSA"
                          || POS_startsWith (morph_tag m) "XSM")
                (Word_morphemes h word) k
           /\ Z.of_nat i > k.
Proof.
  unfold Sentence_verbs. rewrite word_class_member.
  split; intros (Hin & i & k & Hi & Hk & Hik); (split; [exact Hin|]); exists i, k;
    (split; [exact Hi|]); (split; [|exact Hik]).
  - eapply latest_index_ext; [apply verbs_exclusion_unfold|exact Hk].
  - eapply latest_index_ext; [intros x; symmetry; apply verbs_exclusion_unfold|exact Hk].
Qed.

(** X21. A Word is among [modifiers] exactly when it is a Word of the
    Sentence, has a morpheme that is predicate-category (the test [verbs]
    uses, not [isModifier]) or whose tag starts with ETM, XSA or XSM, and
    the earliest index of such a morpheme is strictly greater than the
    latest index of a morpheme whose tag starts with ETN, XSN or XSV (-1
    when there is none). *)
Theorem Sentence_modifiers_rule (h : heap) (sentence word : value) :
  word ∈ Sentence_modifiers POS_isPredicate POS_startsWith h sentence
  <-> word ∈ Sentence_items h sentence
      /\ exists (i : nat) (k : Z),
           earliest_index (fun m => POS_isPredicate (morph_tag m)
                                    || POS_startsWith (morph_tag m) "ETM"
                                    || POS_startsWith (morph_tag m) "XSA"
                                    || POS_startsWith (morph_tag m) "XSM")
             (Word_morphemes h word) i
           /\ latest_index_or_minus1
                (fun m => POS_startsWith (morph_tag m) "ETN"
                          || POS_startsWith (morph_tag m) "XSN"
                          || POS_startsWith (morph_tag m) "XSV")
                (Word_morphemes h word) k
           /\ Z.of_nat i > k.
Proof.
  unfold Sentence_modifiers. rewrite word_class_member.
  split; intros (Hin & i & k & Hi & Hk & Hik); (split; [exact Hin|]); exists i, k;
    (split; [|split; [|exact Hik]]).
  - eapply earliest_index_ext; [apply modifiers_inclusion_unfold|exact Hi].
  - eapply latest_index_ext; [apply modifiers_exclusion_unfold|exact Hk].
  - eapply earliest_index_ext; [intros x; symmetry; apply modifiers_inclusion_unfold|exact Hi].
  - eapply latest_index_ext; [intros x; symmetry; apply modifiers_exclusion_unfold|exact Hk].
Qed.

Lemma exists_earliest {A} (p : A -> bool) (l : list A) x :
  x ∈ l -> p x = true -> exists i, earliest_index p l i.
Proof.
  intros Hin Hp. destruct (Array_findIndex_earliest p l) as [[_ Hall]|(n & _ & Hn)]; [|eauto].
  rewrite list.Forall_forall in Hall. rewrite (Hall x Hin) in Hp. discriminate.
Qed.

(** X22. A Word of the Sentence that has a predicate-category morpheme and
    no morpheme whose tag starts with ETN, ETM, XSN, XSA, XSM or XSV is
    reported by [verbs] and by [modifiers] alike. *)
Theorem predicate_word_is_verb_and_modifier (h : heap) (sentence word : value) (m : Morpheme) :
  word ∈ Sentence_items h sentence ->
  m ∈ Word_morphemes h word -> POS_isPredicate (morph_tag m) = true ->
  Forall (fun m' => Morpheme_hasTagOneOf POS_startsWith m'
                      ["ETN"; "ETM"; "XSN"; "XSA"; "XSM"; "XSV"] = false)
    (Word_morphemes h word) ->
  word ∈ Sentence_verbs POS_isPredicate POS_equals_XSV POS_startsWith h sentence
  /\ word ∈ Sentence_modifiers POS_isPredicate POS_startsWith h sentence.
Proof.
  intros Hin Hm Hpred Hnone.
  assert (forall m', m' ∈ Word_morphemes h word ->
            POS_startsWith (morph_tag m') "ETN" = false
            /\ POS_startsWith (morph_tag m') "ETM" = false
            /\ POS_startsWith (morph_tag m') "XSN" = false
            /\ POS_startsWith (morph_tag m') "XSA" = false
            /\ POS_startsWith (morph_tag m') "XSM" = false
            /\ POS_startsWith (morph_tag m') "XSV" = false) as Hno.
  { intros m' Hm'. rewrite list.Forall_forall in Hnone. specialize (Hnone m' Hm').
    unfold Morpheme_hasTagOneOf in Hnone. simpl in Hnone.
    repeat (apply orb_false_iff in Hnone as [? Hnone]). repeat split; assumption. }
  split.
  - unfold Sentence_verbs. apply word_class_member. split; [exact Hin|].
    destruct (exists_earliest (verbs_inclusion POS_isPredicate POS_equals_XSV) _ m Hm)
      as (i & Hi).
    { unfold verbs_inclusion, Morpheme_isPredicate. rewrite Hpred. reflexivity. }
    exists i, (-1). split; [exact Hi|]. split; [|lia].
    left. split; [reflexivity|]. apply list.Forall_forall. intros m' Hm'.
    rewrite verbs_exclusion_unfold. destruct (Hno m' Hm') as (-> & -> & -> & -> & -> & _).
    reflexivity.
  - unfold Sentence_modifiers. apply word_class_member. split; [exact Hin|].
    destruct (exists_earliest (modifiers_inclusion POS_isPredicate POS_startsWith) _ m Hm)
      as (i & Hi).
    { unfold modifiers_inclusion, Morpheme_isPredicate. rewrite Hpred. reflexivity. }
    exists i, (-1). split; [exact Hi|]. split; [|lia].
    left. split; [reflexivity|]. apply list.Forall_forall. intros m' Hm'.
    rewrite modifiers_exclusion_unfold. destruct (Hno m' Hm') as (-> & _ & -> & _ & _ & ->).
    reflexivity.
Qed.

End PredicateClassRule.

Lemma Sentence_verbs_rule_witness :
  Sentence_verbs tag_isPredicate tag_equals_XSV tag_startsWith heap_nouns_sentence (VObj 7%nat)
  = [VObj 3%nat]
  /\ (VObj 3%nat ∈ Sentence_verbs tag_isPredicate tag_equals_XSV tag_startsWith
                     heap_nouns_sentence (VObj 7%nat)
      <-> VObj 3%nat ∈ Sentence_items heap_nouns_sentence (VObj 7%nat)
          /\ exists (i : nat) (k : Z),
               earliest_index (fun m => tag_isPredicate (morph_tag m)
                                        || tag_equals_XSV (morph_tag m))
                 (Word_morphemes heap_nouns_sentence (VObj 3%nat)) i
               /\ latest_index_or_minus1
                    (fun m => tag_startsWith (morph_tag m) "ETN"
                              || tag_startsWith (morph_tag m) "ETM"
                              || tag_startsWith (morph_tag m) "XSN"
                              || tag_startsWith (morph_tag m) "XSA"
                              || tag_startsWith (morph_tag m) "XSM")
                    (Word_morphemes heap_nouns_sentence (VObj 3%nat)) k
               /\ Z.of_nat i > k).
Proof.
  split; [vm_compute; reflexivity|].
  apply (Sentence_verbs_rule tag_isPredicate tag_equals_XSV tag_startsWith
           heap_nouns_sentence (VObj 7%nat) (VObj 3%nat)).
Defined.

Lemma Sentence_modifiers_rule_witness :
  Sentence_modifiers tag_isPredicate tag_startsWith heap_nouns_sentence (VObj 7%nat) = []
  /\ (VObj 6%nat ∈ Sentence_modifiers tag_isPredicate tag_startsWith
                     heap_nouns_sentence (VObj 7%nat)
      <-> VObj 6%nat ∈ Sentence_items heap_nouns_sentence (VObj 7%nat)
          /\ exists (i : nat) (k : Z),
               earliest_index (fun m => tag_isPredicate (morph_tag m)
                                        || tag_startsWith (morph_tag m) "ETM"
                                        || tag_startsWith (morph_tag m) "XSA"
                                        || tag_startsWith (morph_tag m) "XSM")
                 (Word_morphemes heap_nouns_sentence (VObj 6%nat)) i
               /\ latest_index_or_minus1
                    (fun m => tag_startsWith (morph_tag m) "ETN"
                              || tag_startsWith (morph_tag m) "XSN"
                              || tag_startsWith (morph_tag m) "XSV")
                    (Word_morphemes heap_nouns_sentence (VObj 6%nat)) k
               /\ Z.of_nat i > k).
Proof.
  split; [vm_compute; reflexivity|].
  apply (Sentence_modifiers_rule tag_isPredicate tag_startsWith
           heap_nouns_sentence (VObj 7%nat) (VObj 6%nat)).
Defined.

(** In the parsed sentence 밥 먹, the Word 먹/VV is a verb and a modifier. *)
Lemma predicate_word_is_verb_and_modifier_witness :
  VObj 3%nat ∈ Sentence_verbs tag_isPredicate tag_equals_XSV tag_startsWith
                 heap_parsed_sentence (VObj 4%nat)
  /\ VObj 3%nat ∈ Sentence_modifiers tag_isPredicate tag_startsWith
                    heap_parsed_sentence (VObj 4%nat).
Proof.
  eapply (predicate_word_is_verb_and_modifier tag_isPredicate tag_equals_XSV tag_startsWith
            heap_parsed_sentence (VObj 4%nat) (VObj 3%nat)).
  - apply (bool_decide_unpack _). vm_compute. exact I.
  - vm_compute. left.
  - vm_compute. reflexivity.
  - vm_compute. repeat constructor.
Defined.

(** X23. [nouns], [verbs] and [modifiers] return Words of the Sentence in
    sentence order: each result is a subsequence of the Sentence's items. *)
Theorem word_classes_in_sentence_order (POS_isNoun POS_isPredicate POS_equals_XSV : value -> bool)
    (POS_startsWith : value -> string -> bool) (h : heap) (sentence : value) :
  sublist (Sentence_nouns POS_isNoun POS_startsWith h sentence) (Sentence_items h sentence)
  /\ sublist (Sentence_verbs POS_isPredicate POS_equals_XSV POS_startsWith h sentence)
       (Sentence_items h sentence)
  /\ sublist (Sentence_modifiers POS_isPredicate POS_startsWith h sentence)
       (Sentence_items h sentence).
Proof.
  assert (forall inclusion exclusion : Morpheme -> bool,
            sublist (fold_left (fun result word =>
                let i := Array_findIndex inclusion (Word_morphemes h word) in
                let k := lodash_findLastIndex exclusion (Word_morphemes h word) in
                if bool_decide (i ≠ -1) && bool_decide (i > k) then result ++ [word] else result)
              (Sentence_items h sentence) []) (Sentence_items h sentence)) as H.
  { intros inclusion exclusion. cbv zeta.
    destruct (word_class_sublist
      (fun word =>
         bool_decide (Array_findIndex inclusion (Word_morphemes h word) ≠ -1)
         && bool_decide (Array_findIndex inclusion (Word_morphemes h word)
                         > lodash_findLastIndex exclusion (Word_morphemes h word)))
      (Sentence_items h sentence) []) as (picked & -> & Hsub).
    exact Hsub. }
  split; [apply H|]. split; apply H.
Qed.

(** ** Word.entities, Entity *)

Lemma fold_left_push_new_NoDup (l : list value) : forall acc : list value,
  NoDup acc ->
  NoDup (fold_left (fun result entity =>
           if bool_decide (entity ∈ result) then result else result ++ [entity]) l acc).
Proof.
  induction l as [|x l IH]; intros acc Hacc; simpl; [exact Hacc|].
  apply IH. destruct (bool_decide (x ∈ acc)) eqn:E; [exact Hacc|].
  apply bool_decide_eq_false in E.
  apply list.NoDup_app. split; [exact Hacc|]. split.
  - intros y Hy Hy'. apply list_elem_of_singleton in Hy' as ->. contradiction.
  - apply list.NoDup_singleton.
Qed.

(** X24. [Word.entities] lists every Entity found on the [entities] list of
    one of the Word's morphemes, and lists it once, however many of the
    morphemes carry it. *)
Theorem Word_entities_distinct (h : heap) (word : value) :
  NoDup (Word_entities h word)
  /\ forall entity, entity ∈ Word_entities h word
       <-> exists morpheme, morpheme ∈ Word_items h word
                            /\ entity ∈ Morpheme_entities h morpheme.
Proof.
  split; [|intros entity; apply Word_entities_elem].
  unfold Word_entities. generalize (Word_items h word). intros ms.
  assert (forall acc : list value, NoDup acc ->
            NoDup (fold_left (fun result morpheme =>
                fold_left (fun result entity =>
                    if bool_decide (entity ∈ result) then result else result ++ [entity])
                  (Morpheme_entities h morpheme) result) ms acc)) as H.
  { induction ms as [|m ms IH]; intros acc Hacc; simpl; [exact Hacc|].
    apply IH, fold_left_push_new_NoDup, Hacc. }
  apply H. constructor.
Qed.

Lemma Morpheme_push_entities_Ok_inv morph x h u h' :
  Morpheme_push_entities morph x h = Ok u h' ->
  exists r m, morph = VObj r /\ h !! r = Some (OMorpheme m)
              /\ h' = <[r := OMorpheme (set_morph_entities (morph_entities m ++ [x]) m)]> h.
Proof.
  unfold Morpheme_push_entities.
  destruct morph as [| | | | |r]; try discriminate.
  destruct (h !! r) as [[m| | | | | |]|] eqn:Hr; try discriminate.
  intros [= <- <-]. eauto.
Qed.

Lemma Entity_push_loop_count x l : forall h h',
  forM (fun morph => Morpheme_push_entities morph x) l h = Ok tt h' ->
  (forall m, Morpheme_entities h' m
             = Morpheme_entities h m ++ replicate (count_occ value_eq_dec l m) x)
  /\ (forall r, (forall m, h !! r ≠ Some (OMorpheme m)) -> h' !! r = h !! r).
Proof.
  induction l as [|morph l IH]; intros h h' H; simpl in H.
  - injection H as <-. split; [|reflexivity]. intros m. simpl. rewrite app_nil_r. reflexivity.
  - apply bind_Ok in H as ([] & h1 & Hstep & Hrest).
    apply Morpheme_push_entities_Ok_inv in Hstep as (r & mo & -> & Hr & ->).
    pose proof (lookup_lt_Some _ _ _ Hr) as Hlt.
    apply IH in Hrest as [Hcount Hframe]. split.
    + intros m. rewrite Hcount.
      destruct (decide (VObj r = m)) as [<-|Hne].
      * rewrite count_occ_cons_eq by reflexivity. unfold Morpheme_entities.
        rewrite list_lookup_insert_eq by exact Hlt. rewrite Hr. simpl.
        rewrite <- app_assoc. reflexivity.
      * rewrite count_occ_cons_neq by exact Hne. f_equal.
        destruct m as [| | | | |r']; try reflexivity. unfold Morpheme_entities.
        rewrite list_lookup_insert_ne by congruence. reflexivity.
    + intros r' Hr'. rewrite Hframe.
      * apply list_lookup_insert_ne. intros ->. eapply Hr', Hr.
      * intros m Hm. destruct (decide (r = r')) as [<-|Hne].
        -- eapply Hr', Hr.
        -- rewrite list_lookup_insert_ne in Hm by exact Hne. eapply Hr', Hm.
Qed.

(** X25. When [new Entity(...)] returns an Entity, its items are the given
    morphemes, it belongs to no coreference group yet, and it has been
    appended to the [entities] list of each of its morphemes once per
    occurrence of the morpheme in the list; the [entities] lists of all
    other Morphemes are as before. *)
Theorem Entity_new_registers (surface label fineLabel : value) (morphemes : list value)
    (originalLabel : value) (h : heap) (entity : value) (h' : heap) :
  Entity_new surface label fineLabel morphemes originalLabel h = Ok entity h' ->
  entity = VObj (length h)
  /\ ImmutableArray_items h' entity = morphemes
  /\ backref_get Entity_corefGroup h' entity = Some VUndefined
  /\ forall morph, Morpheme_entities h' morph
                   = Morpheme_entities h morph
                     ++ replicate (count_occ value_eq_dec morphemes morph) entity.
Proof.
  intros H. unfold Entity_new in H.
  apply bind_Ok in H as ([] & h1 & H1 & H). apply typeCheck_Ok_same in H1 as [-> _].
  apply bind_Ok in H as ([] & h1 & H2 & H). apply typeCheck_Ok_same in H2 as [-> _].
  apply bind_Ok in H as ([] & h1 & H3 & H). apply typeCheck_Ok_same in H3 as [-> _].
  apply bind_Ok in H as ([] & h1 & H4 & H). apply typeCheck_Ok_same in H4 as [-> _].
  apply bind_Ok in H as (r & h2 & Halloc & H). unfold alloc in Halloc. injection Halloc as <- <-.
  apply bind_Ok in H as ([] & h3 & Hloop & H). injection H as <- <-.
  apply Entity_push_loop_count in Hloop as [Hcount Hframe].
  set (ent := {| entity_items := morphemes; entity_surface := surface;
                 entity_label := tagname_if CoarseEntityType label;
                 entity_fineLabel := fineLabel; entity_originalLabel := originalLabel;
                 entity_corefGroup := writeonlyonce VUndefined "corefGroup" |}) in *.
  assert (h3 !! length h = Some (OEntity ent)) as Hent.
  { rewrite Hframe; rewrite list_lookup_middle by reflexivity; [reflexivity|discriminate]. }
  split; [reflexivity|]. split; [|split].
  - unfold ImmutableArray_items. rewrite Hent. reflexivity.
  - unfold backref_get. simpl. rewrite Hent. reflexivity.
  - intros morph. rewrite Hcount. f_equal.
    destruct morph as [| | | | |r]; try reflexivity. simpl.
    destruct (decide (r < length h)%nat) as [Hlt|Hge].
    + rewrite lookup_app_l by exact Hlt. reflexivity.
    + destruct (decide (r = length h)) as [->|Hne].
      * rewrite list_lookup_middle by reflexivity.
        rewrite lookup_ge_None_2 by lia. reflexivity.
      * rewrite !lookup_ge_None_2; [reflexivity|lia|rewrite length_app; simpl; lia].
Qed.

Lemma Entity_new_registers_witness :
  exists entity h',
    Entity_new (VStr "뉴욕뉴") (VStr "LC") (VStr "LC_CITY")
      [VObj 0%nat; VObj 1%nat; VObj 0%nat] VUndefined heap_two_morphemes = Ok entity h'
    /\ Morpheme_entities h' (VObj 0%nat) = [entity; entity]
    /\ entity = VObj 2%nat
    /\ ImmutableArray_items h' entity = [VObj 0%nat; VObj 1%nat; VObj 0%nat]
    /\ backref_get Entity_corefGroup h' entity = Some VUndefined
    /\ forall morph, Morpheme_entities h' morph
                     = Morpheme_entities heap_two_morphemes morph
                       ++ replicate (count_occ value_eq_dec [VObj 0%nat; VObj 1%nat; VObj 0%nat]
                                       morph) entity.
Proof.
  eexists _, _. split; [vm_compute; reflexivity|]. split; [vm_compute; reflexivity|].
  apply (Entity_new_registers (VStr "뉴욕뉴") (VStr "LC") (VStr "LC_CITY")
           [VObj 0%nat; VObj 1%nat; VObj 0%nat] VUndefined heap_two_morphemes).
  vm_compute. reflexivity.
Defined.

(** ** Positions in a native entity *)

Lemma index_cases x name h :
  (exists v, index x name h = Ok v h) \/ index x name h = Throw TypeError_native h.
Proof.
  unfold index. destruct x as [| | | | |r]; auto.
  destruct (h !! r) as [[| | | | | |]|]; eauto.
Qed.

Lemma _getMorph_cases this jm h :
  (exists v, _getMorph this jm h = Ok v h) \/ _getMorph this jm h = Throw TypeError_native h.
Proof.
  unfold _getMorph.
  destruct (index_cases this (jmr_word jm) h) as [(w & Hw)|Hw].
  - rewrite (bind_Ok_intro _ _ _ _ _ Hw). apply index_cases.
  - right. apply bind_Throw_intro, Hw.
Qed.

Lemma mapM_getMorph_cases this l h :
  (exists vs, mapM (_getMorph this) l h = Ok vs h
              /\ Forall2 (fun jm v => _getMorph this jm h = Ok v h) l vs)
  \/ mapM (_getMorph this) l h = Throw TypeError_native h.
Proof.
  induction l as [|jm l IH]; simpl.
  - left. exists []. split; [reflexivity|constructor].
  - destruct (_getMorph_cases this jm h) as [(v & Hv)|Hv].
    + rewrite (bind_Ok_intro _ _ _ _ _ Hv).
      destruct IH as [(vs & Hvs & Hall)|Hthrow].
      * left. exists (v :: vs). rewrite (bind_Ok_intro _ _ _ _ _ Hvs).
        split; [reflexivity|]. constructor; assumption.
      * right. apply bind_Throw_intro, Hthrow.
    + right. apply bind_Throw_intro, Hv.
Qed.

Lemma _getMorph_inside h r s jm (i : nat) word :
  h !! r = Some (OSentence s) -> is_Word h word ->
  proxy_index (sent_items s) (jmr_word jm) = word ->
  _getMorph (VObj r) jm h = Ok (proxy_index (Word_items h word) (jmr_id jm)) h.
Proof.
  intros Hr (rw & w & -> & Hrw) Hword. unfold _getMorph, bind, index. rewrite Hr, Hword, Hrw.
  unfold Word_items. rewrite Hrw. reflexivity.
Qed.

(** X26. A native morpheme is located by the [id] of its word and its own
    [id], both read through the containers' numeric properties: a position
    [i] of the Sentence, or [i - length] counted from its end, leads to the
    Word at [i], and the morpheme is what that Word has at the morpheme's
    [id] ([undefined] outside the Word); a word [id] outside the Sentence
    makes [_getMorph] throw, since it reads a property of [undefined]. *)
Theorem getMorph_resolves_from_both_ends (h : heap) (r : ref) (s : Sentence) (jm : JMorphRef) :
  h !! r = Some (OSentence s) -> Forall (is_Word h) (sent_items s) ->
  let n := Z.of_nat (length (sent_items s)) in
  (forall (i : nat) word, sent_items s !! i = Some word ->
      jmr_word jm = Z.of_nat i \/ jmr_word jm = Z.of_nat i - n ->
      _getMorph (VObj r) jm h = Ok (proxy_index (Word_items h word) (jmr_id jm)) h)
  /\ (n <= jmr_word jm \/ jmr_word jm < - n ->
      _getMorph (VObj r) jm h = Throw TypeError_native h).
Proof.
  intros Hr Hwords n. split.
  - intros i word Hi Hpos. apply (_getMorph_inside h r s jm i); [exact Hr| |].
    + rewrite Forall_forall in Hwords. apply Hwords, list_elem_of_In, list_elem_of_lookup. eauto.
    + destruct (proxy_index_inside _ _ _ Hi) as [H1 H2]. destruct Hpos as [->| ->]; assumption.
  - intros Hout. unfold _getMorph, bind, index. rewrite Hr.
    rewrite (proxy_index_outside _ _ Hout). reflexivity.
Qed.

Lemma getMorph_resolves_from_both_ends_witness :
  _getMorph (VObj 7%nat) {| jmr_word := -1; jmr_id := 0 |} heap_nouns_sentence
  = Ok (VObj 4%nat) heap_nouns_sentence
  /\ _getMorph (VObj 7%nat) {| jmr_word := 2; jmr_id := 0 |} heap_nouns_sentence
     = Throw TypeError_native heap_nouns_sentence.
Proof.
  assert (Forall (is_Word heap_nouns_sentence) [VObj 3%nat; VObj 6%nat]) as Hwords
    by (repeat constructor; eexists _, _; split; reflexivity).
  split.
  - apply (proj1 (getMorph_resolves_from_both_ends heap_nouns_sentence 7%nat _
                    {| jmr_word := -1; jmr_id := 0 |} eq_refl Hwords) 1%nat (VObj 6%nat) eq_refl).
    right. reflexivity.
  - apply (proj2 (getMorph_resolves_from_both_ends heap_nouns_sentence 7%nat _
                    {| jmr_word := 2; jmr_id := 0 |} eq_refl Hwords)).
    left. simpl. lia.
Defined.

(** X27. [_getEntity] throws, and leaves the store as it was, when one of
    the native entity's morphemes lies outside the Sentence: either its word
    [id] is outside, or the word is found and its own [id] is outside that
    Word (the lookup then yields [undefined], which the constructor of
    Entity rejects). *)
Theorem getEntity_outside_throws (h : heap) (r : ref) (s : Sentence) (e : JEntity)
    (jm : JMorphRef) :
  h !! r = Some (OSentence s) -> Forall (is_Word h) (sent_items s) ->
  jm ∈ je_morphemes e ->
  let n := Z.of_nat (length (sent_items s)) in
  (n <= jmr_word jm \/ jmr_word jm < - n)
  \/ (exists (i : nat) word,
        sent_items s !! i = Some word
        /\ (jmr_word jm = Z.of_nat i \/ jmr_word jm = Z.of_nat i - n)
        /\ (Z.of_nat (length (Word_items h word)) <= jmr_id jm
            \/ jmr_id jm < - Z.of_nat (length (Word_items h word)))) ->
  exists err, _getEntity (VObj r) e h = Throw err h.
Proof.
  intros Hr Hwords Hjm n Hout. unfold _getEntity.
  destruct (mapM_getMorph_cases (VObj r) (je_morphemes e) h) as [(vs & Hvs & Hall)|Hthrow].
  2:{ exists TypeError_native. apply bind_Throw_intro, Hthrow. }
  rewrite (bind_Ok_intro _ _ _ _ _ Hvs).
  destruct (Forall2_elem_left _ _ _ _ Hall Hjm) as (v & Hv & Hget).
  assert (v = VUndefined) as ->.
  { destruct Hout as [Hout|(i & word & Hi & Hpos & Hout)].
    - unfold _getMorph, bind, index in Hget. rewrite Hr in Hget.
      rewrite (proxy_index_outside _ _ Hout) in Hget. discriminate.
    - rewrite (_getMorph_inside h r s jm i word) in Hget; [| exact Hr | |].
      + rewrite (proxy_index_outside _ _ Hout) in Hget. congruence.
      + rewrite Forall_forall in Hwords.
        apply Hwords, list_elem_of_In, list_elem_of_lookup. eauto.
      + destruct (proxy_index_inside _ _ _ Hi) as [H1 H2].
        destruct Hpos as [->| ->]; assumption. }
  unfold Entity_new.
  destruct (typeCheck_cases vs ["Morpheme"] h) as [Hok|(err & Hthrow)].
  - apply typeCheck_Morphemes in Hok. rewrite Forall_forall in Hok.
    apply list_elem_of_In, Hok in Hv. destruct Hv as (? & ? & [=] & _).
  - exists err. apply bind_Throw_intro, Hthrow.
Qed.

Lemma getEntity_outside_throws_witness :
  exists err,
    _getEntity (VObj 7%nat)
      {| je_surface := VStr "먹기"; je_label := VStr "EV"; je_fineLabel := VStr "EV_OTHERS";
         je_morphemes := [ {| jmr_word := 1; jmr_id := 0 |}; {| jmr_word := 1; jmr_id := 2 |} ];
         je_originalLabel := VNull |} heap_nouns_sentence
    = Throw err heap_nouns_sentence.
Proof.
  eapply (getEntity_outside_throws heap_nouns_sentence 7%nat _ _ {| jmr_word := 1; jmr_id := 2 |}).
  - reflexivity.
  - repeat constructor; eexists _, _; split; reflexivity.
  - right. left.
  - right. exists 1%nat, (VObj 6%nat). split; [reflexivity|]. split; [left; reflexivity|].
    left. vm_compute. discriminate.
Defined.

Lemma Word_equals_Word h a b wa wb :
  h !! a = Some (OWord wa) -> h !! b = Some (OWord wb) ->
  Word_equals h (VObj a) (VObj b)
  = inr (ImmutableArray_equals (Morpheme_equals h) (word_items wa) (word_items wb)
         && bool_decide (word_surface wa = word_surface wb)).
Proof.
  intros Ha Hb. unfold Word_equals, arraylike_items, surface_of. rewrite Ha, Hb. reflexivity.
Qed.

(** X28. [Word.equals] on Words over Morphemes: a Word equals itself, the
    answer does not depend on which of two Words is asked, and it is
    transitive; [equals(undefined)] is [false], [equals(null)] throws. *)
Theorem Word_equals_equivalence (h : heap) (a b : ref) (wa wb : Word) :
  h !! a = Some (OWord wa) -> h !! b = Some (OWord wb) ->
  Forall (is_Morpheme h) (word_items wa) ->
  Word_equals h (VObj a) (VObj a) = inr true
  /\ Word_equals h (VObj a) (VObj b) = Word_equals h (VObj b) (VObj a)
  /\ (forall c, Word_equals h (VObj a) (VObj b) = inr true ->
                Word_equals h (VObj b) c = inr true ->
                Word_equals h (VObj a) c = inr true)
  /\ Word_equals h (VObj a) VUndefined = inr false
  /\ Word_equals h (VObj a) VNull = inl TypeError_native.
Proof.
  intros Ha Hb Hm. split; [apply (Word_equals_refl _ _ _ Ha Hm)|]. split; [|split].
  - rewrite (Word_equals_Word _ _ _ _ _ Ha Hb), (Word_equals_Word _ _ _ _ _ Hb Ha).
    f_equal. f_equal.
    + apply ImmutableArray_equals_sym. intros; apply Morpheme_equals_sym.
    + apply bool_decide_ext. split; congruence.
  - intros c. rewrite (Word_equals_Word _ _ _ _ _ Ha Hb).
    intros [= Hab]. apply andb_true_iff in Hab as [Iab Sab]. apply bool_decide_eq_true in Sab.
    unfold Word_equals. rewrite Ha, Hb.
    destruct c as [| | | | |c]; try discriminate.
    destruct (arraylike_items h c) as [others|]; [|discriminate].
    intros [= Hbc]. apply andb_true_iff in Hbc as [Ibc Sbc]. apply bool_decide_eq_true in Sbc.
    f_equal. apply andb_true_iff. split.
    + eapply ImmutableArray_equals_trans; [apply Morpheme_equals_trans|eassumption|eassumption].
    + apply bool_decide_eq_true. congruence.
  - unfold Word_equals. rewrite Ha. auto.
Qed.

Lemma Word_equals_equivalence_witness :
  Word_equals heap_two_words (VObj 1%nat) (VObj 1%nat) = inr true
  /\ Word_equals heap_two_words (VObj 1%nat) (VObj 3%nat)
     = Word_equals heap_two_words (VObj 3%nat) (VObj 1%nat)
  /\ Word_equals heap_two_words (VObj 1%nat) VNull = inl TypeError_native.
Proof.
  edestruct (Word_equals_equivalence heap_two_words 1%nat 3%nat) as (R & S & _ & _ & N).
  - reflexivity.
  - reflexivity.
  - repeat constructor; eexists _, _; split; reflexivity.
  - split; [exact R|]. split; [exact S|exact N].
Defined.

(** ** Building a Word from native data *)

Lemma Morpheme_new_fresh surface tag originalTag reference h :
  (exists s, surface = VStr s) ->
  (exists t, typeName h tag = Some t /\ t ∈ ["string"; "POS"]) ->
  (originalTag = VUndefined \/ exists s, originalTag = VStr s) ->
  exists mo, Morpheme_new surface tag originalTag reference h
             = Ok (VObj (length h)) (h ++ [OMorpheme mo])
             /\ cell_value (morph_id mo) = VUndefined
             /\ cell_value (morph_word mo) = VUndefined.
Proof.
  intros (s & ->) Htag Hot. unfold Morpheme_new.
  rewrite (bind_Ok_intro _ _ h tt h) by reflexivity.
  rewrite (bind_Ok_intro _ _ h tt h) by (apply typeCheck_single, Htag).
  rewrite (bind_Ok_intro _ _ h tt h)
    by (destruct Hot as [->|(s' & ->)]; reflexivity).
  unfold bind at 1. unfold alloc at 1.
  destruct reference as [wordSense|].
  - unfold bind, Morpheme_assign_wordSense, ret.
    rewrite list_lookup_middle by reflexivity.
    eexists. split; [|split].
    + f_equal. rewrite insert_app_r_alt by lia. rewrite Nat.sub_diag. simpl. reflexivity.
    + reflexivity.
    + reflexivity.
  - unfold bind, ret. eexists. split; [reflexivity|]. split; reflexivity.
Qed.

Lemma typeName_string_or_POS h v :
  (exists t, typeName h v = Some t /\ t ∈ ["string"; "POS"])
  <-> (exists s, v = VStr s) \/ (exists n, v = VEnum POS n).
Proof.
  split.
  - intros (t & Ht & Hin).
    assert (t = "string" \/ t = "POS") as Hcases.
    { apply elem_of_cons in Hin as [->|Hin]; [auto|].
      apply list_elem_of_singleton in Hin. auto. }
    clear Hin. revert Ht.
    typeName_cases v h; intros [= <-]; destruct Hcases as [?|?]; try discriminate; eauto.
  - intros [(s & ->)|(n & ->)]; simpl; eexists; (split; [reflexivity|]).
    + left.
    + right. left.
Qed.

Lemma unlinked_alloc h o v : unlinked h v -> unlinked (h ++ [o]) v.
Proof.
  intros (r & m & -> & Hr & Hid & Hword). exists r, m.
  split; [reflexivity|]. split; [apply lookup_app_l_Some, Hr|auto].
Qed.

Lemma mapM_Morpheme_new_fresh l : forall h,
  Forall morpheme_typed l ->
  exists ms h',
    mapM (fun m => Morpheme_new (jm_surface m) (jm_tag m) (jm_originalTag m)
                     (Some (jm_wordSense m))) l h = Ok ms h'
    /\ NoDup ms /\ Forall (unlinked h') ms
    /\ Forall (fun v => exists r, v = VObj r /\ (length h <= r)%nat) ms
    /\ (forall v, unlinked h v -> unlinked h' v).
Proof.
  induction l as [|m l IH]; intros h Hall; simpl.
  - exists [], h. split; [reflexivity|]. split; [constructor|]. auto.
  - inversion Hall as [|? ? (Hs & Ht & Ho) Hl]; subst.
    destruct (Morpheme_new_fresh (jm_surface m) (jm_tag m) (jm_originalTag m)
                (Some (jm_wordSense m)) h Hs) as (mo & Hnew & Hid & Hword);
      [apply typeName_string_or_POS, Ht|exact Ho|].
    rewrite (bind_Ok_intro _ _ _ _ _ Hnew).
    destruct (IH (h ++ [OMorpheme mo]) Hl) as (ms & h' & Hms & Hnd & Hun & Haddr & Hkeep).
    rewrite (bind_Ok_intro _ _ _ _ _ Hms).
    exists (VObj (length h) :: ms), h'. split; [reflexivity|].
    rewrite length_app in Haddr. simpl in Haddr.
    split; [|split; [|split]].
    + constructor; [|exact Hnd]. intros Hin. rewrite Forall_forall in Haddr.
      apply list_elem_of_In, Haddr in Hin as (r & [= <-] & Hr). lia.
    + constructor; [|exact Hun]. apply Hkeep. exists (length h), mo.
      split; [reflexivity|]. split; [apply list_lookup_middle; reflexivity|auto].
    + constructor; [eauto|]. eapply Forall_impl; [|exact Haddr].
      simpl. intros v (r & -> & Hr). exists r. split; [reflexivity|lia].
    + intros v Hv. apply Hkeep, unlinked_alloc, Hv.
Qed.

(** X29. The Word for a native word is built (the Morphemes are created one
    by one and the Word over them) exactly when the word's surface is a
    string and every morpheme has a string surface, a tag that is a string
    or a POS tag, and an original tag that is a string or [undefined]. *)
Theorem reconstruct_word_succeeds_iff (w : JWord) (h : heap) :
  (exists word h', reconstruct_word w h = Ok word h')
  <-> (exists s, jw_surface w = VStr s) /\ Forall morpheme_typed (jw_morphemes w).
Proof.
  split.
  - intros (word & h' & H). unfold reconstruct_word in H.
    apply bind_Ok in H as (ms & h1 & Hms & H). split.
    + unfold Word_new in H.
      apply bind_Ok in H as ([] & h2 & H1 & H). apply typeCheck_Ok_same in H1 as [-> _].
      apply bind_Ok in H as ([] & h2 & H2 & _). apply typeCheck_Ok_same in H2 as [_ H2].
      apply typeCheck_single in H2 as (t & Ht & Hin). apply list_elem_of_singleton in Hin as ->.
      apply (typeName_string h1), Ht.
    + apply mapM_Ok_inv in Hms. apply Forall_forall. intros m Hm.
      destruct (Forall2_elem_left _ _ _ _ Hms (proj2 (list_elem_of_In _ _) Hm))
        as (mo & _ & h2 & h3 & Hmo).
      apply Morpheme_new_inv in Hmo as (Hs & Ht & Ho).
      split; [exact Hs|]. split; [apply (typeName_string_or_POS h2), Ht|exact Ho].
  - intros [(s & Hs) Hall]. unfold reconstruct_word.
    destruct (mapM_Morpheme_new_fresh _ h Hall) as (ms & h1 & Hms & Hnd & Hun & _).
    rewrite (bind_Ok_intro _ _ _ _ _ Hms).
    apply Word_new_fresh_succeeds; [rewrite Hs; reflexivity|exact Hnd|exact Hun].
Qed.

(** ** Coreference groups of a reconstructed sentence *)

Lemma Array_find_elem (p : value -> bool) (l : list value) :
  Array_find p l = VUndefined \/ Array_find p l ∈ l.
Proof.
  unfold Array_find. destruct (List.find p l) as [x|] eqn:E; simpl; [|auto].
  right. apply find_some in E as [Hin _]. apply list_elem_of_In, Hin.
Qed.

Lemma Entity_new_keeps_Sentence surface label fineLabel morphemes originalLabel h E h' this :
  Entity_new surface label fineLabel morphemes originalLabel h = Ok E h' ->
  Sentence_entities h' this = Sentence_entities h this.
Proof.
  intros H. unfold Entity_new in H.
  apply bind_Ok in H as ([] & h1 & H1 & H). apply typeCheck_Ok_same in H1 as [-> _].
  apply bind_Ok in H as ([] & h1 & H2 & H). apply typeCheck_Ok_same in H2 as [-> _].
  apply bind_Ok in H as ([] & h1 & H3 & H). apply typeCheck_Ok_same in H3 as [-> _].
  apply bind_Ok in H as ([] & h1 & H4 & H). apply typeCheck_Ok_same in H4 as [-> _].
  apply bind_Ok in H as (r & h2 & Halloc & H). unfold alloc in Halloc. injection Halloc as <- <-.
  apply bind_Ok in H as ([] & h3 & Hloop & H). injection H as <- <-.
  pose proof (Entity_push_loop _ _ _ _ Hloop) as [Hev _].
  apply Entity_push_loop_count in Hloop as [_ Hframe].
  destruct this as [| | | | |r]; try reflexivity. unfold Sentence_entities.
  destruct (h !! r) as [o|] eqn:Hr.
  - match type of Hev with heap_evolves (h ++ [?x]) _ =>
      pose proof (lookup_app_l_Some _ [x] _ _ Hr) as Hr1 end.
    destruct (Hev _ _ Hr1) as (o' & Hr3 & Hobj). rewrite Hr3.
    destruct o as [m| | | | | |s]; destruct o'; simpl in Hobj; try contradiction;
      try reflexivity.
    rewrite Hframe in Hr3; [|rewrite Hr1; discriminate].
    rewrite Hr1 in Hr3. injection Hr3 as <-. reflexivity.
  - apply lookup_ge_None_1 in Hr.
    destruct (decide (r = length h)) as [->|Hne].
    + rewrite Hframe; rewrite list_lookup_middle by reflexivity; [reflexivity|discriminate].
    + rewrite Hframe; rewrite lookup_ge_None_2 by (rewrite length_app; simpl; lia);
        [reflexivity|discriminate].
Qed.

Lemma coref_members_found this c : forall h entities h1,
  mapM (fun e =>
      let! referenced := _getEntity this e in
      fun h => Ok (Array_find (fun enty => Entity_equals h enty referenced)
                     (Sentence_entities h this)) h) c h = Ok entities h1 ->
  Forall (fun member => member = VUndefined \/ member ∈ Sentence_entities h this) entities
  /\ Sentence_entities h1 this = Sentence_entities h this
  /\ length entities = length c.
Proof.
  induction c as [|e c IH]; intros h entities h1 H; simpl in H.
  - injection H as <- <-. split; [constructor|]. auto.
  - apply bind_Ok in H as (member & h2 & Hm & H). apply bind_Ok in H as (rest & h3 & Hrest & H).
    injection H as <- <-.
    apply bind_Ok in Hm as (referenced & h4 & Href & Hfind). injection Hfind as <- <-.
    unfold _getEntity in Href. apply bind_Ok in Href as (ms & h5 & Hms & Hnew).
    apply mapM_getMorph_pure in Hms as ->.
    pose proof (Entity_new_keeps_Sentence _ _ _ _ _ _ _ _ this Hnew) as Hsame.
    apply IH in Hrest as (Hall & Hsame' & Hlen).
    split; [|split; [congruence|simpl; congruence]].
    constructor.
    + rewrite <- Hsame. apply Array_find_elem.
    + eapply Forall_impl; [|exact Hall]. simpl. intros x [->|Hx]; [auto|]. right. congruence.
Qed.

(** X30. A coreference group rebuilt by [_getCorefGroup] has one member per
    native entry; every member is an Entity of the Sentence's [entities]
    list (the Entity built to search that list never becomes a member) and
    has the group as its [corefGroup]. *)
Theorem getCorefGroup_members (this : value) (c : list JEntity) (h : heap)
    (g : value) (h' : heap) :
  _getCorefGroup this c h = Ok g h' ->
  length (ImmutableArray_items h' g) = length c
  /\ forall member, member ∈ ImmutableArray_items h' g ->
       member ∈ Sentence_entities h this
       /\ backref_get Entity_corefGroup h' member = Some g.
Proof.
  intros H. unfold _getCorefGroup in H.
  apply bind_Ok in H as (entities & h1 & Hfound & Hnew).
  apply coref_members_found in Hfound as (Hall & _ & Hlen).
  apply CoreferenceGroup_new_inv in Hnew as (-> & Hents & Hloop).
  apply backref_loop in Hloop as (Hheld & _ & _ & _ & Hframe).
  assert (ImmutableArray_items h' (VObj (length h1)) = entities) as Hitems.
  { unfold ImmutableArray_items. rewrite Hframe.
    - rewrite list_lookup_middle by reflexivity. reflexivity.
    - intros Hin. rewrite Forall_forall in Hents.
      apply list_elem_of_In, Hents in Hin. eapply is_Entity_not_fresh; [exact Hin|reflexivity]. }
  rewrite Hitems. split; [exact Hlen|]. intros member Hin. split.
  - rewrite Forall_forall in Hall. destruct (Hall member) as [->|Hm];
      [apply list_elem_of_In, Hin| |exact Hm].
    rewrite Forall_forall in Hents. apply list_elem_of_In, Hents in Hin.
    destruct Hin as (? & ? & [=] & _).
  - rewrite list.Forall_forall in Hheld.
    apply backref_holds_defined; [reflexivity|]. apply Hheld, Hin.
Qed.

Lemma getCorefGroup_members_witness :
  exists g h',
    _getCorefGroup (VObj 6%nat) [jentity_kim] heap_sentence_with_entity = Ok g h'
    /\ ImmutableArray_items h' g = [VObj 7%nat]
    /\ length (ImmutableArray_items h' g) = length [jentity_kim]
    /\ forall member, member ∈ ImmutableArray_items h' g ->
         member ∈ Sentence_entities heap_sentence_with_entity (VObj 6%nat)
         /\ backref_get Entity_corefGroup h' member = Some g.
Proof.
  eexists _, _. split; [vm_compute; reflexivity|]. split; [vm_compute; reflexivity|].
  apply (getCorefGroup_members (VObj 6%nat) [jentity_kim] heap_sentence_with_entity).
  vm_compute. reflexivity.
Defined.
